(** * css-transition-group: the reconciliation engine of [CSSTransitionGroup]

    A shallow embedding of the transition-group component
    (the final variant [CSSTransitionGroup], with the pieces of the earlier
    variants [TransitionGroup2.tsx] and [TransitionGroup.tsx] that the
    specification refers to) and the proofs of the properties the
    specification states about it.

    Conventions of the embedding:
    - a JavaScript [number] used as an array index is a [Z];
    - a [Set<React.Key>] is a [gset Key], a [Map<React.Key, number>] a
      [gmap Key nat];
    - an array that is only read is a [list]; the array that
      [childrenToRender] builds by index assignment is a list of optional
      slots, a hole being [None], and an assignment beyond the end extends
      the array as JavaScript does;
    - reading a property of [undefined] throws a [TypeError]: the functions
      that can do so return an [option], [None] being the throw;
    - React state and refs are the fields of one [State] record, the
      browser's timer and animation-frame tables are part of it, and each
      host-delivered event is one function on [State]. *)

From Stdlib Require Import ZArith List Sorted Permutation.
From stdpp Require Import gmap strings list fin_maps sorting.
Import ListNotations.

Open Scope string_scope.
Open Scope Z_scope.
Open Scope list_scope.

(** ** Data model *)

(** [React.Key] *)
Abbreviation Key := string.

(** A [React.ReactElement], as far as the component looks into it: its
    [key], the [className] of its props (which may be absent) and the
    rest, which is carried along untouched. *)
Record ReactElement := mkElement {
  key : Key;
  className : option string;
  content : string
}.

(** [interface IElementWithIndex { element; index }] *)
Record IElementWithIndex := mkIndexed {
  element : ReactElement;
  index : Z
}.

(** [interface IWrapperElement { Element; className? }] *)
Record IWrapperElement := mkWrapper {
  Element : string;
  wrapperClassName : option string
}.

(** The props of the component that the engine reads. *)
Record ITransitionGroupProps := mkProps {
  transitionName : string;
  transitionEnterTimeout : Z;
  transitionLeaveTimeout : Z;
  wrapWith : option IWrapperElement
}.

#[global] Instance ReactElement_eq_dec : EqDecision ReactElement.
Proof. solve_decision. Defined.
#[global] Instance IElementWithIndex_eq_dec : EqDecision IElementWithIndex.
Proof. solve_decision. Defined.

(** ** Arrays with identity: [EMPTY_ARRAY] *)

(** The result of a function that returns either the module's one
    [EMPTY_ARRAY] or an array it has just allocated. Two references are
    identical ([===]) only when both are [EMPTY_ARRAY]: an allocation is
    identical to nothing that existed before it. *)
Inductive ArrayRef (A : Type) :=
| EMPTY_ARRAY
| Allocated (items : list A).
Arguments EMPTY_ARRAY {A}.
Arguments Allocated {A} items.

Definition items_of {A} (r : ArrayRef A) : list A :=
  match r with
  | EMPTY_ARRAY => []
  | Allocated l => l
  end.

(** [a === EMPTY_ARRAY] *)
Definition is_EMPTY_ARRAY {A} (r : ArrayRef A) : bool :=
  match r with
  | EMPTY_ARRAY => true
  | Allocated _ => false
  end.

(** ** [elementDiff] *)

(** [new Set(compareWith.map(element => element.key))] *)
Definition keySet (l : list ReactElement) : gset Key :=
  list_to_set (map key l).

(** [comparedItems.map((element, index) => ({ element, index }))] *)
Definition withIndex (l : list ReactElement) : list IElementWithIndex :=
  imap (fun i e => mkIndexed e (Z.of_nat i)) l.

(** [function elementDiff(comparedItems, compareWith)] *)
Definition elementDiff (comparedItems compareWith : list ReactElement)
  : ArrayRef IElementWithIndex :=
  let compareWithKeys := keySet compareWith in
  let diff :=
    List.filter (fun ei => negb (bool_decide (key (element ei) ∈ compareWithKeys)))
                (withIndex comparedItems) in
  match diff with
  | [] => EMPTY_ARRAY
  | _ :: _ => Allocated diff
  end.

(** The [children] prop:
    [Array<React.ReactElement | null> | React.ReactElement | undefined | null]. *)
Inductive ChildrenProp :=
| NoChildren
| SingleChild (e : ReactElement)
| ChildArray (elements : list (option ReactElement)).

(** [function toArray(elements)] of the final variant: nothing and the
    empty array give [EMPTY_ARRAY], an array loses its null entries
    ([elements.filter(Boolean)]), a single element is wrapped. *)
Definition toArray (elements : ChildrenProp) : ArrayRef ReactElement :=
  match elements with
  | NoChildren => EMPTY_ARRAY
  | SingleChild e => Allocated [e]
  | ChildArray [] => EMPTY_ARRAY
  | ChildArray (x :: l) => Allocated (omap id (x :: l))
  end.

(** ** [cloneWithClassName] *)

(** What [cloneWithClassName] returns: the element cloned with a new
    [className], or the wrapper element around the untouched element. *)
Inductive Rendered :=
| Cloned (e : ReactElement)
| Wrapped (tag : string) (wkey : option Key) (wclass : string) (child : ReactElement).

(** [x || (empty string)] on an optional string: the empty string is
    falsy too. *)
Definition orEmpty (o : option string) : string :=
  match o with
  | Some s => s
  | None => EmptyString
  end.

(** [element.key || undefined] *)
Definition keyOrUndefined (k : Key) : option Key :=
  if decide (k = EmptyString) then None else Some k.

(** [function cloneWithClassName(element, className, wrapWith)] *)
Definition cloneWithClassName (el : ReactElement) (cls : string)
    (wrap : option IWrapperElement) : Rendered :=
  let elementClassName := orEmpty (className el) in
  match wrap with
  | Some w =>
      Wrapped (Element w) (keyOrUndefined (key el))
              (orEmpty (wrapperClassName w) +:+ " " +:+ cls) el
  | None =>
      Cloned (mkElement (key el) (Some (elementClassName +:+ " " +:+ cls)) (content el))
  end.

(** The key React sees on a rendered node. *)
Definition renderedKey (r : Rendered) : option Key :=
  match r with
  | Cloned e => Some (key e)
  | Wrapped _ k _ _ => k
  end.

(** ** The array built by [childrenToRender] *)

(** A JavaScript array of rendered nodes; [None] is a hole. *)
Abbreviation JsArray := (list (option Rendered)).

(** [new Array(n)] *)
Definition newArray (n : nat) : JsArray := replicate n None.

(** [arr[i] = v]: a negative [i] sets a property that is no element of
    the array; [i] within the length replaces the slot; [i] beyond it
    extends the array, leaving holes in between. *)
Definition arraySet (arr : JsArray) (i : Z) (v : Rendered) : JsArray :=
  if i <? 0 then arr
  else
    let n := Z.to_nat i in
    if (n <? length arr)%nat then <[n := Some v]> arr
    else arr ++ replicate (n - length arr) None ++ [Some v].

(** The class string of a leaving child:
    ["<name>-leave "] followed by nothing when the child is inactive and
    by ["<name>-leave-active"] when it is not. *)
Definition leaveClassName (name : string) (isInactive : bool) : string :=
  name +:+ "-leave " +:+ (if isInactive then EmptyString else name +:+ "-leave-active").

(** The class string of a still-existing child ([childClassName]). *)
Definition childClassName (name : string) (isEntering isInactive : bool) : string :=
  if isEntering then
    if isInactive then name +:+ "-enter"
    else name +:+ "-enter " +:+ name +:+ "-enter-active"
  else EmptyString.

Section Render.
Variable name : string.
Variable wrap : option IWrapperElement.
Variable children : list ReactElement.
Variables enteringChildren inactiveChildren : gset Key.

(** The body of [leavingChildren.forEach(({ element, index }) => ...)]. *)
Definition renderLeaving (e : IElementWithIndex) : Rendered :=
  let isInactive := bool_decide (key (element e) ∈ inactiveChildren) in
  cloneWithClassName (element e) (leaveClassName name isInactive) wrap.

Definition placeLeaving (arr : JsArray) (e : IElementWithIndex) : JsArray :=
  arraySet arr (index e) (renderLeaving e).

(** What a gap is filled with. *)
Definition renderChild (child : ReactElement) : Rendered :=
  let isEntering := bool_decide (key child ∈ enteringChildren) in
  let isInactive := bool_decide (key child ∈ inactiveChildren) in
  cloneWithClassName child (childClassName name isEntering isInactive) wrap.

(** The loop
    [for (let index = 0, childIndex = 0; index < childrenToRenderLength; index++)]
    with [count] iterations left. [children[childIndex]] out of range is
    [undefined], and reading its [key] throws. *)
Fixpoint fillGaps (count index childIndex : nat) (arr : JsArray) : option JsArray :=
  match count with
  | O => Some arr
  | S count' =>
      match arr !! index with
      | Some (Some _) => fillGaps count' (S index) childIndex arr
      | _ =>
          match children !! childIndex with
          | None => None
          | Some child =>
              fillGaps count' (S index) (S childIndex)
                       (arraySet arr (Z.of_nat index) (renderChild child))
          end
      end
  end.

(** [childrenToRender] of [CSSTransitionGroup] (there [children] is
    [oldChildren.current]) and of [TransitionGroup2] (there it is
    [arrayChildren], and nothing is wrapped). *)
Definition childrenToRender (leavingChildren : list IElementWithIndex)
  : option JsArray :=
  let childrenToRenderLength := (length children + length leavingChildren)%nat in
  let localChildrenToRender :=
    fold_left placeLeaving leavingChildren (newArray childrenToRenderLength) in
  fillGaps childrenToRenderLength 0 0 localChildrenToRender.
End Render.

(** ** The leaving registry *)

(** The inner [leavingChildren.forEach] of [mergeInRemovedChildren]:
    [indexPush] starts at 0 and grows by one at each leaving child whose
    index is at most [index + indexPush]. *)
Definition indexPush (leavingChildren : list IElementWithIndex) (i : Z) : Z :=
  fold_left
    (fun push l => if index l <=? i + push then push + 1 else push)
    leavingChildren 0.

(** [.sort(({ index: indexA }, { index: indexB }) => indexA - indexB)]:
    [Array.prototype.sort] is stable, so the result is the one stable
    ordering by index; it is computed here by insertion. *)
Fixpoint insertByIndex (x : IElementWithIndex) (l : list IElementWithIndex)
  : list IElementWithIndex :=
  match l with
  | [] => [x]
  | y :: l' => if index x <=? index y then x :: y :: l' else y :: insertByIndex x l'
  end.

Definition sortByIndex (l : list IElementWithIndex) : list IElementWithIndex :=
  fold_right insertByIndex [] l.

(** [function mergeInRemovedChildren(removedChildren, leavingChildren)] *)
Definition mergeInRemovedChildren (removedChildren leavingChildren : list IElementWithIndex)
  : list IElementWithIndex :=
  sortByIndex
    (leavingChildren ++
     map (fun r => mkIndexed (element r) (index r + indexPush leavingChildren (index r)))
         removedChildren).

(** The updater of [removeLeavingChild] in [CSSTransitionGroup] and
    [TransitionGroup2]: a [reduce] that drops the entries of [k] and, from
    the first one dropped on, subtracts [reduceIndex = 1] from the index
    of every entry it keeps. *)
Definition removeLeavingChild (k : Key) (localLeavingChildren : list IElementWithIndex)
  : list IElementWithIndex :=
  fst (fold_left
         (fun '(remainingLeavingChildren, reduceIndex) e =>
            if decide (key (element e) = k) then (remainingLeavingChildren, 1)
            else (remainingLeavingChildren ++
                    [mkIndexed (element e) (index e - reduceIndex)],
                  reduceIndex))
         localLeavingChildren ([], 0)).

(** The updater of [setLeavingChildren] in [removeLeavingItem] of the
    first variant ([TransitionGroup.tsx]): [find], then [filter], then
    [map]. *)
Definition removeLeavingItem (k : Key) (_leavingChildren : list IElementWithIndex)
  : list IElementWithIndex :=
  match List.find (fun e => bool_decide (key (element e) = k)) _leavingChildren with
  | None => _leavingChildren
  | Some leavingItem =>
      map (fun item =>
             if index item >? index leavingItem
             then mkIndexed (element item) (index item - 1)
             else item)
          (List.filter (fun e => negb (bool_decide (key (element e) = k)))
                       _leavingChildren)
  end.

(** The updater of [setLeavingChildren] in the effect on [addedChildren]:
    ["This element is no longer leaving (if it ever was)"]. *)
Definition dropAdded (addedKeys : gset Key) (localLeavingChildren : list IElementWithIndex)
  : list IElementWithIndex :=
  List.filter (fun child => negb (bool_decide (key (element child) ∈ addedKeys)))
              localLeavingChildren.

(** ** Predicates of the statements *)

(** Ascending by (merged) index, strictly. *)
Definition indexLt (a b : IElementWithIndex) : Prop := index a < index b.

(** Ascending by (merged) index. *)
Definition indexLe (a b : IElementWithIndex) : Prop := index a <= index b.

(** The merged indices of a registry are pairwise distinct and lie in
    [0, total). *)
Definition registryFits (total : nat) (leavingChildren : list IElementWithIndex) : Prop :=
  NoDup (map index leavingChildren)
  /\ Forall (fun e => 0 <= index e < Z.of_nat total) leavingChildren.

(** The slots of [0, total) that no leaving child claims, ascending. *)
Definition freeSlots (total : nat) (leavingChildren : list IElementWithIndex) : list nat :=
  filter (fun i : nat => Z.of_nat i ∉ map index leavingChildren) (seq 0 total).

(** The positions of the holes of an array, counted from [base]. *)
Fixpoint holesFrom (base : nat) (slots : JsArray) : list nat :=
  match slots with
  | [] => []
  | None :: rest => base :: holesFrom (S base) rest
  | Some _ :: rest => holesFrom (S base) rest
  end.

(** The gap-filling loop read off the slots that are still to be visited
    and the children that are still to be placed. *)
Fixpoint fillRest (render : ReactElement -> Rendered)
    (slots : JsArray) (rest : list ReactElement) : option JsArray :=
  match slots with
  | [] => Some []
  | Some r :: slots' => cons (Some r) <$> fillRest render slots' rest
  | None :: slots' =>
      match rest with
      | [] => None
      | child :: rest' => cons (Some (render child)) <$> fillRest render slots' rest'
      end
  end.

(** ** Sample data for the concrete runs *)

Definition itemA : ReactElement := mkElement "A" None "a".
Definition itemB : ReactElement := mkElement "B" (Some "square") "b".
Definition itemC : ReactElement := mkElement "C" None "c".
Definition itemD : ReactElement := mkElement "D" None "d".

(** The spec's reading of the merged index: walk the registry with an
    offset, add one at every entry whose merged index is at most
    [i + offset-so-far]; the merged index is [i + offset]. *)
Fixpoint offsetWalk (registry : list IElementWithIndex) (i offsetSoFar : Z) : Z :=
  match registry with
  | [] => offsetSoFar
  | entry :: rest =>
      if index entry <=? i + offsetSoFar
      then offsetWalk rest i (offsetSoFar + 1)
      else offsetWalk rest i offsetSoFar
  end.

Definition mergedIndex (registry : list IElementWithIndex) (i : Z) : Z :=
  i + offsetWalk registry i 0.

(** The spec's reading of [destroy]: drop the entries of the key and take
    one off every merged index above the removed entry's. *)
Definition shiftAbove (removedIndex : Z) (e : IElementWithIndex) : IElementWithIndex :=
  if decide (removedIndex < index e) then mkIndexed (element e) (index e - 1) else e.

Definition compacted (k : Key) (removedIndex : Z) (registry : list IElementWithIndex)
  : list IElementWithIndex :=
  map (shiftAbove removedIndex)
      (List.filter (fun e => negb (bool_decide (key (element e) = k))) registry).

(** ** The engine: state of one [CSSTransitionGroup] instance and its host *)

(** The callbacks the component hands to [window.setTimeout]. *)
Inductive TimeoutCallback :=
| SettleEnteringChild (k : Key)     (* [() => settleEnteringChild(key)] *)
| RemoveLeavingChild (k : Key).     (* [() => removeLeavingChild(key)] *)

Definition callbackKey (cb : TimeoutCallback) : Key :=
  match cb with
  | SettleEnteringChild k => k
  | RemoveLeavingChild k => k
  end.

(** The callbacks handed to [window.requestAnimationFrame]: the outer one
    requests the second frame, the inner one activates the children that
    were inactive in the render that created them. *)
Inductive FrameCallback :=
| RequestSecondFrame (captured : gset Key)
| ActivateChildren (captured : gset Key).

(** React state ([leavingChildren], [enteringChildren],
    [inactiveChildren]), refs ([oldChildren], [liveTimeouts],
    [liveActivationTimeouts]) and the two tables of the window: the
    pending timeouts with their delay, the pending animation frames, and
    the next handle of each (handles are positive and never reused). *)
Record State := mkState {
  oldChildren : list ReactElement;
  leavingChildren : list IElementWithIndex;
  enteringChildren : gset Key;
  inactiveChildren : gset Key;
  liveTimeouts : gmap Key nat;
  liveActivationTimeouts : gset nat;
  timeouts : gmap nat (TimeoutCallback * Z);
  nextTimeout : nat;
  frames : gmap nat FrameCallback;
  nextFrame : nat
}.

Definition setOldChildren (v : list ReactElement) (s : State) : State :=
  mkState v (leavingChildren s) (enteringChildren s) (inactiveChildren s)
          (liveTimeouts s) (liveActivationTimeouts s)
          (timeouts s) (nextTimeout s) (frames s) (nextFrame s).

Definition setLeavingChildren
    (f : list IElementWithIndex -> list IElementWithIndex) (s : State) : State :=
  mkState (oldChildren s) (f (leavingChildren s)) (enteringChildren s)
          (inactiveChildren s) (liveTimeouts s) (liveActivationTimeouts s)
          (timeouts s) (nextTimeout s) (frames s) (nextFrame s).

Definition setEnteringChildren (f : gset Key -> gset Key) (s : State) : State :=
  mkState (oldChildren s) (leavingChildren s) (f (enteringChildren s))
          (inactiveChildren s) (liveTimeouts s) (liveActivationTimeouts s)
          (timeouts s) (nextTimeout s) (frames s) (nextFrame s).

Definition setInactiveChildren (f : gset Key -> gset Key) (s : State) : State :=
  mkState (oldChildren s) (leavingChildren s) (enteringChildren s)
          (f (inactiveChildren s)) (liveTimeouts s) (liveActivationTimeouts s)
          (timeouts s) (nextTimeout s) (frames s) (nextFrame s).

Definition setLiveTimeout (k : Key) (handle : nat) (s : State) : State :=
  mkState (oldChildren s) (leavingChildren s) (enteringChildren s)
          (inactiveChildren s) (<[k := handle]> (liveTimeouts s))
          (liveActivationTimeouts s)
          (timeouts s) (nextTimeout s) (frames s) (nextFrame s).

Definition addLiveActivationTimeout (handle : nat) (s : State) : State :=
  mkState (oldChildren s) (leavingChildren s) (enteringChildren s)
          (inactiveChildren s) (liveTimeouts s)
          ({[handle]} ∪ liveActivationTimeouts s)
          (timeouts s) (nextTimeout s) (frames s) (nextFrame s).

(** [window.setTimeout(callback, delay)] *)
Definition window_setTimeout (cb : TimeoutCallback) (delay : Z) (s : State)
  : nat * State :=
  (nextTimeout s,
   mkState (oldChildren s) (leavingChildren s) (enteringChildren s)
           (inactiveChildren s) (liveTimeouts s) (liveActivationTimeouts s)
           (<[nextTimeout s := (cb, delay)]> (timeouts s)) (S (nextTimeout s))
           (frames s) (nextFrame s)).

(** [window.clearTimeout(handle)] *)
Definition window_clearTimeout (handle : nat) (s : State) : State :=
  mkState (oldChildren s) (leavingChildren s) (enteringChildren s)
          (inactiveChildren s) (liveTimeouts s) (liveActivationTimeouts s)
          (delete handle (timeouts s)) (nextTimeout s)
          (frames s) (nextFrame s).

(** [window.requestAnimationFrame(callback)] *)
Definition window_requestAnimationFrame (cb : FrameCallback) (s : State)
  : nat * State :=
  (nextFrame s,
   mkState (oldChildren s) (leavingChildren s) (enteringChildren s)
           (inactiveChildren s) (liveTimeouts s) (liveActivationTimeouts s)
           (timeouts s) (nextTimeout s)
           (<[nextFrame s := cb]> (frames s)) (S (nextFrame s))).

Definition takeTimeout (handle : nat) (s : State) : State :=
  window_clearTimeout handle s.

Definition takeFrame (handle : nat) (s : State) : State :=
  mkState (oldChildren s) (leavingChildren s) (enteringChildren s)
          (inactiveChildren s) (liveTimeouts s) (liveActivationTimeouts s)
          (timeouts s) (nextTimeout s)
          (delete handle (frames s)) (nextFrame s).

Section Engine.
Variable props : ITransitionGroupProps.

(** [clearLiveTimeout]: [if (currentTimeout) window.clearTimeout(currentTimeout)];
    an absent entry and the handle 0 are falsy. *)
Definition clearLiveTimeout (k : Key) (s : State) : State :=
  match liveTimeouts s !! k with
  | Some currentTimeout =>
      if decide (currentTimeout = 0%nat) then s else window_clearTimeout currentTimeout s
  | None => s
  end.

(** [settleEnteringChild]: the key leaves [enteringChildren]. *)
Definition settleEnteringChild (k : Key) (s : State) : State :=
  setEnteringChildren (fun localEnteringChildren => localEnteringChildren ∖ {[k]}) s.

(** [scheduleSettleEnteringChild] *)
Definition scheduleSettleEnteringChild (k : Key) (s : State) : State :=
  let s1 := clearLiveTimeout k s in
  let '(handle, s2) :=
    window_setTimeout (SettleEnteringChild k) (transitionEnterTimeout props) s1 in
  setLiveTimeout k handle s2.

(** [scheduleRemoveLeavingChild] *)
Definition scheduleRemoveLeavingChild (k : Key) (s : State) : State :=
  let s1 := clearLiveTimeout k s in
  let '(handle, s2) :=
    window_setTimeout (RemoveLeavingChild k) (transitionLeaveTimeout props) s1 in
  setLiveTimeout k handle s2.

Definition keysOf (l : list IElementWithIndex) : gset Key :=
  list_to_set (map (fun e => key (element e)) l).

(** The layout effect on [arrayChildren]: the newly removed children get
    a remove timer, are merged into [leavingChildren] and become
    inactive. *)
Definition removedEffect (arrayChildren : list ReactElement) (s : State) : State :=
  let removedChildren := items_of (elementDiff (oldChildren s) arrayChildren) in
  match removedChildren with
  | [] => s
  | _ :: _ =>
      let s1 :=
        fold_left (fun s' e => scheduleRemoveLeavingChild (key (element e)) s')
                  removedChildren s in
      let s2 := setLeavingChildren (mergeInRemovedChildren removedChildren) s1 in
      setInactiveChildren (fun local => keysOf removedChildren ∪ local) s2
  end.

(** The effect on [addedChildren]: the added children enter and get a
    settle timer, their keys leave [leavingChildren], and they become
    inactive. *)
Definition addedEffect (addedChildren : list IElementWithIndex) (s : State) : State :=
  match addedChildren with
  | [] => s
  | _ :: _ =>
      let addedKeys := keysOf addedChildren in
      let s1 :=
        fold_left
          (fun s' e =>
             scheduleSettleEnteringChild (key (element e))
               (setEnteringChildren (fun local => {[key (element e)]} ∪ local) s'))
          addedChildren s in
      let s2 := setLeavingChildren (dropAdded addedKeys) s1 in
      setInactiveChildren (fun local => addedKeys ∪ local) s2
  end.

(** The effect commented ["Clear all timeouts on unmount"]. Its body
    runs after the first commit; it returns no cleanup function. Both
    loops call [window.clearTimeout]. *)
Definition clearAllTimeoutsEffect (s : State) : State :=
  let s1 :=
    fold_left (fun s' timeout => window_clearTimeout timeout s')
              (snd <$> map_to_list (liveTimeouts s)) s in
  fold_left (fun s' timeout => window_clearTimeout timeout s')
            (elements (liveActivationTimeouts s1)) s1.

(** The end of the component body: with inactive children, the first of
    two animation frames is requested. *)
Definition requestActivation (s : State) : State :=
  if decide (size (inactiveChildren s) = 0%nat) then s
  else
    let '(handle, s1) :=
      window_requestAnimationFrame (RequestSecondFrame (inactiveChildren s)) s in
    addLiveActivationTimeout handle s1.

(** What a render of the state returns: [childrenToRender]. *)
Definition output (s : State) : option JsArray :=
  childrenToRender (transitionName props) (wrapWith props) (oldChildren s)
                   (enteringChildren s) (inactiveChildren s) (leavingChildren s).

Definition initialState (arrayChildren : list ReactElement) : State :=
  mkState arrayChildren [] ∅ ∅ ∅ ∅ ∅ 1 ∅ 1.

(** The first render: [None] when the component body throws. *)
Definition firstRender (children : ChildrenProp) : option JsArray :=
  output (initialState (items_of (toArray children))).

(** Mounting: the first render, then the layout effect, then the effects
    in the order they are declared, then the re-render that
    [setRenderFlag] forces. *)
Definition mount (children : ChildrenProp) : State :=
  let arrayChildren := items_of (toArray children) in
  let s0 := requestActivation (initialState arrayChildren) in
  let addedChildren := items_of (elementDiff arrayChildren (oldChildren s0)) in
  let s1 := removedEffect arrayChildren s0 in
  let s2 := clearAllTimeoutsEffect s1 in
  let s3 := addedEffect addedChildren s2 in
  requestActivation (setOldChildren arrayChildren s3).

(** A new [children] prop: render, layout effect, effects, re-render. *)
Definition update (children : ChildrenProp) (s : State) : State :=
  let arrayChildren := items_of (toArray children) in
  let s0 := requestActivation s in
  let addedChildren := items_of (elementDiff arrayChildren (oldChildren s0)) in
  let s1 := removedEffect arrayChildren s0 in
  let s2 := addedEffect addedChildren s1 in
  requestActivation (setOldChildren arrayChildren s2).

(** A pending timeout fires: it leaves the window's table, its callback
    updates the state, the component re-renders. A handle that is not
    pending cannot fire. *)
Definition fireTimeout (handle : nat) (s : State) : State :=
  match timeouts s !! handle with
  | None => s
  | Some (cb, _) =>
      let s1 := takeTimeout handle s in
      requestActivation
        match cb with
        | SettleEnteringChild k => settleEnteringChild k s1
        | RemoveLeavingChild k => setLeavingChildren (removeLeavingChild k) s1
        end
  end.

(** A pending animation frame fires. *)
Definition fireFrame (handle : nat) (s : State) : State :=
  match frames s !! handle with
  | None => s
  | Some cb =>
      let s1 := takeFrame handle s in
      match cb with
      | RequestSecondFrame captured =>
          let '(second, s2) :=
            window_requestAnimationFrame (ActivateChildren captured) s1 in
          addLiveActivationTimeout second s2
      | ActivateChildren captured =>
          requestActivation
            (setInactiveChildren
               (fun currentInactiveChildren => currentInactiveChildren ∖ captured) s1)
      end
  end.

(** Unmounting runs the cleanup functions the effects returned. No
    effect of the component returns one, so nothing runs: the window's
    tables and the refs are as they were. What becomes of a state update
    that a callback makes after the unmount is React's matter and no part
    of this model: [fireTimeout] and [fireFrame] describe a mounted
    instance, and only what they do to the window and to the refs carries
    over. *)
Definition unmount (s : State) : State := s.

(** The events the host delivers. *)
Inductive Event :=
| NewChildren (children : ChildrenProp)
| TimeoutFires (handle : nat)
| FrameFires (handle : nat).

Definition step (ev : Event) (s : State) : State :=
  match ev with
  | NewChildren children => update children s
  | TimeoutFires handle => fireTimeout handle s
  | FrameFires handle => fireFrame handle s
  end.

Definition run (evs : list Event) (s : State) : State :=
  fold_left (fun s' ev => step ev s') evs s.

(** The states an instance can be in. *)
Inductive reachable : State -> Prop :=
| reachable_mount children : reachable (mount children)
| reachable_step s ev : reachable s -> reachable (step ev s).
End Engine.

(** The common shape of [scheduleSettleEnteringChild] and
    [scheduleRemoveLeavingChild]: clear the live timeout of the key, set
    the new one, record its handle. *)
Definition scheduleTimeout (cb : TimeoutCallback) (delay : Z) (s : State) : State :=
  let s1 := clearLiveTimeout (callbackKey cb) s in
  setLiveTimeout (callbackKey cb) (nextTimeout s1)
                 (snd (window_setTimeout cb delay s1)).

(** ** Invariants of the engine *)

(** The timer table and [liveTimeouts] agree: handles are positive and
    below the next one, a pending timeout is the one [liveTimeouts]
    records for the key of its callback, and no handle is recorded for two
    keys. *)
Definition timersWf (s : State) : Prop :=
  (0 < nextTimeout s)%nat
  /\ (forall h cb d, timeouts s !! h = Some (cb, d) ->
        liveTimeouts s !! callbackKey cb = Some h)
  /\ (forall k h, liveTimeouts s !! k = Some h -> (0 < h < nextTimeout s)%nat)
  /\ (forall k1 k2 h, liveTimeouts s !! k1 = Some h -> liveTimeouts s !! k2 = Some h ->
        k1 = k2).

(** No key of the leaving registry is a key of the current children. *)
Definition registryApart (s : State) : Prop :=
  forall e, e ∈ leavingChildren s -> key (element e) ∉ keySet (oldChildren s).

(** [s'] comes after [s] as far as the window's timeouts go: no handle
    that [s] had already used is pending in [s'] unless it was pending in
    [s], with the same callback. *)
Definition timersAfter (s s' : State) : Prop :=
  (nextTimeout s <= nextTimeout s')%nat
  /\ (forall h x, (h < nextTimeout s)%nat ->
        timeouts s' !! h = Some x -> timeouts s !! h = Some x).

(** Events that are not a new input: a timeout or a frame fires. *)
Definition hostEvent (ev : Event) : Prop :=
  match ev with
  | NewChildren _ => False
  | TimeoutFires _ | FrameFires _ => True
  end.

(** At most one timeout is pending for a key: two pending timeouts whose
    callbacks are for the same key are the same timeout. In particular a
    key has at most one pending settle timer and at most one pending
    remove timer. *)
Definition onePendingPerKey (s : State) : Prop :=
  forall h1 h2 cb1 cb2 d1 d2,
    timeouts s !! h1 = Some (cb1, d1) ->
    timeouts s !! h2 = Some (cb2, d2) ->
    callbackKey cb1 = callbackKey cb2 ->
    h1 = h2 /\ cb1 = cb2 /\ d1 = d2.

(** The props and two states of the concrete runs: three children
    mounted, then [B] taken away. *)
Definition sampleProps : ITransitionGroupProps := mkProps "fade" 1000 500 None.

Definition childArray (l : list ReactElement) : ChildrenProp := ChildArray (Some <$> l).

Definition mountedABC : State := mount sampleProps (childArray [itemA; itemB; itemC]).

Definition leavingB : State :=
  step sampleProps (NewChildren (childArray [itemA; itemC])) mountedABC.

(** The number of filled slots of an array. *)
Fixpoint countFilled (slots : JsArray) : nat :=
  match slots with
  | [] => 0
  | Some _ :: rest => S (countFilled rest)
  | None :: rest => countFilled rest
  end.

(** The caller's contract: the keys of an input are unique. *)
Definition uniqueKeys (children : ChildrenProp) : Prop :=
  NoDup (map key (items_of (toArray children))).

Definition eventUnique (ev : Event) : Prop :=
  match ev with
  | NewChildren children => uniqueKeys children
  | TimeoutFires _ | FrameFires _ => True
  end.

(** The states an instance can be in when the caller keeps the contract. *)
Inductive reachableUnique (props : ITransitionGroupProps) : State -> Prop :=
| reachableUnique_mount children :
    uniqueKeys children -> reachableUnique props (mount props children)
| reachableUnique_step s ev :
    reachableUnique props s -> eventUnique ev ->
    reachableUnique props (step props ev s).

(** The data-model invariant of the leaving registry: strictly ascending
    merged indices within [0, total), one entry per key, and no key
    shared with the current children, whose keys are unique. *)
Definition registryWf (s : State) : Prop :=
  StronglySorted indexLt (leavingChildren s)
  /\ Forall (fun e => 0 <= index e
                      < Z.of_nat (length (oldChildren s) + length (leavingChildren s)))
            (leavingChildren s)
  /\ NoDup (map (fun e => key (element e)) (leavingChildren s))
  /\ NoDup (map key (oldChildren s))
  /\ registryApart s.

(** ** The leave timers of the first variant ([TransitionGroup.tsx]) *)

(** [leaveTimeouts.current], and the window's pending timeouts that will
    run [removeLeavingItem(key)]. *)
Record LeaveTimers := mkLeaveTimers {
  leaveTimeouts : gmap Key nat;
  pendingLeave : gmap nat Key;
  nextLeave : nat
}.

(** [setItemToLeave]: [if (leaveTimeouts.current.has(key)) return;], else
    a new timeout is set and recorded. *)
Definition setItemToLeave (k : Key) (t : LeaveTimers) : LeaveTimers :=
  match leaveTimeouts t !! k with
  | Some _ => t
  | None =>
      mkLeaveTimers (<[k := nextLeave t]> (leaveTimeouts t))
                    (<[nextLeave t := k]> (pendingLeave t))
                    (S (nextLeave t))
  end.

(** [cancelLeavingItem]: [window.clearTimeout(leaveTimeouts.current.get(key));
    leaveTimeouts.current.delete(key)]. *)
Definition cancelLeavingItem (k : Key) (t : LeaveTimers) : LeaveTimers :=
  match leaveTimeouts t !! k with
  | Some h =>
      mkLeaveTimers (delete k (leaveTimeouts t)) (delete h (pendingLeave t)) (nextLeave t)
  | None => t
  end.

Definition leaveTimersWf (t : LeaveTimers) : Prop :=
  (forall h k, pendingLeave t !! h = Some k -> leaveTimeouts t !! k = Some h)
  /\ (forall k h, leaveTimeouts t !! k = Some h -> (h < nextLeave t)%nat).

(** A second child with the key of [itemA]: an input that breaks the
    caller's contract. *)
Definition itemA' : ReactElement := mkElement "A" None "a, again".

(** ** Further predicates *)

(** A timeout with this callback is pending. *)
Definition pendingCallback (s : State) (cb : TimeoutCallback) : Prop :=
  exists h d, timeouts s !! h = Some (cb, d).

(** The number of leaving children whose merged index is below [p]. *)
Definition leavingBelow (leavingChildren : list IElementWithIndex) (p : Z) : nat :=
  length (List.filter (fun e => index e <? p) leavingChildren).

(** The key React sees in each slot of an output. *)
Definition slotKeys (out : JsArray) : list (option (option Key)) :=
  (fun slot : option Rendered => renderedKey <$> slot) <$> out.

(** The key of the node [cloneWithClassName] makes of an element with
    key [k]. *)
Definition keyOfRendered (wrap : option IWrapperElement) (k : Key) : option Key :=
  match wrap with
  | Some _ => keyOrUndefined k
  | None => Some k
  end.

(** The delay of a callback: the duration of its kind. *)
Definition delayOf (props : ITransitionGroupProps) (cb : TimeoutCallback) : Z :=
  match cb with
  | SettleEnteringChild _ => transitionEnterTimeout props
  | RemoveLeavingChild _ => transitionLeaveTimeout props
  end.

(** Every pending timeout has the delay of its callback. *)
Definition delaysOk (props : ITransitionGroupProps) (s : State) : Prop :=
  forall h cb d, timeouts s !! h = Some (cb, d) -> d = delayOf props cb.

(** The timers and the React state agree: a remove timer is pending
    exactly for the keys of the leaving children, a settle timer only for
    an entering current child, and every delay is the duration of its
    kind. *)
Definition timersMatch (props : ITransitionGroupProps) (s : State) : Prop :=
  (forall k, pendingCallback s (RemoveLeavingChild k) <-> k ∈ keysOf (leavingChildren s))
  /\ (forall k, pendingCallback s (SettleEnteringChild k) ->
        k ∈ enteringChildren s /\ k ∈ keySet (oldChildren s))
  /\ delaysOk props s.

(** The output for the children [A, C] with [B] leaving at merged index 1,
    nothing entering and nothing inactive. *)
Definition out_of_AC_around_B : JsArray :=
  default [] (childrenToRender "fade" None [itemA; itemC] ∅ ∅ [mkIndexed itemB 1]).

(** [D] added at the end of the mounted [A, B, C]. *)
Definition enteringD : State :=
  step sampleProps (NewChildren (childArray [itemA; itemB; itemC; itemD])) mountedABC.

(** [s'] has every handle that [s] had in the two stores of live handles,
    [liveActivationTimeouts] and [liveTimeouts]. *)
Definition handlesKept (s s' : State) : Prop :=
  liveActivationTimeouts s ⊆ liveActivationTimeouts s'
  /\ (forall k, is_Some (liveTimeouts s !! k) -> is_Some (liveTimeouts s' !! k)).

(** ** The first variant ([TransitionGroup.tsx]): one run of its effect *)

(** The [children] of the first variant: one element or an array. *)
Inductive Children1 :=
| OneChild (e : ReactElement)
| ManyChildren (l : list ReactElement).

(** [function toArray(children)] of the first variant: a copy of the
    array, or the one element in an array. *)
Definition toArray1 (children : Children1) : list ReactElement :=
  match children with
  | OneChild e => [e]
  | ManyChildren l => l
  end.

(** A JavaScript [Set] of keys, as its values in insertion order:
    [set.add(k)]. *)
Definition setAdd (s : list Key) (k : Key) : list Key :=
  if decide (k ∈ s) then s else s ++ [k].

(** [function getKeys(array)] *)
Definition getKeys (array : Children1) : list Key :=
  fold_left setAdd (map key (toArray1 array)) [].

(** [function getOldAndNewItems(oldArray, currentArray)]: the pair
    [{ oldItems, newKeys }]. *)
Definition getOldAndNewItems (oldArray : list ReactElement) (currentArray : Children1)
  : list IElementWithIndex * list Key :=
  let oldKeys := getKeys (ManyChildren oldArray) in
  let currentKeys := getKeys currentArray in
  let oldItems :=
    List.filter (fun ei => negb (bool_decide (key (element ei) ∈ currentKeys)))
                (withIndex oldArray) in
  let newKeys := List.filter (fun k => negb (bool_decide (k ∈ oldKeys))) currentKeys in
  (oldItems, newKeys).

(** The [leavingChildren.filter(...)] inside [getNewLeavingChildren]: its
    callback bumps [indexPush] at every entry whose index is at most
    [item.index + indexPush] and keeps the entries with the key of the
    item. The pair is [indexPush] after the pass and the filtered array. *)
Definition scanLeaving (item : IElementWithIndex)
    (leavingChildren : list IElementWithIndex) : Z * list IElementWithIndex :=
  fold_left
    (fun '(indexPush, kept) l =>
       (if index l <=? index item + indexPush then indexPush + 1 else indexPush,
        if decide (key (element l) = key (element item)) then kept ++ [l] else kept))
    leavingChildren (0, []).

(** [function getNewLeavingChildren(oldItems, leavingChildren)] *)
Definition getNewLeavingChildren (oldItems leavingChildren : list IElementWithIndex)
  : list IElementWithIndex :=
  fold_left
    (fun memoArray item =>
       let '(indexPush, kept) := scanLeaving item leavingChildren in
       let isAlreadyLeaving := negb (length kept =? 0)%nat in
       if isAlreadyLeaving then memoArray
       else memoArray ++ [mkIndexed (element item) (index item + indexPush)])
    oldItems [].

Section Effect1.
Variable className : string.
Variables enteringKeys activeKeys : gset Key.
Variable arrayChildren : list ReactElement.

(** The class of a leaving item. *)
Definition leavingClassName1 : string :=
  className +:+ " " +:+ className +:+ "-leaving".

(** [itemClassName] at the end of an iteration of the loop. *)
Definition itemClassName1 (itemKey : Key) : string :=
  if bool_decide (itemKey ∈ enteringKeys) then
    if bool_decide (itemKey ∈ activeKeys) then
      className +:+ " " +:+ className +:+ "-entering"
                +:+ " " +:+ className +:+ "-entering-active"
    else className +:+ " " +:+ className +:+ "-entering"
  else className.

(** The body of [allLeavingChildren.forEach(item => ...)]. *)
Definition placeLeaving1 (newChildren : JsArray) (item : IElementWithIndex) : JsArray :=
  arraySet newChildren (index item)
           (cloneWithClassName (element item) leavingClassName1 None).

(** The loop [for (let newIndex = 0, oldIndex = 0; newIndex < total; newIndex++)]
    with [count] iterations left. Every iteration first reads
    [arrayChildren[oldIndex].key], which throws when [oldIndex] is past the
    end, and only then looks at the slot. *)
Fixpoint renderLoop1 (count newIndex oldIndex : nat) (newChildren : JsArray)
  : option JsArray :=
  match count with
  | O => Some newChildren
  | S count' =>
      match arrayChildren !! oldIndex with
      | None => None
      | Some child =>
          match newChildren !! newIndex with
          | Some (Some _) => renderLoop1 count' (S newIndex) oldIndex newChildren
          | _ =>
              renderLoop1 count' (S newIndex) (S oldIndex)
                (arraySet newChildren (Z.of_nat newIndex)
                   (cloneWithClassName child (itemClassName1 (key child)) None))
          end
      end
  end.

(** The array that the effect hands to [setCurrentChildren]; [None] when
    the loop throws. *)
Definition newChildren1 (allLeavingChildren : list IElementWithIndex) : option JsArray :=
  let total := (length arrayChildren + length allLeavingChildren)%nat in
  renderLoop1 total 0 0 (fold_left placeLeaving1 allLeavingChildren (newArray total)).
End Effect1.

(** One run of the effect of the first variant, as far as the array for
    [setCurrentChildren] goes: [oldChildren] is [oldChildren.current].
    When there are new keys the effect calls [setEnteringKeys] with an
    updater that adds them to the Set it is given and returns a copy. No
    update is queued on the component when the effect starts, so React
    runs the updater at once, on the very Set that the effect holds as
    [enteringKeys]: the loop further down reads that Set with the new keys
    in it. *)
Definition effectNewChildren (className : string) (oldChildren children : Children1)
    (leavingChildren : list IElementWithIndex) (enteringKeys activeKeys : gset Key)
  : option JsArray :=
  let arrayChildren := toArray1 children in
  let '(oldItems, newKeys) :=
    getOldAndNewItems (toArray1 oldChildren) (ManyChildren arrayChildren) in
  let enteringKeys := enteringKeys ∪ list_to_set newKeys in
  let newLeavingChildren := getNewLeavingChildren oldItems leavingChildren in
  let allLeavingChildren := leavingChildren ++ newLeavingChildren in
  newChildren1 className enteringKeys activeKeys arrayChildren allLeavingChildren.

(** The loop of the first variant read off the slots that are still to be
    visited and the children that are still to be placed. *)
Fixpoint fillRest1 (render : ReactElement -> Rendered)
    (slots : JsArray) (rest : list ReactElement) : option JsArray :=
  match slots with
  | [] => Some []
  | slot :: slots' =>
      match rest with
      | [] => None
      | child :: rest' =>
          match slot with
          | Some r => cons (Some r) <$> fillRest1 render slots' rest
          | None => cons (Some (render child)) <$> fillRest1 render slots' rest'
          end
      end
  end.

(** The leave timeout [h] fires: [removeLeavingItem(key)()] runs, which
    clears and forgets the leave timeout of its key. *)
Definition fireLeaveTimeout (h : nat) (t : LeaveTimers) : LeaveTimers :=
  match pendingLeave t !! h with
  | None => t
  | Some k =>
      cancelLeavingItem k
        (mkLeaveTimers (leaveTimeouts t) (delete h (pendingLeave t)) (nextLeave t))
  end.

(** What happens to the leave timers of the first variant. *)
Inductive LeaveOp :=
| SetItemToLeave (k : Key)
| CancelLeavingItem (k : Key)
| LeaveTimeoutFires (h : nat).

Definition leaveStep (t : LeaveTimers) (op : LeaveOp) : LeaveTimers :=
  match op with
  | SetItemToLeave k => setItemToLeave k t
  | CancelLeavingItem k => cancelLeavingItem k t
  | LeaveTimeoutFires h => fireLeaveTimeout h t
  end.

(** No leave timeout was ever set; the window hands out handles from 1. *)
Definition noLeaveTimers : LeaveTimers := mkLeaveTimers ∅ ∅ 1.

(** The leave timers after one run of the effect of the first variant:
    [newKeys.forEach(key => { cancelLeavingItem(key); ... })], later
    [oldItems.forEach(({ element }) => setItemToLeave(element.key))]. *)
Definition effectLeaveTimers (oldChildren children : Children1) (t : LeaveTimers)
  : LeaveTimers :=
  let arrayChildren := toArray1 children in
  let '(oldItems, newKeys) :=
    getOldAndNewItems (toArray1 oldChildren) (ManyChildren arrayChildren) in
  let t1 := fold_left (fun t' k => cancelLeavingItem k t') newKeys t in
  fold_left (fun t' item => setItemToLeave (key (element item)) t') oldItems t1.

(** [allLeavingChildren] of one run of the effect: what [leavingChildren]
    is after it. *)
Definition effectLeavingChildren (oldChildren children : Children1)
    (leavingChildren : list IElementWithIndex) : list IElementWithIndex :=
  let arrayChildren := toArray1 children in
  let '(oldItems, _) :=
    getOldAndNewItems (toArray1 oldChildren) (ManyChildren arrayChildren) in
  leavingChildren ++ getNewLeavingChildren oldItems leavingChildren.

(** Every current child that is entering has its settle timer pending. *)
Definition settleMatch (s : State) : Prop :=
  forall k, k ∈ enteringChildren s -> k ∈ keySet (oldChildren s) ->
    pendingCallback s (SettleEnteringChild k).

(** Events after which [k] is still a key of the children: a timeout or a
    frame fires, or new children arrive that hold [k]. *)
Definition keepsKey (k : Key) (ev : Event) : Prop :=
  match ev with
  | NewChildren children => k ∈ keySet (items_of (toArray children))
  | TimeoutFires _ | FrameFires _ => True
  end.

(** [D] is added to the mounted [A], the first frame for it fires, and
    [D] is taken away again: [D] is leaving and inactive, and the second
    frame that the first one requested, which captured [D] when it was
    entering, is still pending. *)
Definition leavingD : State :=
  run sampleProps
      [NewChildren (childArray [itemA; itemD]); FrameFires 1;
       NewChildren (childArray [itemA])]
      (mount sampleProps (childArray [itemA])).

(** * Proofs *)

(** ** General facts on lists ordered by index *)

Lemma StronglySorted_List_filter {A} (R : A -> A -> Prop) (f : A -> bool) (l : list A) :
  StronglySorted R l -> StronglySorted R (List.filter f l).
Proof.
  induction 1 as [|x l Hl IH Hx]; simpl; [constructor|].
  destruct (f x); [|exact IH].
  constructor; [exact IH|].
  rewrite Forall_forall in *. intros y Hy.
  apply Hx. apply list_elem_of_In. apply list_elem_of_In in Hy.
  apply filter_In in Hy. tauto.
Qed.

Lemma elem_of_List_filter {A} (f : A -> bool) (l : list A) (x : A) :
  x ∈ List.filter f l <-> x ∈ l /\ f x = true.
Proof. rewrite !list_elem_of_In. apply filter_In. Qed.

(** ** [elementDiff] *)

Lemma withIndex_from (k : nat) (l : list ReactElement) :
  StronglySorted indexLt (imap (fun i e => mkIndexed e (Z.of_nat (k + i))) l)
  /\ Forall (fun x => Z.of_nat k <= index x)
            (imap (fun i e => mkIndexed e (Z.of_nat (k + i))) l).
Proof.
  revert k. induction l as [|e l IH]; intros k; simpl.
  - split; constructor.
  - destruct (IH (S k)) as [Hs Hf].
    assert (Heq : imap ((fun i e0 => mkIndexed e0 (Z.of_nat (k + i))) ∘ S) l
                  = imap (fun i e0 => mkIndexed e0 (Z.of_nat (S k + i))) l).
    { apply imap_ext. intros i x _. simpl. f_equal. lia. }
    rewrite Heq. split.
    + constructor; [exact Hs|].
      eapply Forall_impl; [exact Hf|]. intros x Hx. unfold indexLt. cbn in *. lia.
    + constructor; [cbn; lia|].
      eapply Forall_impl; [exact Hf|]. intros x Hx. cbn in *. lia.
Qed.

Lemma withIndex_sorted (l : list ReactElement) : StronglySorted indexLt (withIndex l).
Proof. exact (proj1 (withIndex_from 0 l)). Qed.

Lemma elem_of_withIndex (l : list ReactElement) (e : ReactElement) (i : Z) :
  mkIndexed e i ∈ withIndex l <-> 0 <= i /\ l !! Z.to_nat i = Some e.
Proof.
  unfold withIndex. rewrite elem_of_lookup_imap. split.
  - intros (n & y & Heq & Hl). inversion Heq; subst.
    split; [lia|]. by rewrite Nat2Z.id.
  - intros [Hi Hl]. exists (Z.to_nat i), e. split; [|done].
    f_equal. lia.
Qed.

Lemma keySet_spec (l : list ReactElement) (k : Key) :
  k ∈ keySet l <-> k ∈ map key l.
Proof. unfold keySet. by rewrite elem_of_list_to_set. Qed.

Lemma elementDiff_items (comparedItems compareWith : list ReactElement) :
  items_of (elementDiff comparedItems compareWith)
  = List.filter (fun ei => negb (bool_decide (key (element ei) ∈ keySet compareWith)))
                (withIndex comparedItems).
Proof. unfold elementDiff. simpl. by destruct (List.filter _ _). Qed.

Lemma elementDiff_self_items (l : list ReactElement) :
  items_of (elementDiff l l) = [].
Proof.
  rewrite elementDiff_items.
  destruct (List.filter _ _) as [|x r] eqn:E; [done|].
  assert (Hx : x ∈ List.filter
                 (fun ei => negb (bool_decide (key (element ei) ∈ keySet l)))
                 (withIndex l)) by (rewrite E; left).
  apply elem_of_List_filter in Hx as [Hin Hk].
  destruct x as [e i]. apply elem_of_withIndex in Hin as [_ Hl].
  apply negb_true_iff, bool_decide_eq_false in Hk.
  exfalso. apply Hk. simpl. apply keySet_spec.
  apply list_elem_of_fmap. exists e. split; [done|].
  by eapply list_elem_of_lookup_2.
Qed.

Lemma elem_of_elementDiff (comparedItems compareWith : list ReactElement)
    (e : ReactElement) (i : Z) :
  mkIndexed e i ∈ items_of (elementDiff comparedItems compareWith)
  <-> 0 <= i /\ comparedItems !! Z.to_nat i = Some e /\ key e ∉ map key compareWith.
Proof.
  rewrite elementDiff_items, elem_of_List_filter, elem_of_withIndex.
  simpl. rewrite negb_true_iff, bool_decide_eq_false, keySet_spec. tauto.
Qed.

Lemma elementDiff_sorted (comparedItems compareWith : list ReactElement) :
  StronglySorted indexLt (items_of (elementDiff comparedItems compareWith)).
Proof. rewrite elementDiff_items. apply StronglySorted_List_filter, withIndex_sorted. Qed.

(** C8. [elementDiff(reference, comparison)] holds exactly the elements of
    [reference] whose key does not occur in [comparison], each with its
    index in [reference] and in the order of [reference]; it is a function
    of its two arguments only; and when there is no such element, in
    particular for [elementDiff(X, X)], and only then, the reference
    returned is the one shared [EMPTY_ARRAY]. *)
Theorem elementDiff_correct (reference comparison : list ReactElement) :
  (forall e i,
      mkIndexed e i ∈ items_of (elementDiff reference comparison)
      <-> 0 <= i /\ reference !! Z.to_nat i = Some e /\ key e ∉ map key comparison)
  /\ StronglySorted indexLt (items_of (elementDiff reference comparison))
  /\ (items_of (elementDiff reference comparison) = []
      <-> is_EMPTY_ARRAY (elementDiff reference comparison) = true)
  /\ items_of (elementDiff reference reference) = []
  /\ is_EMPTY_ARRAY (elementDiff reference reference) = true.
Proof.
  split; [|split; [|split; [|split]]].
  - intros e i. apply elem_of_elementDiff.
  - apply elementDiff_sorted.
  - unfold elementDiff. simpl. by destruct (List.filter _ _).
  - apply elementDiff_self_items.
  - pose proof (elementDiff_self_items reference) as H.
    unfold elementDiff in *. simpl in *. by destruct (List.filter _ _).
Qed.

(** ** [childrenToRender] *)

Lemma arraySet_inside (arr : JsArray) (i : nat) (v : Rendered) :
  (i < length arr)%nat -> arraySet arr (Z.of_nat i) v = <[i := Some v]> arr.
Proof.
  intros Hi. unfold arraySet.
  destruct (Z.ltb_spec (Z.of_nat i) 0) as [?|_]; [lia|].
  rewrite Nat2Z.id.
  destruct (Nat.ltb_spec i (length arr)); [done|lia].
Qed.

Lemma arraySet_inside_Z (arr : JsArray) (i : Z) (v : Rendered) :
  0 <= i < Z.of_nat (length arr) ->
  arraySet arr i v = <[Z.to_nat i := Some v]> arr.
Proof.
  intros Hi. rewrite <- (Z2Nat.id i) at 1 by lia.
  apply arraySet_inside. lia.
Qed.

Lemma arraySet_lookup (arr : JsArray) (i : Z) (v : Rendered) (j : nat) (r : Rendered) :
  arraySet arr i v !! j = Some (Some r) -> r = v \/ arr !! j = Some (Some r).
Proof.
  unfold arraySet. destruct (i <? 0); [by right|].
  destruct (Nat.ltb_spec (Z.to_nat i) (length arr)) as [Hlt|Hge].
  - destruct (decide (Z.to_nat i = j)) as [<-|Hne].
    + rewrite list_lookup_insert_eq by done. intros [= <-]. by left.
    + rewrite list_lookup_insert_ne by done. by right.
  - intros Hj. apply lookup_app_Some in Hj as [Hj|[_ Hj]]; [by right|].
    apply lookup_app_Some in Hj as [Hj|[_ Hj]].
    + apply lookup_replicate in Hj as [? _]. done.
    + apply list_lookup_singleton_Some in Hj as [_ [= <-]]. by left.
Qed.

Section RenderFacts.
Variable name : string.
Variable wrap : option IWrapperElement.
Variable children : list ReactElement.
Variables enteringChildren inactiveChildren : gset Key.

#[local] Abbreviation renderLeaving := (renderLeaving name wrap inactiveChildren).
#[local] Abbreviation renderChild := (renderChild name wrap enteringChildren inactiveChildren).
#[local] Abbreviation placeLeaving := (placeLeaving name wrap inactiveChildren).
#[local] Abbreviation fillGaps :=
  (fillGaps name wrap children enteringChildren inactiveChildren).
#[local] Abbreviation childrenToRender :=
  (childrenToRender name wrap children enteringChildren inactiveChildren).

(** The first pass: every leaving child lands on its own index, the
    other slots are left as they were. *)
Lemma placeLeaving_all (l : list IElementWithIndex) (arr : JsArray) :
  NoDup (map index l) ->
  Forall (fun e => 0 <= index e < Z.of_nat (length arr)) l ->
  length (fold_left placeLeaving l arr) = length arr
  /\ (forall e, e ∈ l ->
        fold_left placeLeaving l arr !! Z.to_nat (index e)
        = Some (Some (renderLeaving e)))
  /\ (forall i : nat, Z.of_nat i ∉ map index l ->
        fold_left placeLeaving l arr !! i = arr !! i).
Proof.
  revert arr. induction l as [|e l IH]; intros arr Hnd Hin; simpl.
  - split; [done|]. split; [|done]. intros e He. by apply elem_of_nil in He.
  - apply NoDup_cons in Hnd as [Hfresh Hnd].
    apply Forall_cons in Hin as [He Hin].
    assert (Hset : placeLeaving arr e
                   = <[Z.to_nat (index e) := Some (renderLeaving e)]> arr)
      by (by apply arraySet_inside_Z).
    assert (Hlen : length (placeLeaving arr e) = length arr)
      by (by rewrite Hset, length_insert).
    destruct (IH (placeLeaving arr e) Hnd) as (IHlen & IHin & IHout).
    { by rewrite Hlen. }
    split; [congruence|]. split.
    + intros e' He'. apply elem_of_cons in He' as [->|He']; [|by apply IHin].
      rewrite IHout by (by rewrite Z2Nat.id by lia).
      rewrite Hset. apply list_lookup_insert_eq. lia.
    + intros i Hi. apply not_elem_of_cons in Hi as [Hne Hi].
      rewrite IHout by done. rewrite Hset.
      apply list_lookup_insert_ne. lia.
Qed.

(** The second pass is [fillRest] on what lies ahead of [index]. *)
Lemma fillGaps_fillRest (count index childIndex : nat) (arr : JsArray) :
  (index + count = length arr)%nat ->
  fillGaps count index childIndex arr
  = app (take index arr)
      <$> fillRest renderChild (drop index arr) (drop childIndex children).
Proof.
  revert index childIndex arr.
  induction count as [|count IH]; intros index childIndex arr Hlen; simpl.
  - rewrite drop_ge by lia. simpl. rewrite take_ge by lia.
    by rewrite app_nil_r.
  - destruct (lookup_lt_is_Some_2 arr index) as [slot Hslot]; [lia|].
    rewrite Hslot. rewrite (drop_S _ _ _ Hslot).
    destruct slot as [r|]; simpl.
    + rewrite IH by lia. rewrite (take_S_r _ _ _ Hslot).
      destruct (fillRest _ _ _); simpl; [|done].
      by rewrite <- app_assoc.
    + destruct (children !! childIndex) as [child|] eqn:Hchild.
      * rewrite (drop_S _ _ _ Hchild).
        rewrite arraySet_inside by lia.
        rewrite IH by (rewrite length_insert; lia).
        rewrite drop_insert_lt by lia.
        erewrite take_S_r by (apply list_lookup_insert_eq; lia).
        rewrite take_insert_ge by lia.
        destruct (fillRest _ _ _); simpl; [|done].
        by rewrite <- app_assoc.
      * by rewrite (drop_ge children) by (by apply lookup_ge_None).
Qed.

(** [fillRest] succeeds when the holes ahead are as many as the children
    left; it keeps the filled slots and puts the children into the holes
    in order. *)
Lemma fillRest_fits (slots : JsArray) (rest : list ReactElement) (base : nat) :
  length (holesFrom base slots) = length rest ->
  exists out,
    fillRest renderChild slots rest = Some out
    /\ length out = length slots
    /\ (forall i r, slots !! i = Some (Some r) -> out !! i = Some (Some r))
    /\ (forall j p c,
          holesFrom base slots !! j = Some p -> rest !! j = Some c ->
          (base <= p)%nat /\ out !! (p - base)%nat = Some (Some (renderChild c))).
Proof.
  revert rest base. induction slots as [|slot slots IH]; intros rest base Hlen.
  - exists []. simpl in *. repeat split; try done.
  - destruct slot as [r|]; simpl in *.
    + destruct (IH rest (S base) Hlen) as (out & -> & Hl & Hkeep & Hfill).
      exists (Some r :: out). simpl. split; [done|]. split; [by rewrite Hl|].
      split.
      * intros [|i] r' Hi; simpl in *; [done|by apply Hkeep].
      * intros j p c Hp Hc. destruct (Hfill j p c Hp Hc) as [Hle Hout].
        split; [lia|]. by replace (p - base)%nat with (S (p - S base)) by lia.
    + destruct rest as [|child rest]; [done|]. simpl in Hlen.
      destruct (IH rest (S base)) as (out & -> & Hl & Hkeep & Hfill); [lia|].
      exists (Some (renderChild child) :: out). simpl.
      split; [done|]. split; [by rewrite Hl|]. split.
      * intros [|i] r' Hi; simpl in *; [done|by apply Hkeep].
      * intros [|j] p c Hp Hc; simpl in *.
        { inversion Hp; inversion Hc; subst. split; [lia|].
          by rewrite Nat.sub_diag. }
        destruct (Hfill j p c Hp Hc) as [Hle Hout].
        split; [lia|]. by replace (p - base)%nat with (S (p - S base)) by lia.
Qed.

(** Whatever [fillRest] returns, each of its slots was filled before or
    is a rendered child. *)
Lemma fillRest_slots (slots : JsArray) (rest : list ReactElement) (out : JsArray) :
  fillRest renderChild slots rest = Some out ->
  forall i r, out !! i = Some (Some r) ->
    slots !! i = Some (Some r) \/ exists c, c ∈ rest /\ r = renderChild c.
Proof.
  revert rest out. induction slots as [|slot slots IH]; intros rest out Hout i r Hi.
  - simpl in Hout. inversion Hout; subst. by rewrite lookup_nil in Hi.
  - destruct slot as [r0|]; simpl in Hout.
    + destruct (fillRest renderChild slots rest) as [out'|] eqn:E; [|done].
      simpl in Hout. inversion Hout; subst.
      destruct i as [|i]; simpl in *; [by left|].
      destruct (IH rest out' E i r Hi) as [?|?]; [by left|by right].
    + destruct rest as [|child rest]; [done|].
      destruct (fillRest renderChild slots rest) as [out'|] eqn:E; [|done].
      simpl in Hout. inversion Hout; subst.
      destruct i as [|i]; simpl in *.
      * inversion Hi; subst. right. exists child. split; [left|done].
      * destruct (IH rest out' E i r Hi) as [?|(c & Hc & ->)]; [by left|].
        right. exists c. split; [by right|done].
Qed.

(** Slots of the array after the first pass. *)
Lemma placeLeaving_slots (l : list IElementWithIndex) (arr : JsArray)
    (j : nat) (r : Rendered) :
  fold_left placeLeaving l arr !! j = Some (Some r) ->
  (exists e, e ∈ l /\ r = renderLeaving e) \/ arr !! j = Some (Some r).
Proof.
  revert arr. induction l as [|e l IH]; intros arr Hj; simpl in Hj; [by right|].
  destruct (IH _ Hj) as [(e' & He' & ->)|Hj'].
  - left. exists e'. split; [by right|done].
  - apply arraySet_lookup in Hj' as [->|?]; [|by right].
    left. exists e. split; [left|done].
Qed.

(** Slots of the array after the second pass. *)
Lemma fillGaps_slots (count index childIndex : nat) (arr out : JsArray) :
  fillGaps count index childIndex arr = Some out ->
  forall j r, out !! j = Some (Some r) ->
    arr !! j = Some (Some r) \/ exists c, c ∈ children /\ r = renderChild c.
Proof.
  revert index childIndex arr.
  induction count as [|count IH]; intros index childIndex arr Hout j r Hj;
    simpl in Hout.
  - inversion Hout; subst. by left.
  - assert (Hgap : forall child, children !! childIndex = Some child ->
              fillGaps count (S index) (S childIndex)
                (arraySet arr (Z.of_nat index) (renderChild child)) = Some out ->
              arr !! j = Some (Some r)
              \/ exists c, c ∈ children /\ r = renderChild c).
    { intros child Hchild Hrec.
      destruct (IH _ _ _ Hrec j r Hj) as [Hset|?]; [|by right].
      apply arraySet_lookup in Hset as [->|?]; [|by left].
      right. exists child. split; [|done]. by eapply list_elem_of_lookup_2. }
    destruct (arr !! index) as [[r0|]|];
      [by eapply IH| |];
      (destruct (children !! childIndex) as [child|] eqn:Hchild; [|done]);
      by eapply Hgap.
Qed.
End RenderFacts.

Lemma holesFrom_filter (Q : nat -> Prop) `{!forall i, Decision (Q i)}
    (slots : JsArray) (base : nat) :
  (forall i, (i < length slots)%nat -> Q (base + i)%nat <-> slots !! i = Some None) ->
  holesFrom base slots = filter Q (seq base (length slots)).
Proof.
  revert base. induction slots as [|slot slots IH]; intros base HQ; [done|].
  simpl. rewrite filter_cons.
  assert (Hrest : holesFrom (S base) slots = filter Q (seq (S base) (length slots))).
  { apply IH. intros i Hi. specialize (HQ (S i)). simpl in HQ.
    replace (S base + i)%nat with (base + S i)%nat by lia. apply HQ. lia. }
  specialize (HQ 0%nat). rewrite Nat.add_0_r in HQ. simpl in HQ.
  destruct slot as [r|].
  - rewrite decide_False; [done|]. intros HQb. apply HQ in HQb; [done|lia].
  - rewrite decide_True; [by rewrite Hrest|]. apply HQ; [lia|done].
Qed.

(** The free slots and the claimed slots together are [0, total), each
    once. *)
Lemma freeSlots_partition (total : nat) (leavingChildren : list IElementWithIndex) :
  registryFits total leavingChildren ->
  freeSlots total leavingChildren ++ (Z.to_nat <$> map index leavingChildren)
  ≡ₚ seq 0 total.
Proof.
  intros [Hnd Hin]. unfold freeSlots.
  set (P := fun i : nat => Z.of_nat i ∉ map index leavingChildren).
  rewrite <- (filter_app_complement P (seq 0 total)) at 2.
  apply Permutation_app_head. symmetry.
  apply NoDup_Permutation.
  - apply NoDup_filter, NoDup_seq.
  - apply NoDup_fmap_2_strong; [|done].
    intros x y Hx Hy Heq.
    apply list_elem_of_fmap in Hx as (ex & -> & Hex).
    apply list_elem_of_fmap in Hy as (ey & -> & Hey).
    rewrite Forall_forall in Hin.
    pose proof (Hin ex Hex). pose proof (Hin ey Hey). lia.
  - intros i. rewrite list_elem_of_filter, elem_of_seq. unfold P. split.
    + intros [Hi Hlt]. apply dec_stable in Hi.
      apply list_elem_of_fmap. exists (Z.of_nat i). split; [lia|done].
    + intros Hi. apply list_elem_of_fmap in Hi as (z & -> & Hz).
      pose proof Hz as Hz'.
      apply list_elem_of_fmap in Hz' as (e & -> & He).
      rewrite Forall_forall in Hin. pose proof (Hin e He).
      split; [|lia]. rewrite Z2Nat.id by lia. tauto.
Qed.

Lemma freeSlots_length (total : nat) (leavingChildren : list IElementWithIndex) :
  registryFits total leavingChildren ->
  (length (freeSlots total leavingChildren) + length leavingChildren = total)%nat.
Proof.
  intros Hfits. apply freeSlots_partition, Permutation_length in Hfits.
  rewrite length_app, length_fmap, length_map, length_seq in Hfits. lia.
Qed.

Section RenderTheorems.
Variable name : string.
Variable wrap : option IWrapperElement.
Variable children : list ReactElement.
Variables enteringChildren inactiveChildren : gset Key.

#[local] Abbreviation renderLeaving' := (renderLeaving name wrap inactiveChildren).
#[local] Abbreviation renderChild' :=
  (renderChild name wrap enteringChildren inactiveChildren).
#[local] Abbreviation childrenToRender' :=
  (childrenToRender name wrap children enteringChildren inactiveChildren).

(** The layout of the output for a registry that fits. *)
Lemma childrenToRender_layout (leavingChildren : list IElementWithIndex) :
  registryFits (length children + length leavingChildren) leavingChildren ->
  exists out,
    childrenToRender' leavingChildren = Some out
    /\ length out = (length children + length leavingChildren)%nat
    /\ (forall e, e ∈ leavingChildren ->
          out !! Z.to_nat (index e) = Some (Some (renderLeaving' e)))
    /\ (fun i => out !! i)
         <$> freeSlots (length children + length leavingChildren) leavingChildren
       = (fun c => Some (Some (renderChild' c))) <$> children.
Proof.
  intros Hfits. pose proof Hfits as [Hnd Hin].
  set (total := (length children + length leavingChildren)%nat) in *.
  unfold childrenToRender. fold total.
  set (placed := fold_left (placeLeaving name wrap inactiveChildren)
                           leavingChildren (newArray total)).
  destruct (placeLeaving_all name wrap inactiveChildren leavingChildren
              (newArray total)) as (Hlen & Hleft & Hfree).
  { done. }
  { unfold newArray. by rewrite length_replicate. }
  fold placed in Hlen, Hleft, Hfree.
  unfold newArray in Hlen, Hfree. rewrite length_replicate in Hlen.
  assert (Hholes : holesFrom 0 placed = freeSlots total leavingChildren).
  { unfold freeSlots. rewrite <- Hlen. apply holesFrom_filter.
    intros i Hi. simpl. split.
    - intros Hfr. rewrite Hfree by done. apply lookup_replicate_2. lia.
    - intros Hhole Hcl. apply list_elem_of_fmap in Hcl as (e & Hie & He).
      specialize (Hleft e He). rewrite <- Hie, Nat2Z.id in Hleft. congruence. }
  rewrite fillGaps_fillRest by lia. rewrite !drop_0, take_0.
  destruct (fillRest_fits name wrap enteringChildren inactiveChildren
              placed children 0%nat) as (out & -> & Hl & Hkeep & Hfill).
  { rewrite Hholes. pose proof (freeSlots_length total leavingChildren Hfits).
    subst total. lia. }
  exists out. simpl. split; [done|]. split; [lia|]. split.
  - intros e He. apply Hkeep. by apply Hleft.
  - rewrite <- Hholes. apply list_eq. intros j.
    rewrite !list_lookup_fmap.
    destruct (holesFrom 0 placed !! j) as [p|] eqn:Hp;
      destruct (children !! j) as [c|] eqn:Hc; simpl.
    + destruct (Hfill j p c Hp Hc) as [_ Hout].
      rewrite Nat.sub_0_r in Hout. by rewrite Hout.
    + apply lookup_lt_Some in Hp. apply lookup_ge_None in Hc.
      rewrite Hholes in Hp.
      pose proof (freeSlots_length total leavingChildren Hfits).
      subst total. lia.
    + apply lookup_lt_Some in Hc. apply lookup_ge_None in Hp.
      rewrite Hholes in Hp.
      pose proof (freeSlots_length total leavingChildren Hfits).
      subst total. lia.
    + done.
Qed.

(** Every slot of an output is a rendered leaving child or a rendered
    still-existing child, whatever the registry. *)
Lemma childrenToRender_slots (leavingChildren : list IElementWithIndex)
    (out : JsArray) (i : nat) (r : Rendered) :
  childrenToRender' leavingChildren = Some out ->
  out !! i = Some (Some r) ->
  (exists e, e ∈ leavingChildren /\ r = renderLeaving' e)
  \/ (exists c, c ∈ children /\ r = renderChild' c).
Proof.
  unfold childrenToRender. intros Hout Hi.
  destruct (fillGaps_slots name wrap children enteringChildren inactiveChildren
              _ _ _ _ out Hout i r Hi) as [Hplaced|?]; [|by right].
  left.
  destruct (placeLeaving_slots name wrap inactiveChildren leavingChildren _ i r Hplaced)
    as [?|Harr]; [done|].
  unfold newArray in Harr. apply lookup_replicate in Harr as [? _]. done.
Qed.

(** The pass over a registry that fits. When the merged indices of the
    leaving registry are pairwise distinct and lie in [0, total), with
    [total = children.length + leavingChildren.length], the pass returns
    an array of length [total] without a hole; the free slots and the
    claimed slots are the indices 0 .. total-1, each once; every leaving
    child sits at its own merged index; and the free slots, read in
    ascending order, hold the current children in their own order. *)
Lemma childrenToRender_fills_fitting_registry
    (leavingChildren : list IElementWithIndex) :
  registryFits (length children + length leavingChildren) leavingChildren ->
  exists out,
    childrenToRender' leavingChildren = Some out
    /\ length out = (length children + length leavingChildren)%nat
    /\ (forall i, (i < length children + length leavingChildren)%nat ->
          exists r, out !! i = Some (Some r))
    /\ freeSlots (length children + length leavingChildren) leavingChildren
         ++ (Z.to_nat <$> map index leavingChildren)
       ≡ₚ seq 0 (length children + length leavingChildren)
    /\ (forall e, e ∈ leavingChildren ->
          out !! Z.to_nat (index e) = Some (Some (renderLeaving' e)))
    /\ (fun i => out !! i)
         <$> freeSlots (length children + length leavingChildren) leavingChildren
       = (fun c => Some (Some (renderChild' c))) <$> children.
Proof.
  intros Hfits.
  destruct (childrenToRender_layout leavingChildren Hfits)
    as (out & Hout & Hlen & Hleft & Hfree).
  pose proof (freeSlots_partition _ _ Hfits) as Hpart.
  exists out. repeat (split; [done|]). split; [|done].
  intros i Hi.
  assert (Hin : i ∈ seq 0 (length children + length leavingChildren))
    by (apply elem_of_seq; lia).
  rewrite <- Hpart in Hin. apply elem_of_app in Hin as [Hin|Hin].
  - apply list_elem_of_lookup in Hin as [j Hj].
    pose proof (f_equal (fun l => l !! j) Hfree) as Hjj. simpl in Hjj.
    rewrite !list_lookup_fmap, Hj in Hjj. simpl in Hjj.
    destruct (children !! j) as [c|]; [|done]. simpl in Hjj.
    exists (renderChild' c). congruence.
  - apply list_elem_of_fmap in Hin as (z & -> & Hz).
    apply list_elem_of_fmap in Hz as (e & -> & He).
    exists (renderLeaving' e). by apply Hleft.
Qed.

(** Every current child is in the output of a registry that fits. *)
Lemma childrenToRender_children_rendered (leavingChildren : list IElementWithIndex) :
  registryFits (length children + length leavingChildren) leavingChildren ->
  exists out,
    childrenToRender' leavingChildren = Some out
    /\ forall c, c ∈ children -> exists i, out !! i = Some (Some (renderChild' c)).
Proof.
  intros Hfits.
  destruct (childrenToRender_layout leavingChildren Hfits)
    as (out & Hout & Hlen & Hleft & Hfree).
  exists out. split; [done|].
  intros c Hc. apply list_elem_of_lookup in Hc as [j Hj].
  pose proof (f_equal (fun l => l !! j) Hfree) as Hjj. simpl in Hjj.
  rewrite !list_lookup_fmap, Hj in Hjj. simpl in Hjj.
  destruct (freeSlots _ _ !! j) as [i|]; [|done]. simpl in Hjj.
  exists i. by injection Hjj as ->.
Qed.

(** C4 (amended). In a pass over a registry that fits, a leaving child is
    emitted at its merged index with the class string
    ["<name>-leave "] when its key is in [inactiveChildren] and
    ["<name>-leave <name>-leave-active"] when it is not; a current child
    is emitted with the empty string when its key is not in
    [enteringChildren], with
    ["<name>-enter"] when it is there and in [inactiveChildren], and with
    ["<name>-enter <name>-enter-active"] when it is there and not in
    [inactiveChildren]; and the output holds nothing else. *)
Theorem childrenToRender_class_strings
    (leavingChildren : list IElementWithIndex) :
  registryFits (length children + length leavingChildren) leavingChildren ->
  exists out,
    childrenToRender' leavingChildren = Some out
    /\ (forall e, e ∈ leavingChildren ->
          out !! Z.to_nat (index e)
          = Some (Some (cloneWithClassName (element e)
              (if decide (key (element e) ∈ inactiveChildren)
               then name +:+ "-leave "
               else name +:+ "-leave " +:+ name +:+ "-leave-active")
              wrap)))
    /\ (forall c, c ∈ children ->
          exists i, out !! i
          = Some (Some (cloneWithClassName c
              (if decide (key c ∈ enteringChildren)
               then if decide (key c ∈ inactiveChildren)
                    then name +:+ "-enter"
                    else name +:+ "-enter " +:+ name +:+ "-enter-active"
               else EmptyString)
              wrap)))
    /\ (forall i r, out !! i = Some (Some r) ->
          (exists e, e ∈ leavingChildren /\ r = renderLeaving' e)
          \/ (exists c, c ∈ children /\ r = renderChild' c)).
Proof.
  intros Hfits.
  destruct (childrenToRender_layout leavingChildren Hfits)
    as (out & Hout & Hlen & Hleft & Hfree).
  exists out. split; [done|]. split; [|split].
  - intros e He. rewrite (Hleft e He). unfold renderLeaving, leaveClassName.
    do 3 f_equal. rewrite bool_decide_decide.
    by destruct (decide _).
  - intros c Hc.
    destruct (childrenToRender_children_rendered leavingChildren Hfits)
      as (out' & Hout' & Hall).
    assert (out' = out) as -> by congruence.
    destruct (Hall c Hc) as [i Hi]. exists i. rewrite Hi.
    unfold renderChild, childClassName.
    rewrite !bool_decide_decide. by repeat destruct (decide _).
  - intros i r. by apply childrenToRender_slots.
Qed.
End RenderTheorems.

(** [childrenToRender] itself has no guard on the registry. With no
    current child and one leaving child of merged index 1 the total is 1,
    the assignment at index 1 extends the array, slot 0 is a gap with no
    child to fill it, and the pass throws; with two leaving children on
    the same index the second overwrites the first and again a gap is left
    over. No run with unique keys reaches such a registry. *)
Lemma childrenToRender_unfit_registry_throws :
  childrenToRender "fade" None [] ∅ ∅ [mkIndexed itemB 1] = None
  /\ childrenToRender "fade" None [itemA] ∅ ∅ [mkIndexed itemB 0; mkIndexed itemC 0]
     = None.
Proof. split; reflexivity. Qed.

(** The theorem on [A, C] with [B] leaving, inactive, at index 1. *)
Lemma childrenToRender_class_strings_witness :
  registryFits 3 [mkIndexed itemB 1]
  /\ exists out,
      childrenToRender "fade" None [itemA; itemC] {["C"]} {["B"]} [mkIndexed itemB 1]
      = Some out
      /\ out !! 1%nat = Some (Some (Cloned (mkElement "B" (Some "square fade-leave ") "b"))).
Proof.
  assert (Hfits : registryFits 3 [mkIndexed itemB 1]).
  { split; [apply NoDup_singleton|]. repeat constructor; simpl; lia. }
  split; [exact Hfits|].
  destruct (childrenToRender_class_strings
              "fade" None [itemA; itemC] {["C"]} {["B"]} [mkIndexed itemB 1] Hfits)
    as (out & Hout & Hleave & _).
  exists out. split; [exact Hout|].
  exact (Hleave (mkIndexed itemB 1) (list_elem_of_here _ _)).
Defined.

(** C4, as stated, fails: a leaving child that is no longer inactive is
    emitted with both classes, ["fade-leave fade-leave-active"], not with
    ["fade-leave-active"] alone, and an entering child that is no longer
    inactive with ["fade-enter fade-enter-active"]; and over a registry
    that does not fit nothing is emitted at all. *)
Lemma childrenToRender_active_class_strings :
  childrenToRender "fade" None [itemA] {["A"]} ∅ [mkIndexed itemB 1]
  = Some [Some (Cloned (mkElement "A" (Some " fade-enter fade-enter-active") "a"));
          Some (Cloned (mkElement "B" (Some "square fade-leave fade-leave-active") "b"))]
  /\ leaveClassName "fade" false <> "fade-leave-active"
  /\ childClassName "fade" true false <> "fade-enter-active"
  /\ childrenToRender "fade" None [] ∅ {["B"]} [mkIndexed itemB 1] = None.
Proof. split; [reflexivity|]. split; [discriminate|]. split; [discriminate|reflexivity]. Qed.

(** ** A registry that does not fit makes the pass throw *)

Lemma countFilled_replicate (n : nat) : countFilled (replicate n None) = 0%nat.
Proof. induction n as [|n IH]; [done|exact IH]. Qed.

Lemma countFilled_insert (l : JsArray) (i : nat) (v : Rendered) :
  countFilled (<[i := Some v]> l)
  = (countFilled l + match l !! i with Some None => 1 | _ => 0 end)%nat.
Proof.
  revert i. induction l as [|slot l IH]; intros i; [done|].
  destruct i as [|i]; simpl.
  - destruct slot; simpl; lia.
  - rewrite IH. destruct slot; simpl; lia.
Qed.

(** One assignment fills at most one more slot of the first [n]; it fills
    one more exactly when it goes into a hole among them. *)
Lemma arraySet_count (n : nat) (arr : JsArray) (i : Z) (v : Rendered) :
  (n <= length arr)%nat ->
  (n <= length (arraySet arr i v))%nat
  /\ (countFilled (take n (arraySet arr i v)) <= countFilled (take n arr) + 1)%nat
  /\ (countFilled (take n arr) <= countFilled (take n (arraySet arr i v)))%nat
  /\ (countFilled (take n (arraySet arr i v)) = (countFilled (take n arr) + 1)%nat ->
      0 <= i < Z.of_nat n
      /\ arr !! Z.to_nat i = Some None
      /\ arraySet arr i v = <[Z.to_nat i := Some v]> arr).
Proof.
  intros Hn. unfold arraySet.
  destruct (Z.ltb_spec i 0) as [Hneg|Hpos].
  { repeat split; try lia. }
  destruct (Nat.ltb_spec (Z.to_nat i) (length arr)) as [Hin|Hout].
  - rewrite length_insert. split; [done|].
    destruct (decide (Z.to_nat i < n)%nat) as [Hlt|Hge].
    + rewrite take_insert_lt by done. rewrite countFilled_insert.
      rewrite lookup_take_lt by done.
      destruct (arr !! Z.to_nat i) as [[r|]|]; repeat split; try lia; done.
    + rewrite take_insert_ge by lia. repeat split; lia.
  - rewrite length_app. split; [lia|].
    rewrite take_app_le by done. repeat split; lia.
Qed.

Section Unfit.
Variable name : string.
Variable wrap : option IWrapperElement.
Variable children : list ReactElement.
Variables enteringChildren inactiveChildren : gset Key.

Lemma placeLeaving_count (n : nat) (l : list IElementWithIndex) (arr : JsArray) :
  (n <= length arr)%nat ->
  (n <= length (fold_left (placeLeaving name wrap inactiveChildren) l arr))%nat
  /\ (countFilled (take n (fold_left (placeLeaving name wrap inactiveChildren) l arr))
      <= countFilled (take n arr) + length l)%nat
  /\ (countFilled (take n (fold_left (placeLeaving name wrap inactiveChildren) l arr))
      = (countFilled (take n arr) + length l)%nat ->
      NoDup (map index l)
      /\ Forall (fun e => 0 <= index e < Z.of_nat n) l
      /\ forall e, e ∈ l -> arr !! Z.to_nat (index e) = Some None).
Proof.
  revert arr. induction l as [|e l IH]; intros arr Hn; simpl.
  { split; [done|]. split; [lia|]. intros _.
    split; [constructor|]. split; [constructor|].
    intros e He. by apply elem_of_nil in He. }
  unfold placeLeaving at 2 4 6.
  destruct (arraySet_count n arr (index e)
              (renderLeaving name wrap inactiveChildren e) Hn)
    as (Hlen & Hle & Hmono & Heq).
  destruct (IH _ Hlen) as (IHlen & IHle & IHeq).
  split; [done|]. split; [lia|]. intros Hall.
  destruct Heq as (Hrange & Hhole & Hset); [lia|].
  destruct IHeq as (Hnd & Hin & Hholes); [lia|].
  assert (Hfresh : forall e', e' ∈ l -> index e' <> index e).
  { intros e' He' Hsame. specialize (Hholes e' He').
    rewrite Hset, Hsame in Hholes.
    rewrite list_lookup_insert_eq in Hholes; [done|].
    by eapply lookup_lt_Some. }
  split; [|split].
  - apply NoDup_cons. split; [|done].
    intros Hmem. apply list_elem_of_fmap in Hmem as (e' & Heq' & He').
    by apply (Hfresh e' He').
  - by constructor.
  - intros e' He'. apply elem_of_cons in He' as [->|He']; [done|].
    pose proof (Hholes e' He') as Hh. rewrite Hset in Hh.
    rewrite list_lookup_insert_ne in Hh; [done|].
    rewrite Forall_forall in Hin. pose proof (Hin e' He').
    pose proof (Hfresh e' He'). lia.
Qed.

(** A pass that returns has found a child for every hole. *)
Lemma fillGaps_count (count index childIndex : nat) (arr out : JsArray) :
  fillGaps name wrap children enteringChildren inactiveChildren
           count index childIndex arr = Some out ->
  (index + count <= length arr)%nat ->
  (count <= countFilled (take count (drop index arr))
            + (length children - childIndex))%nat.
Proof.
  revert index childIndex arr.
  induction count as [|count IH]; intros index childIndex arr Hout Hlen; [lia|].
  simpl in Hout.
  destruct (lookup_lt_is_Some_2 arr index) as [slot Hslot]; [lia|].
  rewrite Hslot in Hout. rewrite (drop_S _ _ _ Hslot). simpl.
  destruct slot as [r|].
  - apply IH in Hout; [|lia]. simpl. lia.
  - destruct (children !! childIndex) as [child|] eqn:Hchild; [|done].
    apply lookup_lt_Some in Hchild.
    rewrite arraySet_inside in Hout by lia.
    apply IH in Hout; [|rewrite length_insert; lia].
    rewrite drop_insert_lt in Hout by lia. simpl. lia.
Qed.

(** The pass returns only for a registry that fits: the condition of
    [childrenToRender_layout] cannot be weakened. *)
Lemma childrenToRender_returns_only_if_fits
    (leavingChildren : list IElementWithIndex) (out : JsArray) :
  childrenToRender name wrap children enteringChildren inactiveChildren
                   leavingChildren = Some out ->
  registryFits (length children + length leavingChildren) leavingChildren.
Proof.
  unfold childrenToRender. intros Hout.
  set (total := (length children + length leavingChildren)%nat) in *.
  destruct (placeLeaving_count total leavingChildren (newArray total))
    as (Hlen & Hle & Heq).
  { unfold newArray. by rewrite length_replicate. }
  apply fillGaps_count in Hout; [|lia].
  rewrite drop_0, Nat.sub_0_r in Hout.
  assert (Hzero : countFilled (take total (newArray total)) = 0%nat).
  { unfold newArray. by rewrite take_replicate, countFilled_replicate. }
  rewrite Hzero in Hle, Heq.
  destruct Heq as (Hnd & Hin & _); [subst total; lia|].
  by split.
Qed.
End Unfit.

(** ** The leaving registry *)

(** *** Sorting by index *)

Lemma insertByIndex_Permutation (x : IElementWithIndex) (l : list IElementWithIndex) :
  insertByIndex x l ≡ₚ x :: l.
Proof.
  induction l as [|y l IH]; simpl; [done|].
  destruct (index x <=? index y); [done|].
  rewrite IH. apply Permutation_swap.
Qed.

Lemma sortByIndex_Permutation (l : list IElementWithIndex) : sortByIndex l ≡ₚ l.
Proof.
  induction l as [|x l IH]; simpl; [done|].
  rewrite insertByIndex_Permutation. by rewrite IH.
Qed.

Lemma insertByIndex_sorted (x : IElementWithIndex) (l : list IElementWithIndex) :
  StronglySorted indexLe l -> StronglySorted indexLe (insertByIndex x l).
Proof.
  induction 1 as [|y l Hl IH Hy]; simpl.
  - repeat constructor.
  - destruct (Z.leb_spec (index x) (index y)) as [Hle|Hgt].
    + constructor; [by constructor|].
      constructor; [done|].
      eapply Forall_impl; [exact Hy|]. unfold indexLe. intros z Hz. lia.
    + constructor; [done|].
      rewrite (insertByIndex_Permutation x l).
      constructor; [unfold indexLe; lia|done].
Qed.

Lemma sortByIndex_sorted (l : list IElementWithIndex) :
  StronglySorted indexLe (sortByIndex l).
Proof.
  induction l as [|x l IH]; simpl; [constructor|].
  by apply insertByIndex_sorted.
Qed.

(** A list that is already ascending is left as it is. *)
Lemma insertByIndex_least (x : IElementWithIndex) (l : list IElementWithIndex) :
  Forall (indexLe x) l -> insertByIndex x l = x :: l.
Proof.
  destruct l as [|y l]; [done|]. intros Hall. apply Forall_cons in Hall as [Hxy _].
  simpl. unfold indexLe in Hxy. destruct (Z.leb_spec (index x) (index y)); [done|lia].
Qed.

Lemma sortByIndex_id (l : list IElementWithIndex) :
  StronglySorted indexLe l -> sortByIndex l = l.
Proof.
  induction 1 as [|x l Hl IH Hx]; simpl; [done|].
  rewrite IH. by apply insertByIndex_least.
Qed.

(** The sort is stable: the entries of one index keep their order. *)
Lemma insertByIndex_stable (v : Z) (x : IElementWithIndex) (l : list IElementWithIndex) :
  List.filter (fun e => index e =? v) (insertByIndex x l)
  = List.filter (fun e => index e =? v) (x :: l).
Proof.
  induction l as [|y l IH]; [done|]. simpl insertByIndex.
  destruct (Z.leb_spec (index x) (index y)) as [Hle|Hgt]; [done|].
  simpl. rewrite IH. simpl.
  destruct (Z.eqb_spec (index x) v), (Z.eqb_spec (index y) v); simpl; try done.
  lia.
Qed.

Lemma sortByIndex_stable (v : Z) (l : list IElementWithIndex) :
  List.filter (fun e => index e =? v) (sortByIndex l)
  = List.filter (fun e => index e =? v) l.
Proof.
  induction l as [|x l IH]; [done|]. simpl sortByIndex.
  rewrite insertByIndex_stable. simpl. by rewrite IH.
Qed.

(** *** [mergeInRemovedChildren] *)

Lemma indexPush_offsetWalk_from (registry : list IElementWithIndex) (i acc : Z) :
  fold_left (fun push l => if index l <=? i + push then push + 1 else push) registry acc
  = offsetWalk registry i acc.
Proof.
  revert acc. induction registry as [|l registry IH]; intros acc; simpl; [done|].
  destruct (index l <=? i + acc); apply IH.
Qed.

Lemma indexPush_offsetWalk (registry : list IElementWithIndex) (i : Z) :
  i + indexPush registry i = mergedIndex registry i.
Proof. unfold indexPush, mergedIndex. by rewrite indexPush_offsetWalk_from. Qed.

Lemma mergeInRemovedChildren_Permutation
    (removedChildren registry : list IElementWithIndex) :
  mergeInRemovedChildren removedChildren registry
  ≡ₚ registry
     ++ map (fun r => mkIndexed (element r) (mergedIndex registry (index r)))
            removedChildren.
Proof.
  unfold mergeInRemovedChildren. rewrite sortByIndex_Permutation.
  apply Permutation_app_head.
  erewrite map_ext; [reflexivity|].
  intros r. simpl. by rewrite indexPush_offsetWalk.
Qed.

(** C2. [mergeInRemovedChildren] gives each newly removed child of raw
    index [i] the merged index [i + offset], the offset being found by
    walking the existing registry and adding one at every entry whose
    merged index is at most [i + offset-so-far]; its result consists of the
    existing registry and these new entries, ascending by merged index,
    entries of equal merged index in the order of the concatenation (an
    ascending registry to which nothing is added is returned as it is). *)
Theorem mergeInRemovedChildren_correct
    (removedChildren registry : list IElementWithIndex) :
  mergeInRemovedChildren removedChildren registry
  ≡ₚ registry
     ++ map (fun r => mkIndexed (element r) (mergedIndex registry (index r)))
            removedChildren
  /\ StronglySorted indexLe (mergeInRemovedChildren removedChildren registry)
  /\ (forall r, r ∈ removedChildren ->
        mkIndexed (element r) (index r + offsetWalk registry (index r) 0)
        ∈ mergeInRemovedChildren removedChildren registry)
  /\ (forall e, e ∈ registry -> e ∈ mergeInRemovedChildren removedChildren registry)
  /\ (forall v,
        List.filter (fun e => index e =? v)
                    (mergeInRemovedChildren removedChildren registry)
        = List.filter (fun e => index e =? v)
            (registry
             ++ map (fun r => mkIndexed (element r) (mergedIndex registry (index r)))
                    removedChildren))
  /\ (StronglySorted indexLe registry -> mergeInRemovedChildren [] registry = registry).
Proof.
  pose proof (mergeInRemovedChildren_Permutation removedChildren registry) as Hperm.
  split; [exact Hperm|]. split; [apply sortByIndex_sorted|].
  split; [|split; [|split]].
  - intros r Hr. rewrite Hperm. apply elem_of_app. right.
    apply (list_elem_of_fmap_2
             (fun r => mkIndexed (element r) (mergedIndex registry (index r)))).
    done.
  - intros e He. rewrite Hperm. apply elem_of_app. by left.
  - intros v. unfold mergeInRemovedChildren. rewrite sortByIndex_stable.
    do 2 f_equal. apply map_ext. intros r. by rewrite indexPush_offsetWalk.
  - intros Hsorted. unfold mergeInRemovedChildren. simpl. rewrite app_nil_r.
    by apply sortByIndex_id.
Qed.

(** *** [removeLeavingChild] and [removeLeavingItem] *)

Lemma indexed_eta (e : IElementWithIndex) : mkIndexed (element e) (index e) = e.
Proof. by destruct e. Qed.

Lemma StronglySorted_index_inj (l : list IElementWithIndex) (a b : IElementWithIndex) :
  StronglySorted indexLt l -> a ∈ l -> b ∈ l -> index a = index b -> a = b.
Proof.
  induction 1 as [|x l Hl IH Hx]; intros Ha Hb Heq.
  - by apply elem_of_nil in Ha.
  - rewrite Forall_forall in Hx. unfold indexLt in Hx.
    apply elem_of_cons in Ha as [->|Ha]; apply elem_of_cons in Hb as [->|Hb].
    + done.
    + specialize (Hx b Hb). lia.
    + specialize (Hx a Ha). lia.
    + by apply IH.
Qed.

(** Once the key has been met, [reduceIndex] is 1 for the rest. *)
Lemma removeLeavingChild_after (k : Key) (l acc : list IElementWithIndex) :
  fst (fold_left
         (fun '(remaining, reduceIndex) e =>
            if decide (key (element e) = k) then (remaining, 1)
            else (remaining ++ [mkIndexed (element e) (index e - reduceIndex)],
                  reduceIndex))
         l (acc, 1))
  = acc ++ map (fun e => mkIndexed (element e) (index e - 1))
               (List.filter (fun e => negb (bool_decide (key (element e) = k))) l).
Proof.
  revert acc. induction l as [|e l IH]; intros acc; simpl.
  - by rewrite app_nil_r.
  - destruct (decide (key (element e) = k)) as [Hk|Hk].
    + rewrite bool_decide_eq_true_2 by done. simpl. apply IH.
    + rewrite bool_decide_eq_false_2 by done. simpl.
      rewrite IH. by rewrite <- app_assoc.
Qed.

Lemma removeLeavingChild_before (k : Key) (l acc : list IElementWithIndex)
    (removed : IElementWithIndex) :
  StronglySorted indexLt l ->
  List.find (fun e => bool_decide (key (element e) = k)) l = Some removed ->
  fst (fold_left
         (fun '(remaining, reduceIndex) e =>
            if decide (key (element e) = k) then (remaining, 1)
            else (remaining ++ [mkIndexed (element e) (index e - reduceIndex)],
                  reduceIndex))
         l (acc, 0))
  = acc ++ compacted k (index removed) l.
Proof.
  intros Hsorted. revert acc.
  induction Hsorted as [|e l Hl IH He]; intros acc Hfind; simpl in *; [done|].
  unfold compacted. simpl.
  destruct (decide (key (element e) = k)) as [Hk|Hk].
  - rewrite bool_decide_eq_true_2 in Hfind |- * by done.
    injection Hfind as <-. simpl.
    rewrite removeLeavingChild_after. f_equal.
    apply map_ext_in. intros x Hx. apply filter_In in Hx as [Hx _].
    rewrite Forall_forall in He. apply list_elem_of_In in Hx.
    specialize (He x Hx). unfold indexLt in He.
    unfold shiftAbove. by rewrite decide_True by lia.
  - rewrite bool_decide_eq_false_2 in Hfind |- * by done. simpl.
    rewrite (IH _ Hfind). rewrite <- app_assoc. simpl. do 2 f_equal.
    rewrite Z.sub_0_r, indexed_eta.
    apply find_some in Hfind as [Hin _]. apply list_elem_of_In in Hin.
    rewrite Forall_forall in He. specialize (He removed Hin). unfold indexLt in He.
    unfold shiftAbove. by rewrite decide_False by lia.
Qed.

Lemma removeLeavingChild_compacted (k : Key) (registry : list IElementWithIndex)
    (removed : IElementWithIndex) :
  StronglySorted indexLt registry ->
  List.find (fun e => bool_decide (key (element e) = k)) registry = Some removed ->
  removeLeavingChild k registry = compacted k (index removed) registry.
Proof.
  intros Hsorted Hfind. unfold removeLeavingChild.
  by rewrite (removeLeavingChild_before k registry [] removed).
Qed.

(** A key that is not in the registry: nothing changes. *)
Lemma removeLeavingChild_absent (k : Key) (l acc : list IElementWithIndex) :
  List.find (fun e => bool_decide (key (element e) = k)) l = None ->
  fst (fold_left
         (fun '(remaining, reduceIndex) e =>
            if decide (key (element e) = k) then (remaining, 1)
            else (remaining ++ [mkIndexed (element e) (index e - reduceIndex)],
                  reduceIndex))
         l (acc, 0))
  = acc ++ l.
Proof.
  revert acc. induction l as [|e l IH]; intros acc Hfind; simpl in *.
  - by rewrite app_nil_r.
  - destruct (decide (key (element e) = k)) as [Hk|Hk].
    + by rewrite bool_decide_eq_true_2 in Hfind by done.
    + rewrite bool_decide_eq_false_2 in Hfind by done.
      rewrite (IH _ Hfind), <- app_assoc. simpl.
      by rewrite Z.sub_0_r, indexed_eta.
Qed.

Lemma removeLeavingItem_compacted (k : Key) (registry : list IElementWithIndex)
    (removed : IElementWithIndex) :
  List.find (fun e => bool_decide (key (element e) = k)) registry = Some removed ->
  removeLeavingItem k registry = compacted k (index removed) registry.
Proof.
  intros Hfind. unfold removeLeavingItem, compacted. rewrite Hfind.
  apply map_ext. intros e. unfold shiftAbove.
  destruct (Z.gtb_spec (index e) (index removed));
    destruct (decide (index removed < index e)); done || lia.
Qed.

Lemma compacted_sorted (k : Key) (registry : list IElementWithIndex)
    (removed : IElementWithIndex) :
  StronglySorted indexLt registry ->
  removed ∈ registry -> key (element removed) = k ->
  StronglySorted indexLt (compacted k (index removed) registry).
Proof.
  intros Hsorted Hin Hk. unfold compacted.
  assert (Hne : forall e, e ∈ registry -> key (element e) <> k ->
                          index e <> index removed).
  { intros e He Hke Heq. apply Hke. rewrite <- Hk. f_equal. f_equal.
    by apply (StronglySorted_index_inj registry). }
  clear Hin. induction Hsorted as [|e l Hl IH He]; simpl; [constructor|].
  assert (Hne' : forall e0, e0 ∈ l -> key (element e0) <> k ->
                            index e0 <> index removed)
    by (intros e0 He0; apply Hne; by right).
  destruct (decide (key (element e) = k)) as [Hke|Hke].
  - rewrite bool_decide_eq_true_2 by done. simpl. by apply IH.
  - rewrite bool_decide_eq_false_2 by done. simpl.
    constructor; [by apply IH|].
    apply Forall_forall. intros y Hy.
    apply list_elem_of_fmap in Hy as (x & -> & Hx).
    apply elem_of_List_filter in Hx as [Hx Hkx].
    apply negb_true_iff, bool_decide_eq_false in Hkx.
    rewrite Forall_forall in He. specialize (He x Hx).
    pose proof (Hne e (list_elem_of_here _ _) Hke).
    pose proof (Hne' x Hx Hkx).
    unfold indexLt, shiftAbove in *.
    repeat destruct (decide _); simpl; lia.
Qed.

Lemma compacted_bound (k : Key) (registry : list IElementWithIndex)
    (removed : IElementWithIndex) (bound : Z) :
  StronglySorted indexLt registry ->
  removed ∈ registry -> key (element removed) = k ->
  Forall (fun e => 0 <= index e < bound) registry ->
  Forall (fun e => 0 <= index e < bound - 1) (compacted k (index removed) registry).
Proof.
  intros Hsorted Hin Hk Hall. rewrite Forall_forall in Hall.
  apply Forall_forall. intros y Hy. unfold compacted in Hy.
  apply list_elem_of_fmap in Hy as (x & -> & Hx).
  apply elem_of_List_filter in Hx as [Hx Hkx].
  apply negb_true_iff, bool_decide_eq_false in Hkx.
  assert (index x <> index removed).
  { intros Heq. apply Hkx. rewrite <- Hk. f_equal. f_equal.
    by apply (StronglySorted_index_inj registry). }
  pose proof (Hall x Hx). pose proof (Hall removed Hin).
  unfold shiftAbove. destruct (decide _); simpl; lia.
Qed.

(** C3. For a registry ascending by merged index with distinct indices and
    a key that has an entry in it, [removeLeavingChild] (and likewise
    [removeLeavingItem] of the first variant) returns the registry without
    the entries of that key, every other entry whose merged index was
    above the removed entry's having it lowered by exactly one and the
    rest unchanged; the result is again strictly ascending, and indices
    that lay in [0, bound) now lie in [0, bound - 1): no gap is left. *)
Theorem removeLeavingChild_correct (k : Key) (registry : list IElementWithIndex)
    (removed : IElementWithIndex) :
  StronglySorted indexLt registry ->
  List.find (fun e => bool_decide (key (element e) = k)) registry = Some removed ->
  removeLeavingChild k registry
  = map (fun e => if decide (index removed < index e)
                  then mkIndexed (element e) (index e - 1) else e)
        (List.filter (fun e => negb (bool_decide (key (element e) = k))) registry)
  /\ removeLeavingItem k registry = removeLeavingChild k registry
  /\ (k ∉ map (fun e => key (element e)) (removeLeavingChild k registry))
  /\ StronglySorted indexLt (removeLeavingChild k registry)
  /\ (forall bound,
        Forall (fun e => 0 <= index e < bound) registry ->
        Forall (fun e => 0 <= index e < bound - 1) (removeLeavingChild k registry)).
Proof.
  intros Hsorted Hfind.
  pose proof (removeLeavingChild_compacted k registry removed Hsorted Hfind) as Heq.
  pose proof (find_some _ _ Hfind) as [Hin Hk].
  apply list_elem_of_In in Hin. apply bool_decide_eq_true in Hk.
  rewrite Heq. split; [done|]. split; [by apply removeLeavingItem_compacted|].
  split; [|split].
  - intros Hmem. apply list_elem_of_fmap in Hmem as (y & Hky & Hy).
    unfold compacted in Hy. apply list_elem_of_fmap in Hy as (x & -> & Hx).
    apply elem_of_List_filter in Hx as [_ Hkx].
    apply negb_true_iff, bool_decide_eq_false in Hkx. apply Hkx.
    rewrite Hky. unfold shiftAbove. by destruct (decide _).
  - by apply compacted_sorted.
  - intros bound. by apply compacted_bound.
Qed.

(** The theorem on the registry [A@0, B@1, C@2] and the key of [B]. *)
Lemma removeLeavingChild_correct_witness :
  StronglySorted indexLt [mkIndexed itemA 0; mkIndexed itemB 1; mkIndexed itemC 2]
  /\ removeLeavingChild "B" [mkIndexed itemA 0; mkIndexed itemB 1; mkIndexed itemC 2]
     = [mkIndexed itemA 0; mkIndexed itemC 1].
Proof.
  assert (Hsorted : StronglySorted indexLt
                      [mkIndexed itemA 0; mkIndexed itemB 1; mkIndexed itemC 2]).
  { repeat constructor; unfold indexLt; simpl; lia. }
  split; [exact Hsorted|].
  exact (proj1 (removeLeavingChild_correct "B"
                  [mkIndexed itemA 0; mkIndexed itemB 1; mkIndexed itemC 2]
                  (mkIndexed itemB 1) Hsorted eq_refl)).
Defined.

(** ** The merged index *)

Lemma offsetWalk_bounds (l : list IElementWithIndex) (i acc : Z) :
  acc <= offsetWalk l i acc <= acc + Z.of_nat (length l).
Proof.
  revert acc. induction l as [|e l IH]; intros acc; simpl; [lia|].
  destruct (index e <=? i + acc).
  - specialize (IH (acc + 1)). lia.
  - specialize (IH acc). lia.
Qed.

Lemma offsetWalk_none (l : list IElementWithIndex) (i acc : Z) :
  Forall (fun e => i + acc < index e) l -> offsetWalk l i acc = acc.
Proof.
  induction 1 as [|e l He _ IH]; simpl; [done|].
  destruct (Z.leb_spec (index e) (i + acc)); [lia|done].
Qed.

(** In an ascending registry the merged index of a new entry is the index
    of no existing entry. *)
Lemma offsetWalk_fresh (l : list IElementWithIndex) (i acc : Z) :
  StronglySorted indexLt l ->
  forall e, e ∈ l -> index e <> i + offsetWalk l i acc.
Proof.
  intros Hsorted. revert acc.
  induction Hsorted as [|x l Hl IH Hx]; intros acc e He.
  - by apply elem_of_nil in He.
  - simpl. rewrite Forall_forall in Hx. unfold indexLt in Hx.
    destruct (Z.leb_spec (index x) (i + acc)) as [Hle|Hgt].
    + apply elem_of_cons in He as [->|He]; [|by apply IH].
      pose proof (offsetWalk_bounds l i (acc + 1)). lia.
    + rewrite offsetWalk_none.
      * apply elem_of_cons in He as [->|He]; [lia|].
        specialize (Hx e He). lia.
      * apply Forall_forall. intros y Hy. specialize (Hx y Hy). lia.
Qed.

(** A larger raw index gets a larger merged index. *)
Lemma offsetWalk_mono (l : list IElementWithIndex) (i j a b : Z) :
  i + a < j + b -> i + offsetWalk l i a < j + offsetWalk l j b.
Proof.
  revert a b. induction l as [|e l IH]; intros a b Hlt; simpl; [done|].
  destruct (Z.leb_spec (index e) (i + a)), (Z.leb_spec (index e) (j + b));
    apply IH; lia.
Qed.

Lemma StronglySorted_indexLt_NoDup (l : list IElementWithIndex) :
  StronglySorted indexLt l -> NoDup (map index l).
Proof.
  induction 1 as [|x l Hl IH Hx]; simpl; [constructor|].
  apply NoDup_cons. split; [|done].
  intros Hin. apply list_elem_of_fmap in Hin as (y & Heq & Hy).
  rewrite Forall_forall in Hx. specialize (Hx y Hy). unfold indexLt in Hx. lia.
Qed.

Lemma StronglySorted_indexLe_NoDup (l : list IElementWithIndex) :
  StronglySorted indexLe l -> NoDup (map index l) -> StronglySorted indexLt l.
Proof.
  induction 1 as [|x l Hl IH Hx]; intros Hnd; [constructor|].
  simpl in Hnd. apply NoDup_cons in Hnd as [Hfresh Hnd].
  constructor; [by apply IH|].
  rewrite Forall_forall in Hx. apply Forall_forall. intros y Hy.
  specialize (Hx y Hy). unfold indexLe in Hx. unfold indexLt.
  assert (index y <> index x).
  { intros Heq. apply Hfresh. rewrite <- Heq.
    by apply (list_elem_of_fmap_2 index). }
  lia.
Qed.

Lemma StronglySorted_indexLt_Le (l : list IElementWithIndex) :
  StronglySorted indexLt l -> StronglySorted indexLe l.
Proof.
  induction 1 as [|x l Hl IH Hx]; constructor; [done|].
  eapply Forall_impl; [exact Hx|]. unfold indexLt, indexLe. intros y Hy. lia.
Qed.

(** The new entries, in the order of the removed children, are strictly
    ascending. *)
Lemma merged_entries_sorted (registry removed : list IElementWithIndex) :
  StronglySorted indexLt removed ->
  StronglySorted indexLt
    (map (fun r => mkIndexed (element r) (mergedIndex registry (index r))) removed).
Proof.
  induction 1 as [|x l Hl IH Hx]; simpl; [constructor|].
  constructor; [done|].
  apply Forall_forall. intros y Hy.
  apply list_elem_of_fmap in Hy as (r & -> & Hr).
  rewrite Forall_forall in Hx. specialize (Hx r Hr).
  unfold indexLt in *. simpl. unfold mergedIndex.
  apply offsetWalk_mono. lia.
Qed.

(** Merging the removed children of an update into a strictly ascending
    registry gives a strictly ascending registry. *)
Lemma mergeInRemovedChildren_sorted (removed registry : list IElementWithIndex) :
  StronglySorted indexLt registry ->
  StronglySorted indexLt removed ->
  StronglySorted indexLt (mergeInRemovedChildren removed registry).
Proof.
  intros Hreg Hrem.
  apply StronglySorted_indexLe_NoDup.
  { unfold mergeInRemovedChildren. apply sortByIndex_sorted. }
  rewrite (mergeInRemovedChildren_Permutation removed registry).
  rewrite map_app. apply NoDup_app. split; [|split].
  - by apply StronglySorted_indexLt_NoDup.
  - intros z Hz Hz'.
    apply list_elem_of_fmap in Hz as (e & -> & He).
    apply list_elem_of_fmap in Hz' as (y & Heq & Hy).
    apply list_elem_of_fmap in Hy as (r & -> & Hr). simpl in Heq.
    by apply (offsetWalk_fresh registry (index r) 0 Hreg e He).
  - by apply StronglySorted_indexLt_NoDup, merged_entries_sorted.
Qed.

Lemma mergeInRemovedChildren_bound (removed registry : list IElementWithIndex)
    (n : nat) :
  Forall (fun e => 0 <= index e < Z.of_nat (n + length registry)) registry ->
  Forall (fun r => 0 <= index r < Z.of_nat n) removed ->
  Forall (fun e => 0 <= index e < Z.of_nat (n + length registry))
         (mergeInRemovedChildren removed registry).
Proof.
  intros Hreg Hrem.
  rewrite (mergeInRemovedChildren_Permutation removed registry).
  apply Forall_app. split; [done|].
  apply Forall_forall. intros y Hy.
  apply list_elem_of_fmap in Hy as (r & -> & Hr).
  rewrite Forall_forall in Hrem. specialize (Hrem r Hr). simpl.
  unfold mergedIndex. pose proof (offsetWalk_bounds registry (index r) 0). lia.
Qed.

(** With nothing removed, merging leaves an ascending registry as it is. *)
Lemma mergeInRemovedChildren_nil (registry : list IElementWithIndex) :
  StronglySorted indexLt registry -> mergeInRemovedChildren [] registry = registry.
Proof.
  intros Hsorted. unfold mergeInRemovedChildren. simpl. rewrite app_nil_r.
  by apply sortByIndex_id, StronglySorted_indexLt_Le.
Qed.

(** ** The scheduler: [liveTimeouts] and the window's timeouts *)

Lemma fold_left_preserves {A B} (P : A -> Prop) (f : A -> B -> A) (l : list B) (a : A) :
  (forall a x, P a -> P (f a x)) -> P a -> P (fold_left f l a).
Proof.
  intros Hf. revert a. induction l as [|x l IH]; intros a Ha; simpl; [done|].
  apply IH. by apply Hf.
Qed.

Lemma timersAfter_refl (s : State) : timersAfter s s.
Proof. split; [lia|]. by intros h x _ H. Qed.

Lemma timersAfter_trans (s1 s2 s3 : State) :
  timersAfter s1 s2 -> timersAfter s2 s3 -> timersAfter s1 s3.
Proof.
  intros [Hn1 H1] [Hn2 H2]. split; [lia|].
  intros h x Hh H3. apply H1; [done|]. apply H2; [lia|done].
Qed.

Lemma fold_left_timersAfter {B} (f : State -> B -> State) (l : list B) (s : State) :
  (forall a x, timersAfter a (f a x)) -> timersAfter s (fold_left f l s).
Proof.
  intros Hf. revert s. induction l as [|x l IH]; intros s; simpl.
  - apply timersAfter_refl.
  - eapply timersAfter_trans; [apply Hf|apply IH].
Qed.

Lemma window_clearTimeout_wf (h : nat) (s : State) :
  timersWf s -> timersWf (window_clearTimeout h s).
Proof.
  intros (Hpos & Hlive & Hrange & Hinj). split; [done|]. split; [|done].
  intros h' cb d Hh'. simpl in *.
  apply lookup_delete_Some in Hh' as [_ Hh']. by eapply Hlive.
Qed.

Lemma window_clearTimeout_after (h : nat) (s : State) :
  timersAfter s (window_clearTimeout h s).
Proof.
  split; [simpl; lia|]. intros h' x _ Hh'. simpl in Hh'.
  by apply lookup_delete_Some in Hh' as [_ ?].
Qed.

Section SchedulerFacts.
Variable props : ITransitionGroupProps.

Lemma clearLiveTimeout_wf (k : Key) (s : State) :
  timersWf s -> timersWf (clearLiveTimeout k s).
Proof.
  intros Hwf. unfold clearLiveTimeout.
  destruct (liveTimeouts s !! k); [|done].
  destruct (decide _); [done|]. by apply window_clearTimeout_wf.
Qed.

Lemma clearLiveTimeout_after (k : Key) (s : State) :
  timersAfter s (clearLiveTimeout k s).
Proof.
  unfold clearLiveTimeout.
  destruct (liveTimeouts s !! k); [|apply timersAfter_refl].
  destruct (decide _); [apply timersAfter_refl|apply window_clearTimeout_after].
Qed.

(** After [clearLiveTimeout(key)] no timeout of that key is pending. *)
Lemma clearLiveTimeout_clears (k : Key) (s : State) (h : nat)
    (cb : TimeoutCallback) (d : Z) :
  timersWf s ->
  timeouts (clearLiveTimeout k s) !! h = Some (cb, d) ->
  callbackKey cb <> k.
Proof.
  intros (Hpos & Hlive & Hrange & Hinj) Hh Hk. unfold clearLiveTimeout in Hh.
  destruct (liveTimeouts s !! k) as [current|] eqn:Hcur.
  - destruct (decide (current = 0%nat)) as [->|Hnz].
    + apply Hrange in Hcur. lia.
    + simpl in Hh. apply lookup_delete_Some in Hh as [Hne Hh].
      apply Hlive in Hh. rewrite Hk in Hh. congruence.
  - apply Hlive in Hh. rewrite Hk in Hh. congruence.
Qed.

Lemma clearLiveTimeout_fields (k : Key) (s : State) :
  nextTimeout (clearLiveTimeout k s) = nextTimeout s
  /\ liveTimeouts (clearLiveTimeout k s) = liveTimeouts s
  /\ leavingChildren (clearLiveTimeout k s) = leavingChildren s
  /\ oldChildren (clearLiveTimeout k s) = oldChildren s
  /\ enteringChildren (clearLiveTimeout k s) = enteringChildren s
  /\ inactiveChildren (clearLiveTimeout k s) = inactiveChildren s.
Proof.
  unfold clearLiveTimeout. destruct (liveTimeouts s !! k); [|done].
  by destruct (decide _).
Qed.

Lemma scheduleSettleEnteringChild_shape (k : Key) (s : State) :
  scheduleSettleEnteringChild props k s
  = scheduleTimeout (SettleEnteringChild k) (transitionEnterTimeout props) s.
Proof. done. Qed.

Lemma scheduleRemoveLeavingChild_shape (k : Key) (s : State) :
  scheduleRemoveLeavingChild props k s
  = scheduleTimeout (RemoveLeavingChild k) (transitionLeaveTimeout props) s.
Proof. done. Qed.

Lemma scheduleTimeout_lookup (cb : TimeoutCallback) (delay : Z) (s : State) (h : nat) :
  timeouts (scheduleTimeout cb delay s) !! h
  = if decide (nextTimeout s = h) then Some (cb, delay)
    else timeouts (clearLiveTimeout (callbackKey cb) s) !! h.
Proof.
  unfold scheduleTimeout. simpl.
  destruct (clearLiveTimeout_fields (callbackKey cb) s) as (-> & _).
  apply lookup_insert.
Qed.

Lemma scheduleTimeout_wf (cb : TimeoutCallback) (delay : Z) (s : State) :
  timersWf s -> timersWf (scheduleTimeout cb delay s).
Proof.
  intros Hwf. pose proof (clearLiveTimeout_wf (callbackKey cb) s Hwf) as Hwf1.
  pose proof (clearLiveTimeout_clears (callbackKey cb) s) as Hclr.
  destruct Hwf1 as (Hpos & Hlive & Hrange & Hinj).
  unfold scheduleTimeout. split; [simpl; lia|]. split; [|split].
  - intros h cb' d Hh. simpl in *.
    apply lookup_insert_Some in Hh as [[<- [= <- <-]]|[Hne Hh]].
    + apply lookup_insert_eq.
    + rewrite lookup_insert_ne; [by eapply Hlive|].
      intros Heq. by eapply Hclr.
  - intros k h Hk. simpl in *.
    apply lookup_insert_Some in Hk as [[_ <-]|[_ Hk]]; [lia|].
    apply Hrange in Hk. lia.
  - intros k1 k2 h H1 H2. simpl in *.
    apply lookup_insert_Some in H1 as [[<- <-]|[Hne1 H1]];
      apply lookup_insert_Some in H2 as [[<- Heq]|[Hne2 H2]]; try done.
    + apply Hrange in H2. lia.
    + apply Hrange in H1. lia.
    + by eapply Hinj.
Qed.

Lemma scheduleTimeout_after (cb : TimeoutCallback) (delay : Z) (s : State) :
  timersAfter s (scheduleTimeout cb delay s).
Proof.
  destruct (clearLiveTimeout_after (callbackKey cb) s) as [Hn Hold].
  destruct (clearLiveTimeout_fields (callbackKey cb) s) as (Hnext & _).
  split.
  - unfold scheduleTimeout. simpl. lia.
  - intros h x Hh Hx. rewrite scheduleTimeout_lookup in Hx.
    destruct (decide _); [lia|]. by apply Hold.
Qed.

(** Scheduling for a key leaves exactly one timeout of that key pending:
    the new one. *)
Lemma scheduleTimeout_single (cb : TimeoutCallback) (delay : Z) (s : State)
    (h : nat) (cb' : TimeoutCallback) (d : Z) :
  timersWf s ->
  timeouts (scheduleTimeout cb delay s) !! h = Some (cb', d) ->
  callbackKey cb' = callbackKey cb ->
  h = nextTimeout s /\ cb' = cb /\ d = delay.
Proof.
  intros Hwf Hh Hk. rewrite scheduleTimeout_lookup in Hh.
  destruct (decide _) as [<-|Hne]; [by injection Hh as <- <-|].
  by apply clearLiveTimeout_clears in Hh.
Qed.
End SchedulerFacts.

(** *** The effects and the events keep the timers well formed *)

Section EngineTimers.
Variable props : ITransitionGroupProps.

Lemma requestActivation_timers (s : State) :
  timeouts (requestActivation s) = timeouts s
  /\ nextTimeout (requestActivation s) = nextTimeout s
  /\ liveTimeouts (requestActivation s) = liveTimeouts s
  /\ leavingChildren (requestActivation s) = leavingChildren s
  /\ oldChildren (requestActivation s) = oldChildren s
  /\ enteringChildren (requestActivation s) = enteringChildren s
  /\ inactiveChildren (requestActivation s) = inactiveChildren s.
Proof. unfold requestActivation. by destruct (decide _). Qed.

Lemma requestActivation_wf (s : State) :
  timersWf s -> timersWf (requestActivation s).
Proof. unfold requestActivation. by destruct (decide _). Qed.

Lemma requestActivation_after (s : State) : timersAfter s (requestActivation s).
Proof.
  unfold requestActivation. destruct (decide _); [apply timersAfter_refl|].
  split; [simpl; lia|]. by intros h x _ H.
Qed.

Lemma removedEffect_wf (arrayChildren : list ReactElement) (s : State) :
  timersWf s -> timersWf (removedEffect props arrayChildren s).
Proof.
  intros Hwf. unfold removedEffect.
  destruct (items_of _) as [|r removed]; [done|].
  change (timersWf
            (fold_left (fun s' e => scheduleRemoveLeavingChild props (key (element e)) s')
                       (r :: removed) s)).
  apply fold_left_preserves; [|done].
  intros a x Ha. rewrite scheduleRemoveLeavingChild_shape.
  by apply scheduleTimeout_wf.
Qed.

Lemma removedEffect_after (arrayChildren : list ReactElement) (s : State) :
  timersAfter s (removedEffect props arrayChildren s).
Proof.
  unfold removedEffect.
  destruct (items_of _) as [|r removed]; [apply timersAfter_refl|].
  change (timersAfter s
            (fold_left (fun s' e => scheduleRemoveLeavingChild props (key (element e)) s')
                       (r :: removed) s)).
  apply fold_left_timersAfter.
  intros a x. rewrite scheduleRemoveLeavingChild_shape. apply scheduleTimeout_after.
Qed.

Lemma addedEffect_wf (addedChildren : list IElementWithIndex) (s : State) :
  timersWf s -> timersWf (addedEffect props addedChildren s).
Proof.
  intros Hwf. unfold addedEffect.
  destruct addedChildren as [|r added]; [done|].
  change (timersWf
            (fold_left
               (fun s' e =>
                  scheduleSettleEnteringChild props (key (element e))
                    (setEnteringChildren (fun local => {[key (element e)]} ∪ local) s'))
               (r :: added) s)).
  apply fold_left_preserves; [|done].
  intros a x Ha. rewrite scheduleSettleEnteringChild_shape.
  by apply scheduleTimeout_wf.
Qed.

Lemma addedEffect_after (addedChildren : list IElementWithIndex) (s : State) :
  timersAfter s (addedEffect props addedChildren s).
Proof.
  unfold addedEffect.
  destruct addedChildren as [|r added]; [apply timersAfter_refl|].
  change (timersAfter s
            (fold_left
               (fun s' e =>
                  scheduleSettleEnteringChild props (key (element e))
                    (setEnteringChildren (fun local => {[key (element e)]} ∪ local) s'))
               (r :: added) s)).
  apply fold_left_timersAfter.
  intros a x. rewrite scheduleSettleEnteringChild_shape.
  apply (scheduleTimeout_after _ _
           (setEnteringChildren (fun local => {[key (element x)]} ∪ local) a)).
Qed.

Lemma clearAllTimeoutsEffect_wf (s : State) :
  timersWf s -> timersWf (clearAllTimeoutsEffect s).
Proof.
  intros Hwf. unfold clearAllTimeoutsEffect.
  apply fold_left_preserves; [intros; by apply window_clearTimeout_wf|].
  apply fold_left_preserves; [intros; by apply window_clearTimeout_wf|done].
Qed.

Lemma update_wf (children : ChildrenProp) (s : State) :
  timersWf s -> timersWf (update props children s).
Proof.
  intros Hwf. unfold update.
  apply requestActivation_wf.
  apply (addedEffect_wf _ (removedEffect props _ (requestActivation s))).
  by apply removedEffect_wf, requestActivation_wf.
Qed.

Lemma update_after (children : ChildrenProp) (s : State) :
  timersAfter s (update props children s).
Proof.
  unfold update.
  eapply timersAfter_trans; [apply requestActivation_after|].
  eapply timersAfter_trans; [apply removedEffect_after|].
  eapply timersAfter_trans; [apply addedEffect_after|].
  apply (requestActivation_after (setOldChildren _ _)).
Qed.

Lemma fireTimeout_wf (h : nat) (s : State) :
  timersWf s -> timersWf (fireTimeout h s).
Proof.
  intros Hwf. unfold fireTimeout.
  destruct (timeouts s !! h) as [[cb d]|]; [|done].
  apply requestActivation_wf.
  pose proof (window_clearTimeout_wf h s Hwf).
  by destruct cb.
Qed.

Lemma fireTimeout_after (h : nat) (s : State) : timersAfter s (fireTimeout h s).
Proof.
  unfold fireTimeout.
  destruct (timeouts s !! h) as [[cb d]|]; [|apply timersAfter_refl].
  eapply timersAfter_trans; [apply (window_clearTimeout_after h)|].
  destruct cb as [k|k].
  - apply (requestActivation_after (settleEnteringChild k (takeTimeout h s))).
  - apply (requestActivation_after
             (setLeavingChildren (removeLeavingChild k) (takeTimeout h s))).
Qed.

Lemma fireFrame_wf (h : nat) (s : State) :
  timersWf s -> timersWf (fireFrame h s).
Proof.
  intros Hwf. unfold fireFrame.
  destruct (frames s !! h) as [[captured|captured]|]; [done| |done].
  by apply requestActivation_wf.
Qed.

Lemma fireFrame_after (h : nat) (s : State) : timersAfter s (fireFrame h s).
Proof.
  unfold fireFrame.
  destruct (frames s !! h) as [[captured|captured]|];
    [|apply (requestActivation_after (setInactiveChildren _ (takeFrame h s)))
     |apply timersAfter_refl].
  split; [simpl; lia|]. by intros h' x _ H.
Qed.

Lemma step_wf (ev : Event) (s : State) : timersWf s -> timersWf (step props ev s).
Proof.
  destruct ev; simpl;
    [apply update_wf|apply fireTimeout_wf|apply fireFrame_wf].
Qed.

Lemma step_after (ev : Event) (s : State) : timersAfter s (step props ev s).
Proof.
  destruct ev; simpl;
    [apply update_after|apply fireTimeout_after|apply fireFrame_after].
Qed.

Lemma run_after (evs : list Event) (s : State) : timersAfter s (run props evs s).
Proof. apply fold_left_timersAfter. intros a x. apply step_after. Qed.

Lemma initialState_wf (arrayChildren : list ReactElement) :
  timersWf (initialState arrayChildren).
Proof.
  split; [simpl; lia|]. split; [|split].
  - intros h cb d H. simpl in H. by rewrite lookup_empty in H.
  - intros k h H. simpl in H. by rewrite lookup_empty in H.
  - intros k1 k2 h H. simpl in H. by rewrite lookup_empty in H.
Qed.

Lemma mount_wf (children : ChildrenProp) : timersWf (mount props children).
Proof.
  unfold mount. apply requestActivation_wf.
  apply (addedEffect_wf _ (clearAllTimeoutsEffect _)).
  apply clearAllTimeoutsEffect_wf, removedEffect_wf, requestActivation_wf.
  apply initialState_wf.
Qed.

Lemma reachable_wf (s : State) : reachable props s -> timersWf s.
Proof.
  induction 1 as [children|s ev _ IH]; [apply mount_wf|by apply step_wf].
Qed.
End EngineTimers.

(** *** One live timeout per key *)

Lemma timersWf_onePendingPerKey (s : State) : timersWf s -> onePendingPerKey s.
Proof.
  intros (_ & Hlive & _) h1 h2 cb1 cb2 d1 d2 H1 H2 Hk.
  pose proof (Hlive _ _ _ H1) as L1. pose proof (Hlive _ _ _ H2) as L2.
  rewrite Hk in L1. assert (h1 = h2) as -> by congruence.
  split; [done|]. split; congruence.
Qed.

Section Cancellation.
Variable props : ITransitionGroupProps.

(** A timeout that was pending for the key is gone once a new one has
    been scheduled for it, and its handle is never pending again. *)
Lemma scheduleTimeout_cancels (cb : TimeoutCallback) (delay : Z) (s : State)
    (h : nat) (cb0 : TimeoutCallback) (d0 : Z) (evs : list Event) :
  timersWf s ->
  timeouts s !! h = Some (cb0, d0) ->
  callbackKey cb0 = callbackKey cb ->
  timeouts (scheduleTimeout cb delay s) !! h = None
  /\ timeouts (run props evs (scheduleTimeout cb delay s)) !! h = None.
Proof.
  intros Hwf Hh Hk.
  assert (Hlt : (h < nextTimeout s)%nat).
  { destruct Hwf as (_ & Hlive & Hrange & _).
    apply Hlive, Hrange in Hh. lia. }
  assert (Hgone : timeouts (scheduleTimeout cb delay s) !! h = None).
  { rewrite scheduleTimeout_lookup. destruct (decide _); [lia|].
    destruct (timeouts (clearLiveTimeout _ s) !! h) as [[cb1 d1]|] eqn:E; [|done].
    pose proof (clearLiveTimeout_clears _ _ _ _ _ Hwf E) as Hne.
    destruct (clearLiveTimeout_after (callbackKey cb) s) as [_ Hold].
    apply Hold in E; [|done]. congruence. }
  split; [done|].
  destruct (run_after props evs (scheduleTimeout cb delay s)) as [_ Hold].
  destruct (timeouts (run props evs _) !! h) as [x|] eqn:E; [|done].
  apply Hold in E; [congruence|].
  destruct (scheduleTimeout_after cb delay s) as [Hn _]. lia.
Qed.

(** Scheduling for one key leaves the pending timeouts of the other
    keys alone. *)
Lemma scheduleTimeout_keeps_other (cb : TimeoutCallback) (delay : Z) (s : State)
    (h : nat) (cb0 : TimeoutCallback) (d0 : Z) :
  timersWf s ->
  timeouts s !! h = Some (cb0, d0) ->
  callbackKey cb0 <> callbackKey cb ->
  timeouts (scheduleTimeout cb delay s) !! h = Some (cb0, d0).
Proof.
  intros (Hpos & Hlive & Hrange & Hinj) Hh Hne.
  pose proof (Hlive _ _ _ Hh) as Hl. pose proof (Hrange _ _ Hl).
  rewrite scheduleTimeout_lookup. destruct (decide _); [lia|].
  unfold clearLiveTimeout.
  destruct (liveTimeouts s !! callbackKey cb) as [current|] eqn:Hcur; [|done].
  destruct (decide _); [done|]. simpl.
  rewrite lookup_delete_ne; [done|].
  intros ->. apply Hne. by eapply Hinj.
Qed.

(** C6. In every reachable state at most one timeout is pending for a
    key, so at most one settle timer and at most one remove timer; and
    scheduling a settle or a remove timer for a key cancels the timeout
    that was pending for it: it is no longer pending, it is never
    pending again whatever events follow, and the one timeout then
    pending for the key is the new one. *)
Theorem one_pending_timeout_per_key (s : State) :
  reachable props s ->
  onePendingPerKey s
  /\ (forall k h cb d evs,
        timeouts s !! h = Some (cb, d) -> callbackKey cb = k ->
        timeouts (scheduleSettleEnteringChild props k s) !! h = None
        /\ timeouts (run props evs (scheduleSettleEnteringChild props k s)) !! h = None
        /\ timeouts (scheduleRemoveLeavingChild props k s) !! h = None
        /\ timeouts (run props evs (scheduleRemoveLeavingChild props k s)) !! h = None)
  /\ (forall k,
        onePendingPerKey (scheduleSettleEnteringChild props k s)
        /\ timeouts (scheduleSettleEnteringChild props k s) !! nextTimeout s
           = Some (SettleEnteringChild k, transitionEnterTimeout props)
        /\ onePendingPerKey (scheduleRemoveLeavingChild props k s)
        /\ timeouts (scheduleRemoveLeavingChild props k s) !! nextTimeout s
           = Some (RemoveLeavingChild k, transitionLeaveTimeout props)).
Proof.
  intros Hreach. pose proof (reachable_wf props s Hreach) as Hwf.
  split; [by apply timersWf_onePendingPerKey|]. split.
  - intros k h cb d evs Hh Hk.
    rewrite scheduleSettleEnteringChild_shape, scheduleRemoveLeavingChild_shape.
    destruct (scheduleTimeout_cancels (SettleEnteringChild k)
                (transitionEnterTimeout props) s h cb d evs Hwf Hh Hk) as [? ?].
    destruct (scheduleTimeout_cancels (RemoveLeavingChild k)
                (transitionLeaveTimeout props) s h cb d evs Hwf Hh Hk) as [? ?].
    done.
  - intros k.
    rewrite scheduleSettleEnteringChild_shape, scheduleRemoveLeavingChild_shape.
    split; [by apply timersWf_onePendingPerKey, scheduleTimeout_wf|].
    split; [rewrite scheduleTimeout_lookup; by rewrite decide_True|].
    split; [by apply timersWf_onePendingPerKey, scheduleTimeout_wf|].
    rewrite scheduleTimeout_lookup; by rewrite decide_True.
Qed.
End Cancellation.

(** The theorem in the state where the remove timer of [B] is pending:
    scheduling the settle timer of [B] cancels it. *)
Lemma one_pending_timeout_per_key_witness :
  reachable sampleProps leavingB
  /\ timeouts leavingB !! 1%nat = Some (RemoveLeavingChild "B", 500)
  /\ timeouts (scheduleSettleEnteringChild sampleProps "B" leavingB) !! 1%nat = None
  /\ timeouts (scheduleSettleEnteringChild sampleProps "B" leavingB) !! 2%nat
     = Some (SettleEnteringChild "B", 1000).
Proof.
  assert (Hreach : reachable sampleProps leavingB)
    by (apply reachable_step, reachable_mount).
  assert (Hpending : timeouts leavingB !! 1%nat = Some (RemoveLeavingChild "B", 500))
    by reflexivity.
  split; [exact Hreach|]. split; [exact Hpending|].
  destruct (one_pending_timeout_per_key sampleProps leavingB Hreach)
    as (_ & Hcancel & Hnew).
  split.
  - exact (proj1 (Hcancel "B" 1%nat (RemoveLeavingChild "B") 500 [] Hpending eq_refl)).
  - exact (proj1 (proj2 (Hnew "B"))).
Defined.

(** ** The registry inside the engine *)

Lemma keysOf_spec (l : list IElementWithIndex) (k : Key) :
  k ∈ keysOf l <-> exists e, e ∈ l /\ key (element e) = k.
Proof.
  unfold keysOf. rewrite elem_of_list_to_set, list_elem_of_fmap.
  split; intros (e & ? & ?); exists e; done.
Qed.

Lemma dropAdded_spec (addedKeys : gset Key) (l : list IElementWithIndex)
    (e : IElementWithIndex) :
  e ∈ dropAdded addedKeys l <-> e ∈ l /\ key (element e) ∉ addedKeys.
Proof.
  unfold dropAdded. rewrite elem_of_List_filter.
  by rewrite negb_true_iff, bool_decide_eq_false.
Qed.

Lemma dropAdded_empty (l : list IElementWithIndex) : dropAdded ∅ l = l.
Proof.
  unfold dropAdded. induction l as [|e l IH]; simpl; [done|].
  rewrite bool_decide_eq_false_2 by set_solver. simpl. by rewrite IH.
Qed.

Lemma dropAdded_sublist (addedKeys : gset Key) (l : list IElementWithIndex) :
  sublist (dropAdded addedKeys l) l.
Proof.
  unfold dropAdded. induction l as [|e l IH]; simpl; [done|].
  destruct (negb _); by constructor.
Qed.

(** The entries [removeLeavingChild] keeps are entries of the registry,
    with their element. *)
Lemma removeLeavingChild_elements (k : Key) (l : list IElementWithIndex)
    (e : IElementWithIndex) :
  e ∈ removeLeavingChild k l ->
  exists e0, e0 ∈ l /\ element e = element e0 /\ key (element e0) <> k.
Proof.
  unfold removeLeavingChild.
  assert (Hgen : forall acc ri,
            e ∈ fst (fold_left
                       (fun '(remaining, reduceIndex) e =>
                          if decide (key (element e) = k) then (remaining, 1)
                          else (remaining ++
                                  [mkIndexed (element e) (index e - reduceIndex)],
                                reduceIndex))
                       l (acc, ri)) ->
            e ∈ acc \/ exists e0, e0 ∈ l /\ element e = element e0
                                  /\ key (element e0) <> k).
  { induction l as [|x l IH]; intros acc ri He; simpl in He; [by left|].
    destruct (decide (key (element x) = k)) as [Hk|Hk].
    - destruct (IH _ _ He) as [?|(e0 & ? & ? & ?)]; [by left|].
      right. exists e0. split; [by right|done].
    - destruct (IH _ _ He) as [Hacc|(e0 & ? & ? & ?)].
      + apply elem_of_app in Hacc as [?|Hx]; [by left|].
        apply list_elem_of_singleton in Hx as ->.
        right. exists x. split; [left|done].
      + right. exists e0. split; [by right|done]. }
  intros He. destruct (Hgen [] 0 He) as [Hnil|?]; [|done].
  by apply elem_of_nil in Hnil.
Qed.

Section EngineRegistry.
Variable props : ITransitionGroupProps.

Lemma scheduleTimeout_fields (cb : TimeoutCallback) (delay : Z) (s : State) :
  leavingChildren (scheduleTimeout cb delay s) = leavingChildren s
  /\ oldChildren (scheduleTimeout cb delay s) = oldChildren s
  /\ enteringChildren (scheduleTimeout cb delay s) = enteringChildren s
  /\ inactiveChildren (scheduleTimeout cb delay s) = inactiveChildren s.
Proof.
  unfold scheduleTimeout. simpl.
  destruct (clearLiveTimeout_fields (callbackKey cb) s) as (_ & _ & -> & -> & -> & ->).
  done.
Qed.

Lemma removedEffect_fields (arrayChildren : list ReactElement) (s : State) :
  let removedChildren := items_of (elementDiff (oldChildren s) arrayChildren) in
  leavingChildren (removedEffect props arrayChildren s)
    = match removedChildren with
      | [] => leavingChildren s
      | _ :: _ => mergeInRemovedChildren removedChildren (leavingChildren s)
      end
  /\ oldChildren (removedEffect props arrayChildren s) = oldChildren s
  /\ enteringChildren (removedEffect props arrayChildren s) = enteringChildren s
  /\ inactiveChildren (removedEffect props arrayChildren s)
     = keysOf removedChildren ∪ inactiveChildren s.
Proof.
  intros removedChildren. unfold removedEffect. fold removedChildren.
  destruct removedChildren as [|r removed] eqn:E.
  { repeat split; try done. unfold keysOf. simpl. by rewrite union_empty_l_L. }
  simpl.
  assert (Hfold : let s' := fold_left
                    (fun s' e => scheduleRemoveLeavingChild props (key (element e)) s')
                    removed
                    (scheduleRemoveLeavingChild props (key (element r)) s) in
                  leavingChildren s' = leavingChildren s
                  /\ oldChildren s' = oldChildren s
                  /\ enteringChildren s' = enteringChildren s
                  /\ inactiveChildren s' = inactiveChildren s).
  { apply (fold_left_preserves
             (fun s' => leavingChildren s' = leavingChildren s
                        /\ oldChildren s' = oldChildren s
                        /\ enteringChildren s' = enteringChildren s
                        /\ inactiveChildren s' = inactiveChildren s)).
    - intros a x (<- & <- & <- & <-). rewrite scheduleRemoveLeavingChild_shape.
      apply scheduleTimeout_fields.
    - rewrite scheduleRemoveLeavingChild_shape. apply scheduleTimeout_fields. }
  destruct Hfold as (-> & -> & -> & ->). done.
Qed.

Lemma addedEffect_fields (addedChildren : list IElementWithIndex) (s : State) :
  leavingChildren (addedEffect props addedChildren s)
    = dropAdded (keysOf addedChildren) (leavingChildren s)
  /\ oldChildren (addedEffect props addedChildren s) = oldChildren s
  /\ enteringChildren (addedEffect props addedChildren s)
     = keysOf addedChildren ∪ enteringChildren s
  /\ inactiveChildren (addedEffect props addedChildren s)
     = keysOf addedChildren ∪ inactiveChildren s.
Proof.
  unfold addedEffect. destruct addedChildren as [|r added] eqn:E.
  { unfold keysOf. simpl. rewrite dropAdded_empty, !union_empty_l_L. done. }
  rewrite <- E. simpl.
  assert (Hfold : forall l s0,
            let s' := fold_left
              (fun s' e =>
                 scheduleSettleEnteringChild props (key (element e))
                   (setEnteringChildren (fun local => {[key (element e)]} ∪ local) s'))
              l s0 in
            leavingChildren s' = leavingChildren s0
            /\ oldChildren s' = oldChildren s0
            /\ enteringChildren s' = keysOf l ∪ enteringChildren s0
            /\ inactiveChildren s' = inactiveChildren s0).
  { induction l as [|x l IH]; intros s0; simpl.
    - unfold keysOf. simpl. by rewrite union_empty_l_L.
    - destruct (IH (scheduleSettleEnteringChild props (key (element x))
                      (setEnteringChildren
                         (fun local => {[key (element x)]} ∪ local) s0)))
        as (-> & -> & -> & ->).
      rewrite scheduleSettleEnteringChild_shape.
      destruct (scheduleTimeout_fields (SettleEnteringChild (key (element x)))
                  (transitionEnterTimeout props)
                  (setEnteringChildren
                     (fun local => {[key (element x)]} ∪ local) s0))
        as (-> & -> & -> & ->).
      simpl. repeat split; try done. unfold keysOf. simpl. set_solver. }
  destruct (Hfold addedChildren s) as (-> & -> & -> & ->). done.
Qed.

(** What an update does to the React state. *)
Lemma update_fields (children : ChildrenProp) (s : State) :
  let arrayChildren := items_of (toArray children) in
  let removedChildren := items_of (elementDiff (oldChildren s) arrayChildren) in
  let addedChildren := items_of (elementDiff arrayChildren (oldChildren s)) in
  leavingChildren (update props children s)
    = dropAdded (keysOf addedChildren)
        match removedChildren with
        | [] => leavingChildren s
        | _ :: _ => mergeInRemovedChildren removedChildren (leavingChildren s)
        end
  /\ oldChildren (update props children s) = arrayChildren
  /\ enteringChildren (update props children s)
     = keysOf addedChildren ∪ enteringChildren s
  /\ inactiveChildren (update props children s)
     = keysOf addedChildren ∪ (keysOf removedChildren ∪ inactiveChildren s).
Proof.
  intros arrayChildren removedChildren addedChildren. unfold update.
  fold arrayChildren.
  destruct (requestActivation_timers (setOldChildren arrayChildren
              (addedEffect props
                 (items_of (elementDiff arrayChildren
                              (oldChildren (requestActivation s))))
                 (removedEffect props arrayChildren (requestActivation s)))))
    as (_ & _ & _ & -> & -> & -> & ->).
  simpl.
  destruct (requestActivation_timers s) as (_ & _ & _ & Hl & Ho & He & Hi).
  rewrite Ho. fold addedChildren.
  destruct (addedEffect_fields addedChildren
              (removedEffect props arrayChildren (requestActivation s)))
    as (-> & _ & -> & ->).
  destruct (removedEffect_fields arrayChildren (requestActivation s))
    as (-> & _ & -> & ->).
  rewrite Ho, Hl, He, Hi. done.
Qed.
End EngineRegistry.

(** *** The registry and the current children have no key in common *)

(** A key of the new children that the old children do not have is the
    key of an added child. *)
Lemma added_key (arrayChildren old : list ReactElement) (k : Key) :
  k ∈ keySet arrayChildren -> k ∉ keySet old ->
  k ∈ keysOf (items_of (elementDiff arrayChildren old)).
Proof.
  rewrite !keySet_spec. intros Hin Hout.
  apply list_elem_of_fmap in Hin as (c & -> & Hc).
  apply list_elem_of_lookup in Hc as [i Hi].
  apply keysOf_spec. exists (mkIndexed c (Z.of_nat i)). split; [|done].
  apply elem_of_elementDiff. rewrite Nat2Z.id. split; [lia|done].
Qed.

Lemma removed_key (old arrayChildren : list ReactElement) (r : IElementWithIndex) :
  r ∈ items_of (elementDiff old arrayChildren) ->
  (key (element r) ∉ keySet arrayChildren) /\ element r ∈ old.
Proof.
  destruct r as [c i]. intros Hr. apply elem_of_elementDiff in Hr as (_ & Hl & Hk).
  simpl. rewrite keySet_spec. split; [done|]. by eapply list_elem_of_lookup_2.
Qed.

Section EngineApart.
Variable props : ITransitionGroupProps.

Lemma update_apart (children : ChildrenProp) (s : State) :
  registryApart s -> registryApart (update props children s).
Proof.
  intros Hapart e He.
  destruct (update_fields props children s) as (Hl & Ho & _).
  rewrite Hl in He. rewrite Ho. clear Hl Ho.
  apply dropAdded_spec in He as [He Hnot]. intros Hin. apply Hnot.
  assert (Hold : e ∈ leavingChildren s).
  { destruct (items_of (elementDiff (oldChildren s) _)) as [|r0 removed] eqn:E;
      [done|].
    rewrite mergeInRemovedChildren_Permutation in He.
    apply elem_of_app in He as [?|He]; [done|].
    apply list_elem_of_fmap in He as (r & -> & Hr).
    rewrite <- E in Hr. apply removed_key in Hr as [Hr _]. done. }
  apply added_key; [done|]. by apply Hapart.
Qed.

Lemma fireTimeout_fields (h : nat) (s : State) :
  oldChildren (fireTimeout h s) = oldChildren s
  /\ (forall e, e ∈ leavingChildren (fireTimeout h s) ->
        exists e0, e0 ∈ leavingChildren s /\ element e = element e0)
  /\ enteringChildren (fireTimeout h s) ⊆ enteringChildren s
  /\ inactiveChildren (fireTimeout h s) = inactiveChildren s
  /\ (forall h' x, timeouts (fireTimeout h s) !! h' = Some x ->
        timeouts s !! h' = Some x).
Proof.
  unfold fireTimeout. destruct (timeouts s !! h) as [[cb d]|] eqn:E.
  2:{ repeat split; try done. intros e He. by exists e. }
  destruct cb as [k|k].
  - destruct (requestActivation_timers (settleEnteringChild k (takeTimeout h s)))
      as (-> & _ & _ & -> & -> & -> & ->). simpl.
    repeat split; try done.
    + intros e He. by exists e.
    + set_solver.
    + intros h' x Hx. by apply lookup_delete_Some in Hx as [_ ?].
  - destruct (requestActivation_timers
                (setLeavingChildren (removeLeavingChild k) (takeTimeout h s)))
      as (-> & _ & _ & -> & -> & -> & ->). simpl.
    repeat split; try done.
    + intros e He. apply removeLeavingChild_elements in He as (e0 & ? & ? & _).
      by exists e0.
    + intros h' x Hx. by apply lookup_delete_Some in Hx as [_ ?].
Qed.

Lemma fireFrame_fields (h : nat) (s : State) :
  oldChildren (fireFrame h s) = oldChildren s
  /\ leavingChildren (fireFrame h s) = leavingChildren s
  /\ enteringChildren (fireFrame h s) = enteringChildren s
  /\ inactiveChildren (fireFrame h s) ⊆ inactiveChildren s
  /\ timeouts (fireFrame h s) = timeouts s.
Proof.
  unfold fireFrame. destruct (frames s !! h) as [[captured|captured]|]; try done.
  destruct (requestActivation_timers
              (setInactiveChildren (fun cur => cur ∖ captured) (takeFrame h s)))
    as (-> & _ & _ & -> & -> & -> & ->). simpl.
  repeat split; try done. set_solver.
Qed.

(** What a timeout or a frame can do: the current children stay, the
    registry, the entering set and the pending timeouts can only lose
    members. *)
Lemma hostEvent_fields (ev : Event) (s : State) :
  hostEvent ev ->
  oldChildren (step props ev s) = oldChildren s
  /\ (forall e, e ∈ leavingChildren (step props ev s) ->
        exists e0, e0 ∈ leavingChildren s /\ element e = element e0)
  /\ enteringChildren (step props ev s) ⊆ enteringChildren s
  /\ inactiveChildren (step props ev s) ⊆ inactiveChildren s
  /\ (forall h' x, timeouts (step props ev s) !! h' = Some x ->
        timeouts s !! h' = Some x).
Proof.
  destruct ev as [children|h|h]; simpl; [done| |]; intros _.
  - destruct (fireTimeout_fields h s) as (-> & ? & ? & -> & ?). done.
  - destruct (fireFrame_fields h s) as (-> & -> & -> & ? & ->).
    repeat split; try done. intros e He. by exists e.
Qed.

Lemma hostEvents_fields (evs : list Event) (s : State) :
  Forall hostEvent evs ->
  oldChildren (run props evs s) = oldChildren s
  /\ (forall e, e ∈ leavingChildren (run props evs s) ->
        exists e0, e0 ∈ leavingChildren s /\ element e = element e0)
  /\ enteringChildren (run props evs s) ⊆ enteringChildren s
  /\ inactiveChildren (run props evs s) ⊆ inactiveChildren s
  /\ (forall h' x, timeouts (run props evs s) !! h' = Some x ->
        timeouts s !! h' = Some x).
Proof.
  intros Hall. revert s. induction Hall as [|ev evs Hev _ IH]; intros s; simpl.
  - repeat split; try done. intros e He. by exists e.
  - destruct (IH (step props ev s)) as (-> & Hl & He & Hi & Ht).
    destruct (hostEvent_fields ev s Hev) as (-> & Hl' & He' & Hi' & Ht').
    split; [done|]. split; [|split; [|split]].
    + intros e Hin. destruct (Hl e Hin) as (e1 & H1 & ->).
      destruct (Hl' e1 H1) as (e0 & H0 & ->). by exists e0.
    + set_solver.
    + set_solver.
    + intros h' x Hx. by apply Ht', Ht.
Qed.

Lemma step_apart (ev : Event) (s : State) :
  registryApart s -> registryApart (step props ev s).
Proof.
  destruct ev as [children|h|h]; [apply update_apart| |].
  - intros Hapart e He.
    destruct (hostEvent_fields (TimeoutFires h) s I) as (Ho & Hl & _).
    rewrite Ho. destruct (Hl e He) as (e0 & H0 & ->). by apply Hapart.
  - intros Hapart e He.
    destruct (hostEvent_fields (FrameFires h) s I) as (Ho & Hl & _).
    rewrite Ho. destruct (Hl e He) as (e0 & H0 & ->). by apply Hapart.
Qed.

Lemma clearAllTimeoutsEffect_fields (s : State) :
  leavingChildren (clearAllTimeoutsEffect s) = leavingChildren s
  /\ oldChildren (clearAllTimeoutsEffect s) = oldChildren s
  /\ enteringChildren (clearAllTimeoutsEffect s) = enteringChildren s
  /\ inactiveChildren (clearAllTimeoutsEffect s) = inactiveChildren s.
Proof.
  unfold clearAllTimeoutsEffect.
  set (P := fun s' => leavingChildren s' = leavingChildren s
                      /\ oldChildren s' = oldChildren s
                      /\ enteringChildren s' = enteringChildren s
                      /\ inactiveChildren s' = inactiveChildren s).
  apply (fold_left_preserves P); [by intros a x Ha|].
  apply (fold_left_preserves P); [by intros a x Ha|done].
Qed.

(** A freshly mounted instance: the children as they are, nothing
    leaving, entering or inactive. *)
Lemma mount_fields (children : ChildrenProp) :
  leavingChildren (mount props children) = []
  /\ oldChildren (mount props children) = items_of (toArray children)
  /\ enteringChildren (mount props children) = ∅
  /\ inactiveChildren (mount props children) = ∅.
Proof.
  unfold mount. cbv zeta. set (arrayChildren := items_of (toArray children)).
  assert (Hinit : requestActivation (initialState arrayChildren)
                  = initialState arrayChildren) by done.
  rewrite !Hinit.
  change (oldChildren (initialState arrayChildren)) with arrayChildren.
  rewrite elementDiff_self_items.
  destruct (requestActivation_timers
              (setOldChildren arrayChildren
                 (addedEffect props []
                    (clearAllTimeoutsEffect
                       (removedEffect props arrayChildren
                          (initialState arrayChildren))))))
    as (_ & _ & _ & -> & -> & -> & ->).
  simpl.
  destruct (clearAllTimeoutsEffect_fields
              (removedEffect props arrayChildren (initialState arrayChildren)))
    as (-> & _ & -> & ->).
  destruct (removedEffect_fields props arrayChildren (initialState arrayChildren))
    as (-> & _ & -> & ->).
  simpl. rewrite elementDiff_self_items. unfold keysOf. simpl.
  by rewrite union_empty_l_L.
Qed.

Lemma reachable_apart (s : State) : reachable props s -> registryApart s.
Proof.
  induction 1 as [children|s ev _ IH]; [|by apply step_apart].
  intros e He. destruct (mount_fields children) as (Hl & _).
  rewrite Hl in He. by apply elem_of_nil in He.
Qed.
End EngineApart.

(** ** A leaving key that comes back *)

Lemma fold_left_reaches {A B} (Q P : A -> Prop) (good : B -> Prop)
    (f : A -> B -> A) (l : list B) (a : A) :
  (forall a x, Q a -> Q (f a x)) ->
  (forall a x, Q a -> good x -> P (f a x)) ->
  (forall a x, Q a -> P a -> P (f a x)) ->
  Q a -> (exists x, x ∈ l /\ good x) -> P (fold_left f l a).
Proof.
  intros HQ Hgood HP. revert a.
  induction l as [|y l IH]; intros a Ha (x & Hx & Hg).
  - by apply elem_of_nil in Hx.
  - simpl. apply elem_of_cons in Hx as [->|Hx].
    + assert (Hstay : forall l' a', Q a' -> P a' -> P (fold_left f l' a')).
      { clear -HQ HP. induction l' as [|z l' IH']; intros a' Hq Hp; simpl; [done|].
        apply IH'; [by apply HQ|by apply HP]. }
      apply Hstay; [by apply HQ|by apply Hgood].
    + apply IH; [by apply HQ|]. by exists x.
Qed.

Section Reinstate.
Variable props : ITransitionGroupProps.

(** After the effect on the added children a settle timer is pending
    for each of their keys. *)
Lemma addedEffect_settle_pending (addedChildren : list IElementWithIndex)
    (s : State) (k : Key) :
  timersWf s -> k ∈ keysOf addedChildren ->
  exists h, timeouts (addedEffect props addedChildren s) !! h
            = Some (SettleEnteringChild k, transitionEnterTimeout props).
Proof.
  intros Hwf Hk. apply keysOf_spec in Hk as (x & Hx & Hkx).
  unfold addedEffect. destruct addedChildren as [|r added] eqn:E.
  { by apply elem_of_nil in Hx. }
  rewrite <- E in *. simpl.
  apply (fold_left_reaches timersWf
           (fun s' => exists h, timeouts s' !! h
                        = Some (SettleEnteringChild k, transitionEnterTimeout props))
           (fun e => key (element e) = k)).
  - intros a y Ha. rewrite scheduleSettleEnteringChild_shape.
    by apply scheduleTimeout_wf.
  - intros a y Ha <-. rewrite scheduleSettleEnteringChild_shape.
    eexists. rewrite scheduleTimeout_lookup. by rewrite decide_True.
  - intros a y Ha [h Hh]. rewrite scheduleSettleEnteringChild_shape.
    destruct (decide (key (element y) = k)) as [<-|Hne].
    + eexists. rewrite scheduleTimeout_lookup. by rewrite decide_True.
    + exists h. apply scheduleTimeout_keeps_other; [done|done|].
      simpl. congruence.
  - done.
  - by exists x.
Qed.

Lemma update_settle_pending (children : ChildrenProp) (s : State) (k : Key) :
  timersWf s ->
  k ∈ keysOf (items_of (elementDiff (items_of (toArray children)) (oldChildren s))) ->
  exists h, timeouts (update props children s) !! h
            = Some (SettleEnteringChild k, transitionEnterTimeout props).
Proof.
  intros Hwf Hk. unfold update.
  destruct (requestActivation_timers
              (setOldChildren (items_of (toArray children))
                 (addedEffect props
                    (items_of (elementDiff (items_of (toArray children))
                                 (oldChildren (requestActivation s))))
                    (removedEffect props (items_of (toArray children))
                       (requestActivation s)))))
    as (-> & _).
  simpl. destruct (requestActivation_timers s) as (_ & _ & _ & _ & -> & _).
  apply addedEffect_settle_pending; [|done].
  by apply removedEffect_wf, requestActivation_wf.
Qed.

(** The update that brings a leaving key back, and the time until the
    next children arrive. In a reachable state, when a key of the leaving
    registry reappears among the children, the update takes it out of the
    registry, leaves no remove timer pending for it and a settle timer
    pending instead, and makes it entering and inactive, so that it is
    rendered with the class ["<name>-enter"] (and the render returns it
    in a slot whenever the registry fits); and as long as only
    timeouts and frames follow, it stays out of the registry, no remove
    timer is pending for it, it stays among the current children, and
    no slot of an output is a leaving rendering of it. *)
Lemma reinstated_key_is_fresh_at_update (s : State) (children : ChildrenProp) (k : Key)
    (evs : list Event) :
  reachable props s ->
  k ∈ keysOf (leavingChildren s) ->
  k ∈ keySet (items_of (toArray children)) ->
  Forall hostEvent evs ->
  let s' := update props children s in
  let s'' := run props evs s' in
  (k ∉ keysOf (leavingChildren s'))
  /\ (forall h d, timeouts s' !! h <> Some (RemoveLeavingChild k, d))
  /\ (exists h, timeouts s' !! h
                = Some (SettleEnteringChild k, transitionEnterTimeout props))
  /\ k ∈ enteringChildren s' /\ k ∈ inactiveChildren s'
  /\ (forall c, c ∈ oldChildren s' -> key c = k ->
        renderChild (transitionName props) (wrapWith props)
                    (enteringChildren s') (inactiveChildren s') c
        = cloneWithClassName c (transitionName props +:+ "-enter") (wrapWith props))
  /\ (registryFits (length (oldChildren s') + length (leavingChildren s'))
                    (leavingChildren s') ->
      exists out,
        output props s' = Some out
        /\ forall c, c ∈ oldChildren s' -> key c = k ->
             exists i, out !! i
                       = Some (Some (cloneWithClassName c
                                       (transitionName props +:+ "-enter")
                                       (wrapWith props))))
  /\ (k ∉ keysOf (leavingChildren s''))
  /\ (forall h d, timeouts s'' !! h <> Some (RemoveLeavingChild k, d))
  /\ k ∈ keySet (oldChildren s'')
  /\ (forall out i r,
        output props s'' = Some out -> out !! i = Some (Some r) ->
        (exists e, e ∈ leavingChildren s'' /\ key (element e) <> k
                   /\ r = renderLeaving (transitionName props) (wrapWith props)
                                        (inactiveChildren s'') e)
        \/ (exists c, c ∈ oldChildren s''
                      /\ r = renderChild (transitionName props) (wrapWith props)
                                         (enteringChildren s'')
                                         (inactiveChildren s'') c)).
Proof.
  intros Hreach Hleaving Hback Hhost s' s''.
  pose proof (reachable_wf props s Hreach) as Hwf.
  pose proof (reachable_apart props s Hreach) as Hapart.
  assert (Hnotold : k ∉ keySet (oldChildren s)).
  { apply keysOf_spec in Hleaving as (e & He & <-). by apply Hapart. }
  pose proof (added_key _ _ _ Hback Hnotold) as Hadded.
  destruct (update_fields props children s) as (Hl & Ho & He & Hi).
  fold s' in Hl, Ho, He, Hi.
  assert (Hout' : k ∉ keysOf (leavingChildren s')).
  { rewrite Hl. intros Hin. apply keysOf_spec in Hin as (e & Hin & <-).
    by apply dropAdded_spec in Hin as [_ ?]. }
  destruct (update_settle_pending children s k Hwf Hadded) as [h Hh].
  fold s' in Hh.
  pose proof (update_wf props children s Hwf) as Hwf'. fold s' in Hwf'.
  assert (Hnoremove : forall h0 d, timeouts s' !! h0 <> Some (RemoveLeavingChild k, d)).
  { intros h0 d H0.
    destruct (timersWf_onePendingPerKey s' Hwf' _ _ _ _ _ _ Hh H0 eq_refl)
      as (_ & ? & _). done. }
  destruct (hostEvents_fields props evs s' Hhost) as (Ho2 & Hl2 & _ & _ & Ht2).
  fold s'' in Ho2, Hl2, Ht2.
  assert (Hout'' : k ∉ keysOf (leavingChildren s'')).
  { intros Hin. apply keysOf_spec in Hin as (e & Hin & Hk).
    destruct (Hl2 e Hin) as (e0 & H0 & Heq). apply Hout'.
    apply keysOf_spec. exists e0. split; [done|]. by rewrite <- Heq. }
  split; [done|]. split; [done|]. split; [by exists h|].
  split; [rewrite He; set_solver|]. split; [rewrite Hi; set_solver|].
  assert (Hclass : forall c, c ∈ oldChildren s' -> key c = k ->
            renderChild (transitionName props) (wrapWith props)
                        (enteringChildren s') (inactiveChildren s') c
            = cloneWithClassName c (transitionName props +:+ "-enter")
                                 (wrapWith props)).
  { intros c Hc Hkc. unfold renderChild.
    rewrite !bool_decide_eq_true_2; [done| |].
    + rewrite Hi, Hkc. set_solver.
    + rewrite He, Hkc. set_solver. }
  split; [done|]. split; [|split; [done|split; [|split]]].
  - intros Hfits.
    destruct (childrenToRender_children_rendered
                (transitionName props) (wrapWith props) (oldChildren s')
                (enteringChildren s') (inactiveChildren s') (leavingChildren s') Hfits)
      as (out & Hout & Hall).
    exists out. split; [done|]. intros c Hc Hkc.
    destruct (Hall c Hc) as [j Hj]. exists j. by rewrite <- (Hclass c Hc Hkc).
  - intros h0 d H0. apply Ht2 in H0. by eapply Hnoremove.
  - by rewrite Ho2, Ho.
  - intros out i r Hout Hi'.
    destruct (childrenToRender_slots _ _ _ _ _ _ _ _ _ Hout Hi')
      as [(e & Hin & ->)|?]; [|by right].
    left. exists e. split; [done|]. split; [|done].
    intros Hk. apply Hout''. apply keysOf_spec. by exists e.
Qed.
End Reinstate.


(** ** Reinstating does not compact *)

Lemma added_keys_new (arrayChildren old : list ReactElement) (k : Key) :
  k ∈ keysOf (items_of (elementDiff arrayChildren old)) -> k ∈ keySet arrayChildren.
Proof.
  intros Hk. apply keysOf_spec in Hk as ([c i] & Hin & <-).
  apply elem_of_elementDiff in Hin as (_ & Hl & _).
  apply keySet_spec, list_elem_of_fmap. exists c. split; [done|].
  by eapply list_elem_of_lookup_2.
Qed.

(** C10. Taking reinstated keys out of the registry is a plain filter: an
    entry stays, with the merged index it had, exactly when its key is not
    among the added keys, and the entries that stay keep their order; in
    the engine, every entry of the registry whose key is not among the new
    children is in the registry after the update with its merged index
    unchanged. Nothing is lowered, while [removeLeavingChild] lowers the
    indices above the entry it removes. *)
Theorem reinstate_keeps_merged_indices (addedKeys : gset Key)
    (registry : list IElementWithIndex) :
  (forall e, e ∈ dropAdded addedKeys registry
             <-> e ∈ registry /\ key (element e) ∉ addedKeys)
  /\ sublist (dropAdded addedKeys registry) registry
  /\ sublist (map index (dropAdded addedKeys registry)) (map index registry)
  /\ (forall props children s e,
        leavingChildren s = registry ->
        e ∈ registry ->
        key (element e) ∉ keySet (items_of (toArray children)) ->
        e ∈ leavingChildren (update props children s))
  /\ dropAdded {["A"]} [mkIndexed itemA 0; mkIndexed itemB 1; mkIndexed itemC 2]
     = [mkIndexed itemB 1; mkIndexed itemC 2]
  /\ removeLeavingChild "A" [mkIndexed itemA 0; mkIndexed itemB 1; mkIndexed itemC 2]
     = [mkIndexed itemB 0; mkIndexed itemC 1].
Proof.
  split; [intros e; apply dropAdded_spec|].
  split; [apply dropAdded_sublist|].
  split; [apply (fmap_sublist index), dropAdded_sublist|].
  split; [|split; reflexivity].
  intros props children s e Hreg He Hk.
  destruct (update_fields props children s) as (-> & _).
  apply dropAdded_spec. split.
  - rewrite Hreg.
    destruct (items_of (elementDiff (oldChildren s) _)) as [|r removed]; [done|].
    rewrite mergeInRemovedChildren_Permutation. apply elem_of_app. by left.
  - intros Hadded. apply Hk. by eapply added_keys_new.
Qed.

(** ** Teardown *)

(** The effect that is to clear the timeouts runs on mount, when there is
    none to clear. *)
Lemma clearAllTimeoutsEffect_on_mount (arrayChildren : list ReactElement) :
  clearAllTimeoutsEffect (initialState arrayChildren) = initialState arrayChildren.
Proof. reflexivity. Qed.

(** C7 fails on the code. [B] has been removed from [A, B, C]; its remove
    timer and an activation frame are pending. Unmounting cancels
    neither: both are still pending in the window's tables, the registry
    of the instance still holds [B], and when the frame then fires, its
    callback, which touches the window and a ref only, still requests the
    second frame. *)
Lemma unmount_cancels_nothing :
  timeouts leavingB !! 1%nat = Some (RemoveLeavingChild "B", 500)
  /\ frames leavingB !! 1%nat = Some (RequestSecondFrame {["B"]})
  /\ unmount leavingB = leavingB
  /\ timeouts (unmount leavingB) !! 1%nat = Some (RemoveLeavingChild "B", 500)
  /\ frames (unmount leavingB) !! 1%nat = Some (RequestSecondFrame {["B"]})
  /\ leavingChildren (unmount leavingB) = [mkIndexed itemB 1]
  /\ frames (fireFrame 1 (unmount leavingB)) !! 2%nat
     = Some (ActivateChildren {["B"]}).
Proof. repeat split; reflexivity. Qed.

(** ** Construction *)

Lemma fillRest_all_holes (render : ReactElement -> Rendered) (cs : list ReactElement) :
  fillRest render (replicate (length cs) None) cs
  = Some (map (fun c => Some (render c)) cs).
Proof. induction cs as [|c cs IH]; simpl; [done|]. by rewrite IH. Qed.

Lemma childrenToRender_nothing_leaving (name : string) (wrap : option IWrapperElement)
    (children : list ReactElement) (entering inactive : gset Key) :
  childrenToRender name wrap children entering inactive []
  = Some (map (fun c => Some (renderChild name wrap entering inactive c)) children).
Proof.
  unfold childrenToRender. simpl. rewrite Nat.add_0_r.
  rewrite fillGaps_fillRest by (unfold newArray; rewrite length_replicate; lia).
  rewrite !drop_0, take_0. unfold newArray. rewrite fillRest_all_holes.
  done.
Qed.

(** Mounting runs every effect and changes nothing. *)
Lemma mount_initialState (props : ITransitionGroupProps) (children : ChildrenProp) :
  mount props children = initialState (items_of (toArray children)).
Proof.
  unfold mount. cbv zeta. set (arrayChildren := items_of (toArray children)).
  assert (Hinit : requestActivation (initialState arrayChildren)
                  = initialState arrayChildren) by done.
  rewrite !Hinit.
  change (oldChildren (initialState arrayChildren)) with arrayChildren.
  rewrite elementDiff_self_items.
  assert (Hremoved : removedEffect props arrayChildren (initialState arrayChildren)
                     = initialState arrayChildren).
  { unfold removedEffect.
    change (oldChildren (initialState arrayChildren)) with arrayChildren.
    by rewrite elementDiff_self_items. }
  rewrite Hremoved, clearAllTimeoutsEffect_on_mount. done.
Qed.

(** C9 (amended). Constructing an instance checks no duration: whatever
    [transitionEnterTimeout] and [transitionLeaveTimeout] are, positive or
    not, the first render returns every child with the empty class string
    and mounting leaves no timeout pending; the durations are only handed
    on, unchanged, as the delays of the timeouts scheduled later. *)
Theorem construction_checks_no_duration (props : ITransitionGroupProps)
    (children : ChildrenProp) :
  firstRender props children
  = Some (map (fun c => Some (cloneWithClassName c EmptyString (wrapWith props)))
              (items_of (toArray children)))
  /\ timeouts (mount props children) = ∅
  /\ (forall k s,
        timeouts (scheduleSettleEnteringChild props k s) !! nextTimeout s
        = Some (SettleEnteringChild k, transitionEnterTimeout props)
        /\ timeouts (scheduleRemoveLeavingChild props k s) !! nextTimeout s
           = Some (RemoveLeavingChild k, transitionLeaveTimeout props)).
Proof.
  split; [|split].
  - unfold firstRender, output. simpl. apply childrenToRender_nothing_leaving.
  - by rewrite mount_initialState.
  - intros k s.
    rewrite scheduleSettleEnteringChild_shape, scheduleRemoveLeavingChild_shape.
    rewrite !scheduleTimeout_lookup. by rewrite !decide_True.
Qed.

(** C9, as stated, fails: an instance with the durations 0 and -5 is
    constructed, renders its child, and later hands the 0 to
    [window.setTimeout]. *)
Lemma construction_with_non_positive_durations :
  transitionEnterTimeout (mkProps "fade" 0 (-5) None) <= 0
  /\ transitionLeaveTimeout (mkProps "fade" 0 (-5) None) <= 0
  /\ firstRender (mkProps "fade" 0 (-5) None) (childArray [itemA])
     = Some [Some (Cloned (mkElement "A" (Some " ") "a"))]
  /\ timeouts (update (mkProps "fade" 0 (-5) None) (childArray [itemA; itemD])
                 (mount (mkProps "fade" 0 (-5) None) (childArray [itemA])))
       !! 1%nat
     = Some (SettleEnteringChild "D", 0).
Proof. repeat split; (reflexivity || discriminate). Qed.

(** ** Counting the added and the removed children *)

Lemma List_filter_sublist {A} (f : A -> bool) (l : list A) :
  sublist (List.filter f l) l.
Proof.
  induction l as [|x l IH]; simpl; [done|]. destruct (f x); by constructor.
Qed.

Lemma List_filter_split {A} (f : A -> bool) (l : list A) :
  (length (List.filter f l) + length (List.filter (fun x => negb (f x)) l)
   = length l)%nat.
Proof.
  induction l as [|x l IH]; simpl; [done|]. destruct (f x); simpl; lia.
Qed.

Lemma withIndex_length (l : list ReactElement) : length (withIndex l) = length l.
Proof. unfold withIndex. apply length_imap. Qed.

Lemma withIndex_elements (l : list ReactElement) : map element (withIndex l) = l.
Proof.
  unfold withIndex.
  change (element <$> imap (fun i e => mkIndexed e (Z.of_nat i)) l = l).
  rewrite fmap_imap.
  rewrite (imap_ext _ (const id) l) by done.
  by rewrite imap_const, list_fmap_id.
Qed.

Lemma withIndex_keys (l : list ReactElement) :
  map (fun e => key (element e)) (withIndex l) = map key l.
Proof. rewrite <- (withIndex_elements l) at 2. by rewrite map_map. Qed.

Lemma withIndex_range (l : list ReactElement) :
  Forall (fun e => 0 <= index e < Z.of_nat (length l)) (withIndex l).
Proof.
  apply Forall_forall. intros [e i] Hin. apply elem_of_withIndex in Hin as [Hi Hl].
  apply lookup_lt_Some in Hl. simpl. lia.
Qed.

(** The keys of a difference are keys of the compared items, in their
    order. *)
Lemma elementDiff_keys_sublist (comparedItems compareWith : list ReactElement) :
  sublist (map (fun e => key (element e))
               (items_of (elementDiff comparedItems compareWith)))
          (map key comparedItems).
Proof.
  rewrite elementDiff_items, <- withIndex_keys.
  apply (fmap_sublist (fun e => key (element e))), List_filter_sublist.
Qed.

Lemma elementDiff_range (comparedItems compareWith : list ReactElement) :
  Forall (fun e => 0 <= index e < Z.of_nat (length comparedItems))
         (items_of (elementDiff comparedItems compareWith)).
Proof.
  rewrite elementDiff_items. apply Forall_forall. intros e He.
  apply elem_of_List_filter in He as [He _].
  pose proof (withIndex_range comparedItems) as Hall.
  rewrite Forall_forall in Hall. by apply Hall.
Qed.

(** The items that stay: those of one collection whose key is in the
    other. With unique keys there are as many on either side. *)
Lemma kept_count (a b : list ReactElement) :
  NoDup (map key a) -> NoDup (map key b) ->
  length (List.filter (fun ei => bool_decide (key (element ei) ∈ keySet b)) (withIndex a))
  = length (List.filter (fun ei => bool_decide (key (element ei) ∈ keySet a)) (withIndex b)).
Proof.
  intros Ha Hb.
  set (ka := List.filter (fun ei => bool_decide (key (element ei) ∈ keySet b))
                         (withIndex a)).
  set (kb := List.filter (fun ei => bool_decide (key (element ei) ∈ keySet a))
                         (withIndex b)).
  assert (Hperm : map (fun e => key (element e)) ka ≡ₚ map (fun e => key (element e)) kb).
  { apply NoDup_Permutation.
    - eapply sublist_NoDup; [exact Ha|]. rewrite <- withIndex_keys.
      apply (fmap_sublist (fun e => key (element e))), List_filter_sublist.
    - eapply sublist_NoDup; [exact Hb|]. rewrite <- withIndex_keys.
      apply (fmap_sublist (fun e => key (element e))), List_filter_sublist.
    - intros k. unfold ka, kb. split.
      + intros Hk. apply list_elem_of_fmap in Hk as (e & -> & He).
        apply elem_of_List_filter in He as [He Hin].
        apply bool_decide_eq_true in Hin.
        assert (Hka : key (element e) ∈ keySet a).
        { apply keySet_spec. rewrite <- withIndex_keys.
          by apply (list_elem_of_fmap_2 (fun e => key (element e))). }
        apply keySet_spec in Hin. rewrite <- withIndex_keys in Hin.
        apply list_elem_of_fmap in Hin as (e' & Heq & He').
        apply list_elem_of_fmap. exists e'. split; [done|].
        apply elem_of_List_filter. split; [done|].
        apply bool_decide_eq_true. by rewrite <- Heq.
      + intros Hk. apply list_elem_of_fmap in Hk as (e & -> & He).
        apply elem_of_List_filter in He as [He Hin].
        apply bool_decide_eq_true in Hin.
        assert (Hkb : key (element e) ∈ keySet b).
        { apply keySet_spec. rewrite <- withIndex_keys.
          by apply (list_elem_of_fmap_2 (fun e => key (element e))). }
        apply keySet_spec in Hin. rewrite <- withIndex_keys in Hin.
        apply list_elem_of_fmap in Hin as (e' & Heq & He').
        apply list_elem_of_fmap. exists e'. split; [done|].
        apply elem_of_List_filter. split; [done|].
        apply bool_decide_eq_true. by rewrite <- Heq. }
  apply Permutation_length in Hperm. by rewrite !length_map in Hperm.
Qed.

(** With unique keys, the new children are the old ones less the removed
    plus the added. *)
Lemma elementDiff_counts (old new : list ReactElement) :
  NoDup (map key old) -> NoDup (map key new) ->
  (length new + length (items_of (elementDiff old new))
   = length old + length (items_of (elementDiff new old)))%nat.
Proof.
  intros Hold Hnew. rewrite !elementDiff_items.
  pose proof (List_filter_split
                (fun ei => bool_decide (key (element ei) ∈ keySet new))
                (withIndex old)) as H1.
  pose proof (List_filter_split
                (fun ei => bool_decide (key (element ei) ∈ keySet old))
                (withIndex new)) as H2.
  rewrite withIndex_length in H1, H2.
  pose proof (kept_count old new Hold Hnew). lia.
Qed.

(** The entries a unique-key registry loses to the added children are no
    more than the added children. *)
Lemma dropAdded_count (added l : list IElementWithIndex) :
  NoDup (map (fun e => key (element e)) l) ->
  (length l <= length (dropAdded (keysOf added) l) + length added)%nat.
Proof.
  intros Hnd. unfold dropAdded.
  pose proof (List_filter_split
                (fun child => bool_decide (key (element child) ∈ keysOf added)) l) as Hs.
  assert (Hle : (length (List.filter
                           (fun child => bool_decide (key (element child) ∈ keysOf added))
                           l)
                 <= length added)%nat).
  { rewrite <- (length_map (fun e => key (element e))
                           (List.filter _ l)).
    rewrite <- (length_map (fun e => key (element e)) added).
    apply submseteq_length, NoDup_submseteq.
    - eapply sublist_NoDup; [exact Hnd|].
      apply (fmap_sublist (fun e => key (element e))), List_filter_sublist.
    - intros k Hk. apply list_elem_of_fmap in Hk as (e & -> & He).
      apply elem_of_List_filter in He as [_ Hin].
      apply bool_decide_eq_true in Hin. apply keysOf_spec in Hin as (x & Hx & <-).
      by apply (list_elem_of_fmap_2 (fun e => key (element e))). }
  lia.
Qed.

(** ** The engine keeps the registry well formed *)

Lemma key_count (k : Key) (l : list IElementWithIndex) :
  NoDup (map (fun e => key (element e)) l) ->
  (exists e, e ∈ l /\ key (element e) = k) ->
  length (List.filter (fun e => bool_decide (key (element e) = k)) l) = 1%nat.
Proof.
  induction l as [|x l IH]; intros Hnd (e & He & Hk).
  - by apply elem_of_nil in He.
  - simpl in Hnd. apply NoDup_cons in Hnd as [Hfresh Hnd]. simpl.
    destruct (decide (key (element x) = k)) as [Hx|Hx].
    + rewrite bool_decide_eq_true_2 by done. simpl. f_equal.
      destruct (List.filter _ l) as [|y r] eqn:E; [done|].
      assert (Hy : y ∈ List.filter
                     (fun e => bool_decide (key (element e) = k)) l)
        by (rewrite E; left).
      apply elem_of_List_filter in Hy as [Hy Hky].
      apply bool_decide_eq_true in Hky. exfalso. apply Hfresh.
      rewrite Hx, <- Hky. by apply (list_elem_of_fmap_2 (fun e => key (element e))).
    + rewrite bool_decide_eq_false_2 by done.
      apply elem_of_cons in He as [->|He]; [done|].
      apply IH; [done|]. by exists e.
Qed.

Lemma compacted_length (k : Key) (i : Z) (l : list IElementWithIndex) :
  NoDup (map (fun e => key (element e)) l) ->
  (exists e, e ∈ l /\ key (element e) = k) ->
  (length (compacted k i l) + 1 = length l)%nat.
Proof.
  intros Hnd Hex. unfold compacted. rewrite length_map.
  pose proof (List_filter_split (fun e => bool_decide (key (element e) = k)) l).
  pose proof (key_count k l Hnd Hex). lia.
Qed.

Lemma compacted_keys_sublist (k : Key) (i : Z) (l : list IElementWithIndex) :
  sublist (map (fun e => key (element e)) (compacted k i l))
          (map (fun e => key (element e)) l).
Proof.
  unfold compacted. rewrite map_map.
  erewrite map_ext.
  - apply (fmap_sublist (fun e => key (element e))), List_filter_sublist.
  - intros e. unfold shiftAbove. by destruct (decide _).
Qed.

Lemma registryWf_fits (s : State) :
  registryWf s ->
  registryFits (length (oldChildren s) + length (leavingChildren s))
               (leavingChildren s).
Proof.
  intros (Hsorted & Hbound & _). split; [|done].
  by apply StronglySorted_indexLt_NoDup.
Qed.

Section EngineRegistryWf.
Variable props : ITransitionGroupProps.

Lemma update_registryWf (children : ChildrenProp) (s : State) :
  registryWf s -> uniqueKeys children -> registryWf (update props children s).
Proof.
  intros (Hsorted & Hbound & Hkeys & Hold & Hapart) Huniq.
  pose proof (update_apart props children s Hapart) as Hapart'.
  destruct (update_fields props children s) as (Hl & Ho & _).
  unfold uniqueKeys in Huniq.
  set (arr := items_of (toArray children)) in *.
  set (removed := items_of (elementDiff (oldChildren s) arr)) in *.
  set (added := items_of (elementDiff arr (oldChildren s))) in *.
  assert (HL1 : match removed with
                | [] => leavingChildren s
                | _ :: _ => mergeInRemovedChildren removed (leavingChildren s)
                end = mergeInRemovedChildren removed (leavingChildren s)).
  { destruct removed; [by rewrite mergeInRemovedChildren_nil|done]. }
  rewrite HL1 in Hl. clear HL1.
  set (L1 := mergeInRemovedChildren removed (leavingChildren s)) in *.
  assert (HL1sorted : StronglySorted indexLt L1).
  { apply mergeInRemovedChildren_sorted; [done|apply elementDiff_sorted]. }
  assert (HL1bound :
            Forall (fun e => 0 <= index e
                             < Z.of_nat (length (oldChildren s)
                                         + length (leavingChildren s))) L1).
  { apply mergeInRemovedChildren_bound; [done|apply elementDiff_range]. }
  assert (HL1len : length L1 = (length (leavingChildren s) + length removed)%nat).
  { unfold L1. rewrite (mergeInRemovedChildren_Permutation removed (leavingChildren s)).
    by rewrite length_app, length_map. }
  assert (HL1keys : NoDup (map (fun e => key (element e)) L1)).
  { unfold L1. rewrite (mergeInRemovedChildren_Permutation removed (leavingChildren s)).
    rewrite map_app, map_map. simpl. apply NoDup_app. split; [done|]. split.
    - intros k Hk Hk'.
      apply list_elem_of_fmap in Hk as (e & -> & He).
      apply list_elem_of_fmap in Hk' as (r & Heq & Hr).
      apply removed_key in Hr as [_ Hr].
      apply (Hapart e He). apply keySet_spec. rewrite Heq.
      by apply (list_elem_of_fmap_2 key).
    - eapply sublist_NoDup; [exact Hold|]. apply elementDiff_keys_sublist. }
  pose proof (elementDiff_counts (oldChildren s) arr Hold Huniq) as Hcount.
  fold removed added in Hcount.
  pose proof (dropAdded_count added L1 HL1keys) as Hdrop.
  unfold registryWf. rewrite Hl, Ho.
  split; [by apply StronglySorted_List_filter|].
  split; [|split; [|split; [done|done]]].
  - apply Forall_forall. intros e He. apply dropAdded_spec in He as [He _].
    rewrite Forall_forall in HL1bound. specialize (HL1bound e He). lia.
  - eapply sublist_NoDup; [exact HL1keys|].
    apply (fmap_sublist (fun e => key (element e))), dropAdded_sublist.
Qed.

Lemma removeLeavingChild_registryWf (k : Key) (s : State) :
  registryWf s -> registryWf (setLeavingChildren (removeLeavingChild k) s).
Proof.
  intros (Hsorted & Hbound & Hkeys & Hold & Hapart).
  unfold registryWf, registryApart. simpl.
  destruct (List.find (fun e => bool_decide (key (element e) = k))
                      (leavingChildren s)) as [removed|] eqn:Hfind.
  - rewrite (removeLeavingChild_compacted k _ removed Hsorted Hfind).
    pose proof (find_some _ _ Hfind) as [Hin Hk].
    apply list_elem_of_In in Hin. apply bool_decide_eq_true in Hk.
    pose proof (compacted_length k (index removed) (leavingChildren s) Hkeys
                  (ex_intro _ removed (conj Hin Hk))) as Hlen.
    split; [by apply compacted_sorted|]. split; [|split; [|split; [done|]]].
    + replace (Z.of_nat (length (oldChildren s)
                         + length (compacted k (index removed) (leavingChildren s))))
        with (Z.of_nat (length (oldChildren s) + length (leavingChildren s)) - 1)
        by lia.
      by apply compacted_bound.
    + eapply sublist_NoDup; [exact Hkeys|]. apply compacted_keys_sublist.
    + intros e He. unfold compacted in He.
      apply list_elem_of_fmap in He as (x & -> & Hx).
      apply elem_of_List_filter in Hx as [Hx _].
      replace (key (element (shiftAbove (index removed) x))) with (key (element x))
        by (unfold shiftAbove; by destruct (decide _)).
      by apply Hapart.
  - unfold removeLeavingChild.
    rewrite (removeLeavingChild_absent k (leavingChildren s) [] Hfind). done.
Qed.

Lemma requestActivation_registryWf (s : State) :
  registryWf s -> registryWf (requestActivation s).
Proof. unfold requestActivation. by destruct (decide _). Qed.

Lemma step_registryWf (ev : Event) (s : State) :
  registryWf s -> eventUnique ev -> registryWf (step props ev s).
Proof.
  intros Hwf Hev. destruct ev as [children|h|h]; simpl.
  - by apply update_registryWf.
  - unfold fireTimeout. destruct (timeouts s !! h) as [[[k|k] d]|]; [| |done].
    + by apply requestActivation_registryWf.
    + apply requestActivation_registryWf.
      by apply (removeLeavingChild_registryWf k (takeTimeout h s)).
  - unfold fireFrame. destruct (frames s !! h) as [[captured|captured]|]; [done| |done].
    by apply requestActivation_registryWf.
Qed.

(** The registry of every state reached under the caller's contract is
    well formed. *)
Lemma reachableUnique_registryWf (s : State) :
  reachableUnique props s -> registryWf s.
Proof.
  induction 1 as [children Huniq|s ev _ IH Hev]; [|by apply step_registryWf].
  rewrite mount_initialState. unfold registryWf. simpl.
  split; [constructor|]. split; [constructor|]. split; [constructor|].
  split; [exact Huniq|]. intros e He. by apply elem_of_nil in He.
Qed.

(** Hence every render of such a state returns, with one slot for every
    current and every leaving child. *)
Lemma reachableUnique_output (s : State) :
  reachableUnique props s ->
  exists out,
    output props s = Some out
    /\ length out = (length (oldChildren s) + length (leavingChildren s))%nat.
Proof.
  intros Hreach.
  pose proof (registryWf_fits s (reachableUnique_registryWf s Hreach)) as Hfits.
  destruct (childrenToRender_layout (transitionName props) (wrapWith props)
              (oldChildren s) (enteringChildren s) (inactiveChildren s)
              (leavingChildren s) Hfits) as (out & Hout & Hlen & _).
  by exists out.
Qed.
End EngineRegistryWf.

(** ** The first variant's scheduler *)

(** The first variant keeps one leave timer per key by a guard: a second
    [setItemToLeave] leaves the pending timeout in place. *)
Lemma setItemToLeave_wf (k : Key) (t : LeaveTimers) :
  leaveTimersWf t -> leaveTimersWf (setItemToLeave k t).
Proof.
  intros [Hlive Hrange]. unfold setItemToLeave.
  destruct (leaveTimeouts t !! k) as [h|] eqn:Hk; [done|].
  split; simpl.
  - intros h k' Hh. apply lookup_insert_Some in Hh as [[<- <-]|[Hne Hh]].
    + apply lookup_insert_eq.
    + rewrite lookup_insert_ne; [by apply Hlive|].
      intros <-. apply Hlive in Hh. congruence.
  - intros k' h Hk'. apply lookup_insert_Some in Hk' as [[_ <-]|[_ Hk']]; [lia|].
    apply Hrange in Hk'. lia.
Qed.

Lemma cancelLeavingItem_wf (k : Key) (t : LeaveTimers) :
  leaveTimersWf t -> leaveTimersWf (cancelLeavingItem k t).
Proof.
  intros [Hlive Hrange]. unfold cancelLeavingItem.
  destruct (leaveTimeouts t !! k) as [h|] eqn:Hk; [|done].
  split; simpl.
  - intros h' k' Hh. apply lookup_delete_Some in Hh as [Hne Hh].
    rewrite lookup_delete_ne; [by apply Hlive|].
    intros <-. apply Hlive in Hh. congruence.
  - intros k' h' Hk'. apply lookup_delete_Some in Hk' as [_ Hk']. by eapply Hrange.
Qed.

Lemma setItemToLeave_while_pending (k : Key) (t : LeaveTimers) (h : nat) :
  leaveTimeouts t !! k = Some h -> setItemToLeave k t = t.
Proof. intros Hk. unfold setItemToLeave. by rewrite Hk. Qed.

(** ** Outside the caller's contract *)

(** With two children of one key the engine reaches a registry that does
    not fit, and the render throws: [A, A, B] are mounted, all are taken
    away, the remove timer of [A] fires. *)
Lemma duplicate_keys_break_the_registry :
  let s := run sampleProps [NewChildren (childArray []); TimeoutFires 2%nat]
               (mount sampleProps (childArray [itemA; itemA'; itemB])) in
  leavingChildren s = [mkIndexed itemB 1]
  /\ oldChildren s = []
  /\ output sampleProps s = None.
Proof. repeat split; reflexivity. Qed.

(** * Further properties of the code *)

(** ** Rendering *)

(** X1. [childrenToRender] returns exactly when the merged indices of the
    leaving children are pairwise distinct and lie in [0, total); for any
    other registry it throws. *)
Theorem childrenToRender_returns_iff_fits (name : string)
    (wrap : option IWrapperElement) (children : list ReactElement)
    (entering inactive : gset Key) (leavingChildren : list IElementWithIndex) :
  (exists out,
      childrenToRender name wrap children entering inactive leavingChildren = Some out)
  <-> registryFits (length children + length leavingChildren) leavingChildren.
Proof.
  split.
  - intros [out Hout]. by eapply childrenToRender_returns_only_if_fits.
  - intros Hfits.
    destruct (childrenToRender_layout name wrap children entering inactive
                leavingChildren Hfits) as (out & Hout & _).
    by exists out.
Qed.

Lemma omap_id_Some {A} (l : list A) : omap id (Some <$> l) = l.
Proof. induction l as [|x l IH]; [done|]. simpl. f_equal. exact IH. Qed.

Lemma omap_fmap_Some {A B} (g : A -> B) (l : list A) :
  omap id ((fun x => Some (g x)) <$> l) = g <$> l.
Proof. induction l as [|x l IH]; [done|]. simpl. f_equal. exact IH. Qed.

Lemma lookup_all_slots {A} (l : list A) :
  (fun i => l !! i) <$> seq 0 (length l) = Some <$> l.
Proof.
  apply list_eq. intros i. rewrite !list_lookup_fmap.
  destruct (decide (i < length l)%nat) as [Hlt|Hge].
  - rewrite lookup_seq_lt by done. simpl.
    destruct (lookup_lt_is_Some_2 l i Hlt) as [x Hx]. by rewrite Hx.
  - rewrite lookup_seq_ge by lia. rewrite lookup_ge_None_2 by lia. done.
Qed.

(** The output of a pass over a registry that fits holds the rendered
    current children and the rendered leaving children, each once. *)
Lemma childrenToRender_content (name : string) (wrap : option IWrapperElement)
    (children : list ReactElement) (entering inactive : gset Key)
    (leavingChildren : list IElementWithIndex) (out : JsArray) :
  registryFits (length children + length leavingChildren) leavingChildren ->
  childrenToRender name wrap children entering inactive leavingChildren = Some out ->
  out ≡ₚ ((fun c => Some (renderChild name wrap entering inactive c)) <$> children)
         ++ ((fun e => Some (renderLeaving name wrap inactive e)) <$> leavingChildren).
Proof.
  intros Hfits Hout.
  destruct (childrenToRender_layout name wrap children entering inactive
              leavingChildren Hfits) as (out' & Hout' & Hlen & Hleft & Hfree).
  assert (out' = out) as -> by congruence.
  pose proof (freeSlots_partition _ _ Hfits) as Hpart.
  rewrite <- Hlen in Hpart at 2.
  apply (fmap_Permutation (fun i => out !! i)) in Hpart.
  rewrite lookup_all_slots, fmap_app, Hfree in Hpart.
  apply (omap_Permutation id) in Hpart.
  rewrite omap_id_Some, omap_app in Hpart. rewrite <- Hpart.
  apply Permutation_app.
  - by rewrite omap_fmap_Some.
  - assert (Heq : (fun i => out !! i) <$> (Z.to_nat <$> map index leavingChildren)
                  = (fun e => Some (Some (renderLeaving name wrap inactive e)))
                      <$> leavingChildren).
    { change (map index leavingChildren) with (index <$> leavingChildren).
      rewrite <- !list_fmap_compose.
      apply list_fmap_ext. intros i e He. simpl.
      apply Hleft. by eapply list_elem_of_lookup_2. }
    by rewrite Heq, omap_fmap_Some.
Qed.

Lemma renderedKey_cloneWithClassName (el : ReactElement) (cls : string)
    (wrap : option IWrapperElement) :
  renderedKey (cloneWithClassName el cls wrap) = keyOfRendered wrap (key el).
Proof. by destruct wrap. Qed.

Lemma keyOfRendered_inj (wrap : option IWrapperElement) (k1 k2 : Key) :
  keyOfRendered wrap k1 = keyOfRendered wrap k2 -> k1 = k2.
Proof.
  destruct wrap; simpl; [|congruence]. unfold keyOrUndefined.
  repeat destruct (decide _); congruence.
Qed.

(** X2. In a pass over a registry that fits, the output consists of the
    rendered current children and the rendered leaving children, each
    exactly once: no child is dropped and none is rendered twice. *)
Theorem childrenToRender_renders_each_child_once (name : string)
    (wrap : option IWrapperElement) (children : list ReactElement)
    (entering inactive : gset Key) (leavingChildren : list IElementWithIndex) :
  registryFits (length children + length leavingChildren) leavingChildren ->
  exists out,
    childrenToRender name wrap children entering inactive leavingChildren = Some out
    /\ out ≡ₚ ((fun c => Some (renderChild name wrap entering inactive c)) <$> children)
              ++ ((fun e => Some (renderLeaving name wrap inactive e))
                    <$> leavingChildren).
Proof.
  intros Hfits.
  destruct (childrenToRender_layout name wrap children entering inactive
              leavingChildren Hfits) as (out & Hout & _).
  exists out. split; [done|]. by apply childrenToRender_content.
Qed.

(** The theorem on [A, C] with [B] leaving at index 1. *)
Lemma childrenToRender_renders_each_child_once_witness :
  registryFits 3 [mkIndexed itemB 1]
  /\ exists out,
      childrenToRender "fade" None [itemA; itemC] ∅ ∅ [mkIndexed itemB 1] = Some out
      /\ out ≡ₚ [Some (renderChild "fade" None ∅ ∅ itemA);
                 Some (renderChild "fade" None ∅ ∅ itemC);
                 Some (renderLeaving "fade" None ∅ (mkIndexed itemB 1))].
Proof.
  assert (Hfits : registryFits 3 [mkIndexed itemB 1]).
  { split; [apply NoDup_singleton|]. repeat constructor; simpl; lia. }
  split; [exact Hfits|].
  exact (childrenToRender_renders_each_child_once
           "fade" None [itemA; itemC] ∅ ∅ [mkIndexed itemB 1] Hfits).
Defined.

(** The keys of the slots of an output, for a well-formed registry. *)
Lemma output_slotKeys (props : ITransitionGroupProps) (s : State) (out : JsArray) :
  registryWf s -> output props s = Some out ->
  slotKeys out
  ≡ₚ (fun k => Some (keyOfRendered (wrapWith props) k))
       <$> (map key (oldChildren s)
            ++ map (fun e => key (element e)) (leavingChildren s)).
Proof.
  intros Hwf Hout. unfold slotKeys.
  rewrite (childrenToRender_content _ _ _ _ _ _ _ (registryWf_fits s Hwf) Hout).
  change (map key (oldChildren s)) with (key <$> oldChildren s).
  change (map (fun e => key (element e)) (leavingChildren s))
    with ((fun e => key (element e)) <$> leavingChildren s).
  rewrite !fmap_app. rewrite <- !list_fmap_compose.
  erewrite (list_fmap_ext _ _ (oldChildren s));
    [erewrite (list_fmap_ext _ _ (leavingChildren s)); [reflexivity|]|];
    intros i x _; simpl; unfold renderChild, renderLeaving;
    by rewrite renderedKey_cloneWithClassName.
Qed.

(** X3. When the caller keeps its keys unique, every render returns an
    output whose slots carry pairwise distinct React keys: no current or
    leaving child shares its key with another slot. *)
Theorem rendered_keys_are_unique (props : ITransitionGroupProps) (s : State) :
  reachableUnique props s ->
  exists out, output props s = Some out /\ NoDup (slotKeys out).
Proof.
  intros Hreach.
  pose proof (reachableUnique_registryWf props s Hreach) as Hwf.
  destruct (reachableUnique_output props s Hreach) as (out & Hout & _).
  exists out. split; [done|].
  rewrite (output_slotKeys props s out Hwf Hout).
  destruct Hwf as (_ & _ & Hkeys & Hold & Hapart).
  apply NoDup_fmap_2_strong.
  - intros k1 k2 _ _ [=]. by eapply keyOfRendered_inj.
  - apply NoDup_app. split; [done|]. split; [|done].
    intros k Hk Hk'. apply list_elem_of_fmap in Hk' as (e & -> & He).
    apply (Hapart e He). by apply keySet_spec.
Qed.

Lemma leavingB_reachableUnique : reachableUnique sampleProps leavingB.
Proof.
  apply reachableUnique_step.
  - apply reachableUnique_mount. unfold uniqueKeys. simpl.
    repeat (apply NoDup_cons; split; [set_solver|]). apply NoDup_nil_2.
  - simpl. unfold uniqueKeys. simpl.
    repeat (apply NoDup_cons; split; [set_solver|]). apply NoDup_nil_2.
Defined.

(** The theorem after [B] was taken from [A, B, C]. *)
Lemma rendered_keys_are_unique_witness :
  reachableUnique sampleProps leavingB
  /\ exists out, output sampleProps leavingB = Some out /\ NoDup (slotKeys out).
Proof.
  split; [exact leavingB_reachableUnique|].
  exact (rendered_keys_are_unique sampleProps leavingB leavingB_reachableUnique).
Defined.

(** ** Which timeouts are pending *)

Lemma scheduleTimeout_pending (cb : TimeoutCallback) (delay : Z) (s : State)
    (cb0 : TimeoutCallback) :
  timersWf s ->
  pendingCallback (scheduleTimeout cb delay s) cb0
  <-> cb0 = cb \/ (callbackKey cb0 <> callbackKey cb /\ pendingCallback s cb0).
Proof.
  intros Hwf. split.
  - intros (h & d & Hh).
    destruct (decide (callbackKey cb0 = callbackKey cb)) as [Hk|Hk].
    + left. by destruct (scheduleTimeout_single cb delay s h cb0 d Hwf Hh Hk) as (_ & ? & _).
    + right. split; [done|]. exists h, d.
      rewrite scheduleTimeout_lookup in Hh.
      destruct (decide _) as [<-|Hne]; [by injection Hh as <- <-|].
      pose proof (clearLiveTimeout_wf (callbackKey cb) s Hwf) as (_ & Hlive & Hrange & _).
      destruct (clearLiveTimeout_after (callbackKey cb) s) as [_ Hold].
      apply Hold; [|done].
      apply Hlive, Hrange in Hh.
      destruct (clearLiveTimeout_fields (callbackKey cb) s) as (Hnext & _). lia.
  - intros [->|[Hk (h & d & Hh)]].
    + exists (nextTimeout s), delay. rewrite scheduleTimeout_lookup.
      by rewrite decide_True.
    + exists h, d. by apply scheduleTimeout_keeps_other.
Qed.

(** Scheduling for one element after the other: what is pending in the
    end. *)
Lemma fold_schedule_pending {B} (f : State -> B -> State)
    (cbOf : B -> TimeoutCallback) (l : list B) (s : State) (cb0 : TimeoutCallback) :
  (forall a x, timersWf a -> timersWf (f a x)) ->
  (forall a x c, timersWf a ->
     pendingCallback (f a x) c
     <-> c = cbOf x \/ (callbackKey c <> callbackKey (cbOf x) /\ pendingCallback a c)) ->
  (forall x y, callbackKey (cbOf x) = callbackKey (cbOf y) -> cbOf x = cbOf y) ->
  timersWf s ->
  pendingCallback (fold_left f l s) cb0
  <-> (exists x, x ∈ l /\ cb0 = cbOf x)
      \/ ((forall x, x ∈ l -> callbackKey cb0 <> callbackKey (cbOf x))
          /\ pendingCallback s cb0).
Proof.
  intros Hwf Hstep Hinj. revert s.
  induction l as [|x l IH]; intros s Hs; simpl.
  - split.
    + intros Hp. right. split; [|done]. intros x Hx. by apply elem_of_nil in Hx.
    + intros [(x & Hx & _)|[_ ?]]; [by apply elem_of_nil in Hx|done].
  - rewrite (IH (f s x)) by (by apply Hwf). rewrite (Hstep s x cb0 Hs). split.
    + intros [(y & Hy & ->)|[Hall [->|[Hne Hp]]]].
      * left. exists y. split; [by right|done].
      * left. exists x. split; [left|done].
      * right. split; [|done]. intros y Hy.
        apply elem_of_cons in Hy as [->|Hy]; [done|by apply Hall].
    + intros [(y & Hy & ->)|[Hall Hp]].
      * apply elem_of_cons in Hy as [->|Hy]; [|left; by exists y].
        destruct (decide (Exists (fun z => callbackKey (cbOf z) = callbackKey (cbOf x)) l))
          as [Hex|Hnex].
        -- apply Exists_exists in Hex as (z & Hz & Hkz).
           left. exists z. split; [done|]. symmetry. by apply Hinj.
        -- right. split; [|by left]. intros z Hz Hkz. apply Hnex.
           apply Exists_exists. exists z. split; [done|]. by symmetry.
      * right. split; [intros y Hy; apply Hall; by right|].
        right. split; [|done]. apply Hall. left.
Qed.

Section PendingAfterEffects.
Variable props : ITransitionGroupProps.

Lemma removedEffect_pending (arrayChildren : list ReactElement) (s : State)
    (cb0 : TimeoutCallback) :
  timersWf s ->
  pendingCallback (removedEffect props arrayChildren s) cb0
  <-> (exists r, r ∈ items_of (elementDiff (oldChildren s) arrayChildren)
                 /\ cb0 = RemoveLeavingChild (key (element r)))
      \/ ((forall r, r ∈ items_of (elementDiff (oldChildren s) arrayChildren) ->
             callbackKey cb0 <> key (element r))
          /\ pendingCallback s cb0).
Proof.
  intros Hwf. unfold removedEffect.
  destruct (items_of (elementDiff (oldChildren s) arrayChildren))
    as [|r0 removed] eqn:E.
  - split; [intros Hp; right; split; [|done]|].
    + intros r Hr. by apply elem_of_nil in Hr.
    + intros [(r & Hr & _)|[_ ?]]; [by apply elem_of_nil in Hr|done].
  - change (pendingCallback
              (fold_left (fun s' e => scheduleRemoveLeavingChild props (key (element e)) s')
                         (r0 :: removed) s) cb0
            <-> (exists r, r ∈ r0 :: removed /\ cb0 = RemoveLeavingChild (key (element r)))
                \/ ((forall r, r ∈ r0 :: removed -> callbackKey cb0 <> key (element r))
                    /\ pendingCallback s cb0)).
    apply (fold_schedule_pending
             (fun s' e => scheduleRemoveLeavingChild props (key (element e)) s')
             (fun e => RemoveLeavingChild (key (element e)))); [| | |done].
    + intros a x Ha. rewrite scheduleRemoveLeavingChild_shape.
      by apply scheduleTimeout_wf.
    + intros a x c Ha. rewrite scheduleRemoveLeavingChild_shape.
      by apply scheduleTimeout_pending.
    + intros x y Hk. simpl in Hk. by rewrite Hk.
Qed.

Lemma addedEffect_pending (addedChildren : list IElementWithIndex) (s : State)
    (cb0 : TimeoutCallback) :
  timersWf s ->
  pendingCallback (addedEffect props addedChildren s) cb0
  <-> (exists a, a ∈ addedChildren /\ cb0 = SettleEnteringChild (key (element a)))
      \/ ((forall a, a ∈ addedChildren -> callbackKey cb0 <> key (element a))
          /\ pendingCallback s cb0).
Proof.
  intros Hwf. unfold addedEffect.
  destruct addedChildren as [|a0 added] eqn:E.
  - split; [intros Hp; right; split; [|done]|].
    + intros r Hr. by apply elem_of_nil in Hr.
    + intros [(r & Hr & _)|[_ ?]]; [by apply elem_of_nil in Hr|done].
  - change (pendingCallback
              (fold_left
                 (fun s' e =>
                    scheduleSettleEnteringChild props (key (element e))
                      (setEnteringChildren (fun local => {[key (element e)]} ∪ local) s'))
                 (a0 :: added) s) cb0
            <-> (exists a, a ∈ a0 :: added /\ cb0 = SettleEnteringChild (key (element a)))
                \/ ((forall a, a ∈ a0 :: added -> callbackKey cb0 <> key (element a))
                    /\ pendingCallback s cb0)).
    apply (fold_schedule_pending
             (fun s' e =>
                scheduleSettleEnteringChild props (key (element e))
                  (setEnteringChildren (fun local => {[key (element e)]} ∪ local) s'))
             (fun e => SettleEnteringChild (key (element e)))); [| | |done].
    + intros a x Ha. rewrite scheduleSettleEnteringChild_shape.
      by apply scheduleTimeout_wf.
    + intros a x c Ha. rewrite scheduleSettleEnteringChild_shape.
      by apply (scheduleTimeout_pending _ _
                  (setEnteringChildren (fun local => {[key (element x)]} ∪ local) a)).
    + intros x y Hk. simpl in Hk. by rewrite Hk.
Qed.

(** What is pending after an update: a settle timer for every added key,
    a remove timer for every removed key, and for the other keys what was
    pending before. *)
Lemma update_pending (children : ChildrenProp) (s : State) (cb0 : TimeoutCallback) :
  timersWf s ->
  let arrayChildren := items_of (toArray children) in
  let removedChildren := items_of (elementDiff (oldChildren s) arrayChildren) in
  let addedChildren := items_of (elementDiff arrayChildren (oldChildren s)) in
  pendingCallback (update props children s) cb0
  <-> (exists a, a ∈ addedChildren /\ cb0 = SettleEnteringChild (key (element a)))
      \/ ((forall a, a ∈ addedChildren -> callbackKey cb0 <> key (element a))
          /\ ((exists r, r ∈ removedChildren
                         /\ cb0 = RemoveLeavingChild (key (element r)))
              \/ ((forall r, r ∈ removedChildren -> callbackKey cb0 <> key (element r))
                  /\ pendingCallback s cb0))).
Proof.
  intros Hwf arrayChildren removedChildren addedChildren.
  assert (Hfinal : pendingCallback (update props children s) cb0
                   <-> pendingCallback
                         (addedEffect props addedChildren
                            (removedEffect props arrayChildren (requestActivation s)))
                         cb0).
  { unfold update, pendingCallback.
    destruct (requestActivation_timers
                (setOldChildren (items_of (toArray children))
                   (addedEffect props
                      (items_of (elementDiff (items_of (toArray children))
                                   (oldChildren (requestActivation s))))
                      (removedEffect props (items_of (toArray children))
                         (requestActivation s)))))
      as (-> & _). simpl.
    destruct (requestActivation_timers s) as (_ & _ & _ & _ & -> & _). done. }
  rewrite Hfinal.
  rewrite addedEffect_pending by (by apply removedEffect_wf, requestActivation_wf).
  rewrite removedEffect_pending by (by apply requestActivation_wf).
  destruct (requestActivation_timers s) as (Ht & _ & _ & _ & -> & _).
  assert (Hsame : pendingCallback (requestActivation s) cb0 <-> pendingCallback s cb0)
    by (unfold pendingCallback; by rewrite Ht).
  by rewrite Hsame.
Qed.
End PendingAfterEffects.

(** ** The timers follow the registry *)

Lemma removeLeavingChild_keeps (k : Key) (l : list IElementWithIndex)
    (e0 : IElementWithIndex) :
  e0 ∈ l -> key (element e0) <> k ->
  exists e, e ∈ removeLeavingChild k l /\ element e = element e0.
Proof.
  unfold removeLeavingChild. intros He0 Hk.
  assert (Hgen : forall acc ri,
            (exists e, e ∈ acc /\ element e = element e0) \/ e0 ∈ l ->
            exists e,
              e ∈ fst (fold_left
                         (fun '(remaining, reduceIndex) e =>
                            if decide (key (element e) = k) then (remaining, 1)
                            else (remaining ++
                                    [mkIndexed (element e) (index e - reduceIndex)],
                                  reduceIndex))
                         l (acc, ri))
              /\ element e = element e0).
  { clear He0. induction l as [|x l IH]; intros acc ri Hin; simpl.
    - destruct Hin as [?|Hin]; [done|by apply elem_of_nil in Hin].
    - destruct (decide (key (element x) = k)) as [Hx|Hx].
      + apply IH. destruct Hin as [?|Hin]; [by left|].
        apply elem_of_cons in Hin as [->|Hin]; [done|by right].
      + apply IH. destruct Hin as [(e & He & Heq)|Hin].
        * left. exists e. split; [|done]. apply elem_of_app. by left.
        * apply elem_of_cons in Hin as [->|Hin]; [|by right].
          left. eexists. split; [apply elem_of_app; right; left|done]. }
  apply (Hgen [] 0). by right.
Qed.

Lemma keysOf_removeLeavingChild (k k' : Key) (l : list IElementWithIndex) :
  k' ∈ keysOf (removeLeavingChild k l) <-> k' <> k /\ k' ∈ keysOf l.
Proof.
  rewrite !keysOf_spec. split.
  - intros (e & He & <-). apply removeLeavingChild_elements in He as (e0 & He0 & -> & Hk).
    split; [done|]. by exists e0.
  - intros [Hne (e0 & He0 & <-)].
    destruct (removeLeavingChild_keeps k l e0 He0 Hne) as (e & He & Heq).
    exists e. split; [done|]. by rewrite Heq.
Qed.

Lemma keysOf_mergeInRemovedChildren (removed l : list IElementWithIndex) (k : Key) :
  k ∈ keysOf (mergeInRemovedChildren removed l) <-> k ∈ keysOf l \/ k ∈ keysOf removed.
Proof.
  rewrite !keysOf_spec. split.
  - intros (e & He & <-). rewrite mergeInRemovedChildren_Permutation in He.
    apply elem_of_app in He as [He|He]; [left; by exists e|].
    apply list_elem_of_fmap in He as (r & -> & Hr). right. by exists r.
  - intros [(e & He & <-)|(r & Hr & <-)].
    + exists e. split; [|done]. rewrite mergeInRemovedChildren_Permutation.
      apply elem_of_app. by left.
    + exists (mkIndexed (element r) (mergedIndex l (index r))). split; [|done].
      rewrite mergeInRemovedChildren_Permutation. apply elem_of_app. right.
      by apply (list_elem_of_fmap_2
                  (fun r => mkIndexed (element r) (mergedIndex l (index r)))).
Qed.

Section TimersMatch.
Variable props : ITransitionGroupProps.

(** The keys of the registry after an update. *)
Lemma update_leaving_keys (children : ChildrenProp) (s : State) (k : Key) :
  let arrayChildren := items_of (toArray children) in
  k ∈ keysOf (leavingChildren (update props children s))
  <-> k ∉ keysOf (items_of (elementDiff arrayChildren (oldChildren s)))
      /\ (k ∈ keysOf (leavingChildren s)
          \/ k ∈ keysOf (items_of (elementDiff (oldChildren s) arrayChildren))).
Proof.
  intros arrayChildren.
  destruct (update_fields props children s) as (-> & _).
  fold arrayChildren.
  assert (Hdrop : forall L, k ∈ keysOf (dropAdded
                     (keysOf (items_of (elementDiff arrayChildren (oldChildren s)))) L)
                  <-> k ∉ keysOf (items_of (elementDiff arrayChildren (oldChildren s)))
                      /\ k ∈ keysOf L).
  { intros L. rewrite (keysOf_spec (dropAdded _ _)), (keysOf_spec L). split.
    - intros (e & He & <-). apply dropAdded_spec in He as [He Hnot].
      split; [done|]. by exists e.
    - intros [Hnot (e & He & <-)]. exists e. split; [|done].
      by apply dropAdded_spec. }
  rewrite Hdrop.
  destruct (items_of (elementDiff (oldChildren s) arrayChildren)) as [|r removed] eqn:E.
  - split; [intros [? ?]; split; [done|by left]|].
    intros [? [?|Hk]]; [done|]. apply keysOf_spec in Hk as (e & He & _).
    by apply elem_of_nil in He.
  - by rewrite keysOf_mergeInRemovedChildren.
Qed.

Lemma fireTimeout_pending (h : nat) (s : State) (cb : TimeoutCallback) (d : Z)
    (cb0 : TimeoutCallback) :
  timersWf s -> timeouts s !! h = Some (cb, d) ->
  pendingCallback (fireTimeout h s) cb0 <-> cb0 <> cb /\ pendingCallback s cb0.
Proof.
  intros Hwf Hh.
  assert (Ht : timeouts (fireTimeout h s) = delete h (timeouts s)).
  { unfold fireTimeout. rewrite Hh.
    destruct cb as [k|k].
    - by destruct (requestActivation_timers (settleEnteringChild k (takeTimeout h s)))
        as (-> & _).
    - by destruct (requestActivation_timers
                     (setLeavingChildren (removeLeavingChild k) (takeTimeout h s)))
        as (-> & _). }
  unfold pendingCallback. rewrite Ht. split.
  - intros (h' & d' & Hh'). apply lookup_delete_Some in Hh' as [Hne Hh'].
    split; [|by exists h', d']. intros ->.
    by destruct (timersWf_onePendingPerKey s Hwf _ _ _ _ _ _ Hh Hh' eq_refl) as (? & _).
  - intros [Hne (h' & d' & Hh')]. exists h', d'.
    apply lookup_delete_Some. split; [|done]. intros <-. congruence.
Qed.

Lemma scheduleTimeout_delaysOk (cb : TimeoutCallback) (s : State) :
  delaysOk props s -> delaysOk props (scheduleTimeout cb (delayOf props cb) s).
Proof.
  intros Hs h cb' d' Hh. rewrite scheduleTimeout_lookup in Hh.
  destruct (decide _); [by injection Hh as <- <-|].
  unfold clearLiveTimeout in Hh.
  destruct (liveTimeouts s !! callbackKey cb); [|by eapply Hs].
  destruct (decide _); [by eapply Hs|]. simpl in Hh.
  apply lookup_delete_Some in Hh as [_ Hh]. by eapply Hs.
Qed.

Lemma requestActivation_delaysOk (s : State) :
  delaysOk props s -> delaysOk props (requestActivation s).
Proof.
  unfold delaysOk. by destruct (requestActivation_timers s) as (-> & _).
Qed.

Lemma removedEffect_delaysOk (arrayChildren : list ReactElement) (s : State) :
  delaysOk props s -> delaysOk props (removedEffect props arrayChildren s).
Proof.
  intros Hs. unfold removedEffect.
  destruct (items_of _) as [|r removed]; [done|].
  change (delaysOk props
            (fold_left (fun s' e => scheduleRemoveLeavingChild props (key (element e)) s')
                       (r :: removed) s)).
  apply fold_left_preserves; [|done].
  intros a x Ha. rewrite scheduleRemoveLeavingChild_shape.
  by apply (scheduleTimeout_delaysOk (RemoveLeavingChild (key (element x)))).
Qed.

Lemma addedEffect_delaysOk (addedChildren : list IElementWithIndex) (s : State) :
  delaysOk props s -> delaysOk props (addedEffect props addedChildren s).
Proof.
  intros Hs. unfold addedEffect.
  destruct addedChildren as [|r added]; [done|].
  change (delaysOk props
            (fold_left
               (fun s' e =>
                  scheduleSettleEnteringChild props (key (element e))
                    (setEnteringChildren (fun local => {[key (element e)]} ∪ local) s'))
               (r :: added) s)).
  apply fold_left_preserves; [|done].
  intros a x Ha. rewrite scheduleSettleEnteringChild_shape.
  by apply (scheduleTimeout_delaysOk (SettleEnteringChild (key (element x)))
              (setEnteringChildren (fun local => {[key (element x)]} ∪ local) a)).
Qed.

Lemma update_delaysOk (children : ChildrenProp) (s : State) :
  delaysOk props s -> delaysOk props (update props children s).
Proof.
  intros Hs. unfold update.
  apply requestActivation_delaysOk.
  change (delaysOk props
            (addedEffect props
               (items_of (elementDiff (items_of (toArray children))
                            (oldChildren (requestActivation s))))
               (removedEffect props (items_of (toArray children))
                  (requestActivation s)))).
  by apply addedEffect_delaysOk, removedEffect_delaysOk, requestActivation_delaysOk.
Qed.

Lemma update_timersMatch (children : ChildrenProp) (s : State) :
  timersWf s -> timersMatch props s -> timersMatch props (update props children s).
Proof.
  intros Hwf (Hrem & Hset & Hdelay).
  set (arrayChildren := items_of (toArray children)).
  set (removed := items_of (elementDiff (oldChildren s) arrayChildren)).
  set (added := items_of (elementDiff arrayChildren (oldChildren s))).
  destruct (update_fields props children s) as (_ & Ho & He & _).
  fold arrayChildren added in Ho, He.
  split; [|split].
  - intros k. rewrite (update_pending props children s _ Hwf).
    rewrite (update_leaving_keys children s k).
    fold arrayChildren removed added. rewrite <- Hrem. rewrite !keysOf_spec. split.
    + intros [(a & _ & [=])|[Hna [(r & Hr & [= ->])|[Hnr Hp]]]].
      * split; [|right; by exists r]. intros (a & Ha & Hk). by apply (Hna a Ha).
      * split; [|by left]. intros (a & Ha & Hk). by apply (Hna a Ha).
    + intros [Hna [Hp|(r & Hr & <-)]].
      * right. split; [intros a Ha Hk; apply Hna; by exists a|].
        destruct (decide (Exists (fun r => key (element r) = k) removed)) as [Hex|Hnex].
        -- apply Exists_exists in Hex as (r & Hr & <-). left. by exists r.
        -- right. split; [|done]. intros r Hr Hk. apply Hnex.
           apply Exists_exists. by exists r.
      * right. split; [intros a Ha Hk; apply Hna; by exists a|].
        left. by exists r.
  - intros k Hp. apply (update_pending props children s _ Hwf) in Hp.
    fold arrayChildren removed added in Hp. rewrite Ho, He.
    destruct Hp as [(a & Ha & [= ->])|[Hna [(r & _ & [=])|[Hnr Hp]]]].
    + assert (key (element a) ∈ keysOf added) by (apply keysOf_spec; by exists a).
      split; [set_solver|]. by eapply added_keys_new.
    + destruct (Hset k Hp) as [Hent Hold]. split; [set_solver|].
      destruct (decide (k ∈ keySet arrayChildren)) as [?|Hnot]; [done|].
      exfalso. pose proof (added_key _ _ _ Hold Hnot) as Hk.
      apply keysOf_spec in Hk as (r & Hr & Hkr). by apply (Hnr r Hr).
  - by apply update_delaysOk.
Qed.

Lemma fireTimeout_timersMatch (h : nat) (s : State) :
  timersWf s -> timersMatch props s -> timersMatch props (fireTimeout h s).
Proof.
  intros Hwf (Hrem & Hset & Hdelay).
  destruct (timeouts s !! h) as [[cb d]|] eqn:Hh.
  2:{ unfold fireTimeout. rewrite Hh. by split. }
  destruct (fireTimeout_fields h s) as (Ho & _ & _ & _ & Ht).
  split; [|split].
  - intros k. rewrite (fireTimeout_pending h s cb d _ Hwf Hh), Hrem.
    unfold fireTimeout. rewrite Hh. destruct cb as [k0|k0].
    + destruct (requestActivation_timers (settleEnteringChild k0 (takeTimeout h s)))
        as (_ & _ & _ & -> & _). simpl. split; [by intros [_ ?]|]. by split.
    + destruct (requestActivation_timers
                  (setLeavingChildren (removeLeavingChild k0) (takeTimeout h s)))
        as (_ & _ & _ & -> & _). simpl.
      rewrite keysOf_removeLeavingChild. split.
      * intros [Hne ?]. split; [|done]. congruence.
      * intros [Hne ?]. split; [|done]. congruence.
  - intros k Hp. apply (fireTimeout_pending h s cb d _ Hwf Hh) in Hp as [Hne Hp].
    destruct (Hset k Hp) as [Hent Hold]. rewrite Ho. split; [|done].
    unfold fireTimeout. rewrite Hh. destruct cb as [k0|k0].
    + destruct (requestActivation_timers (settleEnteringChild k0 (takeTimeout h s)))
        as (_ & _ & _ & _ & _ & -> & _). simpl.
      apply elem_of_difference. split; [done|].
      intros Hk%elem_of_singleton. congruence.
    + by destruct (requestActivation_timers
                     (setLeavingChildren (removeLeavingChild k0) (takeTimeout h s)))
        as (_ & _ & _ & _ & _ & -> & _).
  - intros h' cb' d' Hh'. apply Ht in Hh'. by eapply Hdelay.
Qed.

Lemma fireFrame_timersMatch (h : nat) (s : State) :
  timersMatch props s -> timersMatch props (fireFrame h s).
Proof.
  intros (Hrem & Hset & Hdelay).
  destruct (fireFrame_fields h s) as (Ho & Hl & He & _ & Ht).
  unfold timersMatch, delaysOk, pendingCallback. rewrite Ho, Hl, He, Ht.
  split; [exact Hrem|]. split; [exact Hset|exact Hdelay].
Qed.

Lemma reachable_timersMatch (s : State) : reachable props s -> timersMatch props s.
Proof.
  induction 1 as [children|s ev Hreach IH].
  - rewrite mount_initialState. split; [|split].
    + intros k. split.
      * intros (h & d & Hh). simpl in Hh. by rewrite lookup_empty in Hh.
      * intros Hk. apply keysOf_spec in Hk as (e & He & _). by apply elem_of_nil in He.
    + intros k (h & d & Hh). simpl in Hh. by rewrite lookup_empty in Hh.
    + intros h cb d Hh. simpl in Hh. by rewrite lookup_empty in Hh.
  - pose proof (reachable_wf props s Hreach) as Hwf.
    destruct ev as [children|h|h]; simpl.
    + by apply update_timersMatch.
    + by apply fireTimeout_timersMatch.
    + by apply fireFrame_timersMatch.
Qed.

(** X4. In every reachable state a remove timer is pending for exactly
    the keys of the leaving children, so every leaving child is on its way
    out and nothing else is; a settle timer is pending only for the key of
    an entering current child; and every pending timeout has the delay of
    its kind, [transitionLeaveTimeout] or [transitionEnterTimeout]. *)
Theorem remove_timer_iff_leaving (s : State) :
  reachable props s ->
  (forall k,
      (exists h d, timeouts s !! h = Some (RemoveLeavingChild k, d))
      <-> exists e, e ∈ leavingChildren s /\ key (element e) = k)
  /\ (forall k h d, timeouts s !! h = Some (SettleEnteringChild k, d) ->
        k ∈ enteringChildren s /\ k ∈ map key (oldChildren s))
  /\ (forall h k d, timeouts s !! h = Some (RemoveLeavingChild k, d) ->
        d = transitionLeaveTimeout props)
  /\ (forall h k d, timeouts s !! h = Some (SettleEnteringChild k, d) ->
        d = transitionEnterTimeout props).
Proof.
  intros Hreach.
  destruct (reachable_timersMatch s Hreach) as (Hrem & Hset & Hdelay).
  split; [|split; [|split]].
  - intros k. rewrite <- keysOf_spec. apply Hrem.
  - intros k h d Hh. rewrite <- keySet_spec. apply Hset. by exists h, d.
  - intros h k d Hh. by apply Hdelay in Hh.
  - intros h k d Hh. by apply Hdelay in Hh.
Qed.
End TimersMatch.

(** The theorem after [B] was taken from [A, B, C]. *)
Lemma remove_timer_iff_leaving_witness :
  reachable sampleProps leavingB
  /\ ((exists h d, timeouts leavingB !! h = Some (RemoveLeavingChild "B", d))
      <-> exists e, e ∈ leavingChildren leavingB /\ key (element e) = "B").
Proof.
  assert (Hreach : reachable sampleProps leavingB)
    by (apply reachable_step, reachable_mount).
  split; [exact Hreach|].
  exact (proj1 (remove_timer_iff_leaving sampleProps leavingB Hreach) "B").
Defined.

(** ** What an update, a timer and a frame do to a child *)

Lemma requestActivation_frame (s : State) :
  inactiveChildren s <> ∅ ->
  nextFrame (requestActivation s) = S (nextFrame s)
  /\ frames (requestActivation s) !! nextFrame s
     = Some (RequestSecondFrame (inactiveChildren s)).
Proof.
  intros Hne. unfold requestActivation.
  destruct (decide _) as [Hz|_].
  - by apply size_empty_inv, leibniz_equiv in Hz.
  - simpl. split; [done|]. by rewrite lookup_insert_eq.
Qed.

Lemma requestActivation_idle (s : State) :
  inactiveChildren s = ∅ -> requestActivation s = s.
Proof.
  intros He. unfold requestActivation. rewrite He.
  destruct (decide _) as [_|Hz]; [done|]. by rewrite size_empty in Hz.
Qed.

Lemma fireFrame_first (h : nat) (captured : gset Key) (s : State) :
  frames s !! h = Some (RequestSecondFrame captured) ->
  oldChildren (fireFrame h s) = oldChildren s
  /\ leavingChildren (fireFrame h s) = leavingChildren s
  /\ enteringChildren (fireFrame h s) = enteringChildren s
  /\ inactiveChildren (fireFrame h s) = inactiveChildren s
  /\ timeouts (fireFrame h s) = timeouts s
  /\ frames (fireFrame h s) !! nextFrame s = Some (ActivateChildren captured).
Proof.
  intros Hh. unfold fireFrame. rewrite Hh. simpl.
  repeat split; try done. by rewrite lookup_insert_eq.
Qed.

Lemma fireFrame_second (h : nat) (captured : gset Key) (s : State) :
  frames s !! h = Some (ActivateChildren captured) ->
  oldChildren (fireFrame h s) = oldChildren s
  /\ leavingChildren (fireFrame h s) = leavingChildren s
  /\ enteringChildren (fireFrame h s) = enteringChildren s
  /\ inactiveChildren (fireFrame h s) = inactiveChildren s ∖ captured
  /\ timeouts (fireFrame h s) = timeouts s.
Proof.
  intros Hh. unfold fireFrame. rewrite Hh.
  destruct (requestActivation_timers
              (setInactiveChildren (fun cur => cur ∖ captured) (takeFrame h s)))
    as (-> & _ & _ & -> & -> & -> & ->).
  done.
Qed.

Section Transitions.
Variable props : ITransitionGroupProps.

(** X5. A child of the previous render whose key is not among the new
    children starts to leave: it is in the leaving registry, inactive,
    rendered with the class ["<name>-leave "] alone, a remove timer with
    delay [transitionLeaveTimeout] is pending for its key and no settle
    timer is. *)
Theorem removed_child_starts_leaving (children : ChildrenProp) (s : State)
    (c : ReactElement) :
  reachable props s ->
  c ∈ oldChildren s ->
  key c ∉ map key (items_of (toArray children)) ->
  let s' := update props children s in
  (exists e, e ∈ leavingChildren s' /\ element e = c)
  /\ key c ∈ inactiveChildren s'
  /\ (exists h, timeouts s' !! h
                = Some (RemoveLeavingChild (key c), transitionLeaveTimeout props))
  /\ (forall h d, timeouts s' !! h <> Some (SettleEnteringChild (key c), d))
  /\ (forall e, element e = c ->
        renderLeaving (transitionName props) (wrapWith props) (inactiveChildren s') e
        = cloneWithClassName c (transitionName props +:+ "-leave ") (wrapWith props)).
Proof.
  intros Hreach Hc Hk s'.
  set (arrayChildren := items_of (toArray children)) in *.
  set (removed := items_of (elementDiff (oldChildren s) arrayChildren)).
  set (added := items_of (elementDiff arrayChildren (oldChildren s))).
  destruct (update_fields props children s) as (Hl & _ & _ & Hi).
  fold arrayChildren removed added s' in Hl, Hi.
  apply list_elem_of_lookup in Hc as [i Hi0].
  assert (Hr : mkIndexed c (Z.of_nat i) ∈ removed).
  { apply elem_of_elementDiff. rewrite Nat2Z.id. split; [lia|done]. }
  assert (Hnotadded : key c ∉ keysOf added).
  { intros Hin%added_keys_new. by apply keySet_spec in Hin. }
  assert (Hleaving : exists e, e ∈ leavingChildren s' /\ element e = c).
  { rewrite Hl. destruct removed as [|r0 rs] eqn:E; [by apply elem_of_nil in Hr|].
    rewrite <- E in *.
    exists (mkIndexed c (mergedIndex (leavingChildren s) (Z.of_nat i))).
    split; [|done]. apply dropAdded_spec. split; [|done].
    rewrite mergeInRemovedChildren_Permutation. apply elem_of_app. right.
    apply list_elem_of_In.
    apply (in_map (fun r => mkIndexed (element r)
                              (mergedIndex (leavingChildren s) (index r)))
                  removed (mkIndexed c (Z.of_nat i))).
    by apply list_elem_of_In. }
  assert (Hinactive : key c ∈ inactiveChildren s').
  { rewrite Hi. apply elem_of_union_r, elem_of_union_l, keysOf_spec.
    by exists (mkIndexed c (Z.of_nat i)). }
  assert (Hreach' : reachable props s')
    by apply (reachable_step props s (NewChildren children) Hreach).
  destruct (reachable_timersMatch props s' Hreach') as (Hrem & _ & Hdelay).
  assert (Hpending : pendingCallback s' (RemoveLeavingChild (key c))).
  { apply Hrem, keysOf_spec. destruct Hleaving as (e & He & <-). by exists e. }
  destruct Hpending as (h & d & Hh).
  split; [done|]. split; [done|]. split; [|split].
  - exists h. by rewrite (Hdelay h _ d Hh) in Hh.
  - intros h' d' Hh'.
    pose proof (reachable_wf props s' Hreach') as Hwf.
    by destruct (timersWf_onePendingPerKey s' Hwf _ _ _ _ _ _ Hh Hh' eq_refl)
      as (_ & ? & _).
  - intros e <-. unfold renderLeaving. by rewrite bool_decide_eq_true_2.
Qed.

(** X6. When the settle timer of a key fires, the key stops entering and
    nothing else changes: the timeout is gone, the other entering keys,
    the leaving registry, the children and the inactive keys are as
    before, and a child with this key is rendered with the empty
    transition class. *)
Theorem settle_timer_ends_the_enter (h : nat) (k : Key) (d : Z) (s : State) :
  timeouts s !! h = Some (SettleEnteringChild k, d) ->
  let s' := fireTimeout h s in
  enteringChildren s' = enteringChildren s ∖ {[k]}
  /\ timeouts s' = delete h (timeouts s)
  /\ leavingChildren s' = leavingChildren s
  /\ oldChildren s' = oldChildren s
  /\ inactiveChildren s' = inactiveChildren s
  /\ (forall c, key c = k ->
        renderChild (transitionName props) (wrapWith props)
                    (enteringChildren s') (inactiveChildren s') c
        = cloneWithClassName c EmptyString (wrapWith props)).
Proof.
  intros Hh s'. unfold s', fireTimeout. rewrite Hh.
  destruct (requestActivation_timers (settleEnteringChild k (takeTimeout h s)))
    as (-> & _ & _ & -> & -> & -> & ->). simpl.
  repeat split; try done.
  intros c <-. unfold renderChild.
  rewrite (bool_decide_eq_false_2 (key c ∈ enteringChildren s ∖ {[key c]}));
    [done|set_solver].
Qed.

Lemma fireTimeout_remove_fields (h : nat) (k : Key) (d : Z) (s : State) :
  timeouts s !! h = Some (RemoveLeavingChild k, d) ->
  leavingChildren (fireTimeout h s) = removeLeavingChild k (leavingChildren s)
  /\ timeouts (fireTimeout h s) = delete h (timeouts s)
  /\ oldChildren (fireTimeout h s) = oldChildren s
  /\ enteringChildren (fireTimeout h s) = enteringChildren s
  /\ inactiveChildren (fireTimeout h s) = inactiveChildren s.
Proof.
  intros Hh. unfold fireTimeout. rewrite Hh.
  by destruct (requestActivation_timers
                 (setLeavingChildren (removeLeavingChild k) (takeTimeout h s)))
    as (-> & _ & _ & -> & -> & -> & ->).
Qed.

(** X7. When the remove timer of a key fires, the leaving registry
    becomes [removeLeavingChild] of it and nothing else changes: the
    timeout is gone, the children, the entering and the inactive keys are
    as before, and no entry of the registry has the key any more. *)
Theorem remove_timer_ends_the_leave (h : nat) (k : Key) (d : Z) (s : State) :
  timeouts s !! h = Some (RemoveLeavingChild k, d) ->
  let s' := fireTimeout h s in
  leavingChildren s' = removeLeavingChild k (leavingChildren s)
  /\ (forall e, e ∈ leavingChildren s' -> key (element e) <> k)
  /\ (forall e0, e0 ∈ leavingChildren s -> key (element e0) <> k ->
        exists e, e ∈ leavingChildren s' /\ element e = element e0)
  /\ timeouts s' = delete h (timeouts s)
  /\ oldChildren s' = oldChildren s
  /\ enteringChildren s' = enteringChildren s
  /\ inactiveChildren s' = inactiveChildren s.
Proof.
  intros Hh s'.
  destruct (fireTimeout_remove_fields h k d s Hh) as (Hl & Ht & Ho & He & Hi).
  fold s' in Hl, Ht, Ho, He, Hi. rewrite Hl.
  split; [done|]. split; [|split; [|done]].
  - intros e He'. by apply removeLeavingChild_elements in He' as (e0 & _ & -> & Hne).
  - intros e0 He0 Hne. by apply removeLeavingChild_keeps.
Qed.

Lemma update_first_frame (children : ChildrenProp) (s : State) :
  let s1 := update props children s in
  inactiveChildren s1 <> ∅ ->
  frames s1 !! pred (nextFrame s1) = Some (RequestSecondFrame (inactiveChildren s1))
  /\ nextFrame s1 = S (pred (nextFrame s1)).
Proof.
  intros s1. unfold s1, update. set (t := setOldChildren _ _).
  destruct (requestActivation_timers t) as (_ & _ & _ & _ & _ & _ & ->).
  intros Hne. destruct (requestActivation_frame t Hne) as [-> Hframe]. done.
Qed.

(** X8. Activation by animation frames. After an update that leaves
    inactive keys, a first frame is pending that captured them; when it
    fires nothing that is rendered changes and a second frame is requested
    with the same keys. A second frame, whenever it fires, takes exactly
    the keys it captured out of [inactiveChildren] and touches nothing
    else, and no other event takes a key out of [inactiveChildren]. The
    keys are the captured ones, not the ones that are inactive by then, so
    two frames per transition are no lower bound: [D] of [leavingD], which
    has just started to leave, is made active by the one frame that was
    still pending from its entering. *)
Theorem frames_activate_their_captured_keys :
  (forall (children : ChildrenProp) (s : State),
      let s1 := update props children s in
      inactiveChildren s1 <> ∅ ->
      exists h1,
        frames s1 !! h1 = Some (RequestSecondFrame (inactiveChildren s1))
        /\ (let s2 := fireFrame h1 s1 in
            output props s2 = output props s1
            /\ inactiveChildren s2 = inactiveChildren s1
            /\ frames s2 !! nextFrame s1
               = Some (ActivateChildren (inactiveChildren s1))))
  /\ (forall (h : nat) (captured : gset Key) (s : State),
        frames s !! h = Some (ActivateChildren captured) ->
        inactiveChildren (fireFrame h s) = inactiveChildren s ∖ captured
        /\ oldChildren (fireFrame h s) = oldChildren s
        /\ enteringChildren (fireFrame h s) = enteringChildren s
        /\ leavingChildren (fireFrame h s) = leavingChildren s
        /\ timeouts (fireFrame h s) = timeouts s)
  /\ (forall (ev : Event) (s : State) (k : Key),
        k ∈ inactiveChildren s ->
        k ∉ inactiveChildren (step props ev s) ->
        exists h captured,
          ev = FrameFires h
          /\ frames s !! h = Some (ActivateChildren captured)
          /\ k ∈ captured)
  /\ (leavingChildren leavingD = [mkIndexed itemD 1]
      /\ inactiveChildren leavingD = {["D"]}
      /\ frames leavingD !! 2%nat = Some (ActivateChildren {["D"]})
      /\ frames leavingD !! 4%nat = Some (RequestSecondFrame {["D"]})
      /\ leavingChildren (fireFrame 2 leavingD) = [mkIndexed itemD 1]
      /\ inactiveChildren (fireFrame 2 leavingD) = ∅
      /\ output sampleProps (fireFrame 2 leavingD)
         = Some [Some (Cloned (mkElement "A" (Some " ") "a"));
                 Some (Cloned (mkElement "D" (Some " fade-leave fade-leave-active")
                                         "d"))]).
Proof.
  split; [|split; [|split]].
  - intros children s s1 Hne.
    destruct (update_first_frame children s Hne) as [Hframe _]. fold s1 in Hframe.
    exists (pred (nextFrame s1)). split; [done|].
    destruct (fireFrame_first _ _ _ Hframe) as (Ho & Hl & He & Hi & Ht & Hf).
    split; [|split; [done|done]].
    unfold output. by rewrite Ho, Hl, He, Hi.
  - intros h captured s Hh.
    destruct (fireFrame_second h captured s Hh) as (Ho & Hl & He & Hi & Ht).
    by rewrite Ho, Hl, He, Hi, Ht.
  - intros ev s k Hin Hout. destruct ev as [children|h|h]; simpl in Hout.
    + exfalso. apply Hout.
      destruct (update_fields props children s) as (_ & _ & _ & ->). set_solver.
    + exfalso. apply Hout.
      by destruct (fireTimeout_fields h s) as (_ & _ & _ & -> & _).
    + destruct (frames s !! h) as [[captured|captured]|] eqn:Hh.
      * exfalso. apply Hout.
        by destruct (fireFrame_first h captured s Hh) as (_ & _ & _ & -> & _).
      * exists h, captured. split; [done|]. split; [done|].
        destruct (fireFrame_second h captured s Hh) as (_ & _ & _ & Hi & _).
        rewrite Hi in Hout. apply dec_stable. intros Hnot. apply Hout. set_solver.
      * exfalso. apply Hout. unfold fireFrame. by rewrite Hh.
  - repeat split; reflexivity.
Qed.

Lemma update_same_children (children : ChildrenProp) (s : State) :
  oldChildren s = items_of (toArray children) ->
  update props children s
  = requestActivation (setOldChildren (items_of (toArray children))
                                      (requestActivation s)).
Proof.
  intros Hold. unfold update, removedEffect.
  destruct (requestActivation_timers s) as (_ & _ & _ & _ & -> & _).
  rewrite Hold, elementDiff_self_items. done.
Qed.

(** X9. Rendering the same children again changes nothing: after an
    update, a second update with the same [children] leaves the children,
    the leaving registry, the entering and inactive keys, the pending
    timeouts and the output as they are; no transition restarts. *)
Theorem update_twice_changes_nothing (children : ChildrenProp) (s : State) :
  let s1 := update props children s in
  let s2 := update props children s1 in
  oldChildren s2 = oldChildren s1
  /\ leavingChildren s2 = leavingChildren s1
  /\ enteringChildren s2 = enteringChildren s1
  /\ inactiveChildren s2 = inactiveChildren s1
  /\ timeouts s2 = timeouts s1
  /\ liveTimeouts s2 = liveTimeouts s1
  /\ output props s2 = output props s1.
Proof.
  intros s1 s2.
  assert (Hold : oldChildren s1 = items_of (toArray children))
    by apply (update_fields props children s).
  unfold s2. rewrite (update_same_children children s1 Hold).
  set (t := setOldChildren _ _).
  destruct (requestActivation_timers t) as (Ht & _ & Hlt & Hl & Ho & He & Hi).
  destruct (requestActivation_timers s1) as (Ht' & _ & Hlt' & Hl' & Ho' & He' & Hi').
  unfold output. rewrite Ht, Hlt, Hl, Ho, He, Hi. unfold t. simpl.
  rewrite Ht', Hlt', Hl', He', Hi', <- Hold. done.
Qed.
End Transitions.

(** [B] of the mounted [A, B, C] starts to leave. *)
Lemma removed_child_starts_leaving_witness :
  exists e, e ∈ leavingChildren leavingB /\ element e = itemB.
Proof.
  refine (proj1 (removed_child_starts_leaving sampleProps (childArray [itemA; itemC])
                   mountedABC itemB (reachable_mount _ _) _ _)).
  - apply list_elem_of_In. vm_compute. right. left. reflexivity.
  - intros H. apply list_elem_of_In in H. vm_compute in H.
    destruct H as [H|[H|[]]]; discriminate H.
Defined.

(** The settle timer of the added [D] fires. *)
Lemma settle_timer_ends_the_enter_witness :
  timeouts enteringD !! 1%nat = Some (SettleEnteringChild "D", 1000)
  /\ enteringChildren (fireTimeout 1 enteringD) = enteringChildren enteringD ∖ {["D"]}.
Proof.
  assert (Hp : timeouts enteringD !! 1%nat = Some (SettleEnteringChild "D", 1000))
    by (vm_compute; reflexivity).
  split; [exact Hp|].
  exact (proj1 (settle_timer_ends_the_enter sampleProps 1 "D" 1000 enteringD Hp)).
Defined.

(** The remove timer of the leaving [B] fires. *)
Lemma remove_timer_ends_the_leave_witness :
  timeouts leavingB !! 1%nat = Some (RemoveLeavingChild "B", 500)
  /\ leavingChildren (fireTimeout 1 leavingB)
     = removeLeavingChild "B" (leavingChildren leavingB).
Proof.
  assert (Hp : timeouts leavingB !! 1%nat = Some (RemoveLeavingChild "B", 500))
    by (vm_compute; reflexivity).
  split; [exact Hp|].
  exact (proj1 (remove_timer_ends_the_leave 1 "B" 500 leavingB Hp)).
Defined.


(** ** The merged index is the slot on the screen *)

Lemma filter_iff_in {A} (P Q : A -> Prop)
    `{!forall x, Decision (P x), !forall x, Decision (Q x)} (l : list A) :
  (forall x, x ∈ l -> P x <-> Q x) -> filter P l = filter Q l.
Proof.
  induction l as [|a l IH]; intros Hext; [done|].
  rewrite !filter_cons.
  rewrite IH by (intros x Hx; apply Hext; by right).
  destruct (decide (P a)) as [HP|HP], (decide (Q a)) as [HQ|HQ]; try done.
  - exfalso. apply HQ, Hext; [left|done].
  - exfalso. apply HP, Hext; [left|done].
Qed.

(** The walk of [mergeInRemovedChildren] over an ascending registry counts
    the leaving children below the index it arrives at. *)
Lemma offsetWalk_count (l : list IElementWithIndex) (i acc : Z) :
  StronglySorted indexLt l ->
  Z.of_nat (leavingBelow l (i + offsetWalk l i acc)) = offsetWalk l i acc - acc.
Proof.
  unfold leavingBelow. intros Hs. revert acc.
  induction Hs as [|a l Hs IH Hall]; intros acc; [simpl; lia|].
  simpl offsetWalk. destruct (Z.leb_spec (index a) (i + acc)) as [Hle|Hgt].
  - pose proof (offsetWalk_bounds l i (acc + 1)) as Hb.
    simpl List.filter.
    destruct (Z.ltb_spec (index a) (i + offsetWalk l i (acc + 1))) as [_|?]; [|lia].
    simpl length. rewrite Nat2Z.inj_succ, IH. lia.
  - assert (Hnone : offsetWalk l i acc = acc).
    { apply offsetWalk_none. eapply Forall_impl; [exact Hall|].
      intros e He. unfold indexLt in He. lia. }
    specialize (IH acc). rewrite Hnone in *.
    simpl List.filter.
    destruct (Z.ltb_spec (index a) (i + acc)) as [?|_]; [lia|]. exact IH.
Qed.

(** Below [m], every slot is free or claimed by a leaving child. *)
Lemma leavingBelow_free (l : list IElementWithIndex) (m : nat) :
  NoDup (map index l) -> Forall (fun e => 0 <= index e) l ->
  (length (freeSlots m l) + leavingBelow l (Z.of_nat m) = m)%nat.
Proof.
  intros Hnd Hpos. unfold leavingBelow.
  set (l' := List.filter (fun e => index e <? Z.of_nat m) l).
  assert (Hfits : registryFits m l').
  { split.
    - eapply sublist_NoDup; [exact Hnd|].
      apply (fmap_sublist index), List_filter_sublist.
    - apply Forall_forall. intros e He.
      apply elem_of_List_filter in He as [He Hlt]. apply Z.ltb_lt in Hlt.
      rewrite Forall_forall in Hpos. pose proof (Hpos e He). lia. }
  rewrite <- (freeSlots_length m l' Hfits) at 2. f_equal. f_equal.
  unfold freeSlots. apply filter_iff_in. intros x Hx. apply elem_of_seq in Hx.
  split; intros Hnot Hin; apply Hnot.
  - apply list_elem_of_fmap in Hin as (e & Hxe & He).
    apply elem_of_List_filter in He as [He _].
    apply list_elem_of_fmap. by exists e.
  - apply list_elem_of_fmap in Hin as (e & Hxe & He).
    apply list_elem_of_fmap. exists e. split; [done|].
    apply elem_of_List_filter. split; [done|]. apply Z.ltb_lt. lia.
Qed.

Lemma freeSlots_nth (total m : nat) (l : list IElementWithIndex) :
  (m < total)%nat -> Z.of_nat m ∉ map index l ->
  freeSlots total l !! length (freeSlots m l) = Some m.
Proof.
  intros Hlt Hfree. unfold freeSlots.
  assert (Hsplit : seq 0 total = seq 0 m ++ m :: seq (S m) (total - S m)).
  { replace total with (m + S (total - S m))%nat at 1 by lia.
    by rewrite seq_app. }
  rewrite Hsplit, filter_app, filter_cons_True by done.
  by apply list_lookup_middle.
Qed.

(** The free slots of an ascending registry, in order, are the merged
    indices of the raw indices 0, 1, 2, ... *)
Lemma mergedIndex_slot (total : nat) (l : list IElementWithIndex) (i : nat) :
  StronglySorted indexLt l ->
  Forall (fun e => 0 <= index e < Z.of_nat total) l ->
  (i + length l < total)%nat ->
  freeSlots total l !! i = Some (Z.to_nat (mergedIndex l (Z.of_nat i))).
Proof.
  intros Hs Hb Hi. unfold mergedIndex.
  pose proof (offsetWalk_bounds l (Z.of_nat i) 0) as Hw.
  pose proof (offsetWalk_count l (Z.of_nat i) 0 Hs) as Hcount.
  set (m := Z.to_nat (Z.of_nat i + offsetWalk l (Z.of_nat i) 0)).
  assert (Hm : Z.of_nat m = Z.of_nat i + offsetWalk l (Z.of_nat i) 0)
    by (unfold m; lia).
  rewrite <- Hm in Hcount.
  assert (Hfree : Z.of_nat m ∉ map index l).
  { intros Hin. apply list_elem_of_fmap in Hin as (e & He & Hin).
    apply (offsetWalk_fresh l (Z.of_nat i) 0 Hs e Hin). lia. }
  pose proof (leavingBelow_free l m (StronglySorted_indexLt_NoDup l Hs)) as Hlen.
  assert (Hi' : length (freeSlots m l) = i).
  { assert (Hpos : Forall (fun e => 0 <= index e) l)
      by (eapply Forall_impl; [exact Hb|]; simpl; intros; lia).
    specialize (Hlen Hpos). lia. }
  rewrite <- Hi' at 1. apply freeSlots_nth; [lia|done].
Qed.

(** Where [childrenToRender] puts the child at raw index [i]. *)
Lemma childrenToRender_mergedIndex (name : string)
    (wrap : option IWrapperElement) (children : list ReactElement)
    (entering inactive : gset Key) (leavingChildren : list IElementWithIndex)
    (out : JsArray) (i : nat) (c : ReactElement) :
  StronglySorted indexLt leavingChildren ->
  childrenToRender name wrap children entering inactive leavingChildren = Some out ->
  children !! i = Some c ->
  out !! Z.to_nat (mergedIndex leavingChildren (Z.of_nat i))
  = Some (Some (renderChild name wrap entering inactive c)).
Proof.
  intros Hs Hout Hc.
  pose proof (childrenToRender_returns_only_if_fits _ _ _ _ _ _ _ Hout) as Hfits.
  destruct (childrenToRender_layout name wrap children entering inactive
              leavingChildren Hfits) as (out' & Hout' & _ & _ & Hfree).
  rewrite Hout in Hout'. injection Hout' as <-.
  apply lookup_lt_Some in Hc as Hlt.
  pose proof (mergedIndex_slot _ leavingChildren i Hs (proj2 Hfits)) as Hslot.
  apply (f_equal (fun l => l !! i)) in Hfree.
  rewrite !list_lookup_fmap, Hslot, Hc in Hfree by lia.
  simpl in Hfree. by injection Hfree.
Qed.

(** X10. The merged index is the slot on the screen. With a registry
    strictly ascending by index, [mergeInRemovedChildren] gives every
    removed child, taken with its raw index among the children, an entry
    whose index is the slot in which [childrenToRender] had rendered that
    child: a child that starts to leave stays where it was. *)
Theorem merged_index_is_the_rendered_slot (name : string)
    (wrap : option IWrapperElement) (children : list ReactElement)
    (entering inactive : gset Key) (leavingChildren : list IElementWithIndex)
    (out : JsArray) (removedChildren : list IElementWithIndex) :
  StronglySorted indexLt leavingChildren ->
  childrenToRender name wrap children entering inactive leavingChildren = Some out ->
  (forall r, r ∈ removedChildren ->
     0 <= index r /\ children !! Z.to_nat (index r) = Some (element r)) ->
  forall r, r ∈ removedChildren ->
    exists e,
      e ∈ mergeInRemovedChildren removedChildren leavingChildren
      /\ element e = element r
      /\ index e = mergedIndex leavingChildren (index r)
      /\ out !! Z.to_nat (index e)
         = Some (Some (renderChild name wrap entering inactive (element r))).
Proof.
  intros Hs Hout Hraw r Hr. destruct (Hraw r Hr) as [Hpos Hc].
  exists (mkIndexed (element r) (mergedIndex leavingChildren (index r))).
  split; [|split; [done|split; [done|]]].
  - rewrite (mergeInRemovedChildren_Permutation removedChildren leavingChildren).
    apply elem_of_app. right.
    by apply (list_elem_of_fmap_2
                (fun r => mkIndexed (element r)
                            (mergedIndex leavingChildren (index r)))).
  - simpl.
    pose proof (childrenToRender_mergedIndex _ _ _ _ _ _ _ _ _ Hs Hout Hc) as Hslot.
    by rewrite Z2Nat.id in Hslot.
Qed.

(** The theorem for the children [A, C] around the leaving [B] when [C],
    at raw index 1, is removed: its entry has index 2, the slot [C] was
    in. *)
Lemma merged_index_is_the_rendered_slot_witness :
  exists e,
    e ∈ mergeInRemovedChildren [mkIndexed itemC 1] [mkIndexed itemB 1]
    /\ element e = itemC
    /\ index e = mergedIndex [mkIndexed itemB 1] 1
    /\ out_of_AC_around_B !! Z.to_nat (index e)
       = Some (Some (renderChild "fade" None ∅ ∅ itemC)).
Proof.
  refine (merged_index_is_the_rendered_slot "fade" None [itemA; itemC] ∅ ∅
            [mkIndexed itemB 1] out_of_AC_around_B [mkIndexed itemC 1]
            _ _ _ (mkIndexed itemC 1) _).
  - repeat constructor.
  - vm_compute. reflexivity.
  - intros r Hr. apply list_elem_of_singleton in Hr as ->.
    split; [simpl; lia|reflexivity].
  - apply list_elem_of_singleton. reflexivity.
Defined.

(** ** Destroying a leaving child leaves the rest in place *)

(** An array of the right length is determined by what is in the slots of
    the leaving children and what is in the free slots. *)
Lemma slots_determined {A} (total : nat) (l : list IElementWithIndex) (a b : list A) :
  registryFits total l -> length a = total -> length b = total ->
  (forall e, e ∈ l -> a !! Z.to_nat (index e) = b !! Z.to_nat (index e)) ->
  (fun i => a !! i) <$> freeSlots total l = (fun i => b !! i) <$> freeSlots total l ->
  a = b.
Proof.
  intros Hfits Ha Hb Hleft Hfree. apply list_eq. intros q.
  destruct (decide (q < total)%nat) as [Hlt|Hge].
  - assert (Hin : q ∈ seq 0 total) by (apply elem_of_seq; lia).
    rewrite <- (freeSlots_partition total l Hfits) in Hin.
    apply elem_of_app in Hin as [Hin|Hin].
    + apply list_elem_of_lookup in Hin as [j Hj].
      apply (f_equal (fun x => x !! j)) in Hfree.
      rewrite !list_lookup_fmap, Hj in Hfree. simpl in Hfree. by injection Hfree.
    + apply list_elem_of_fmap in Hin as (z & -> & Hz).
      apply list_elem_of_fmap in Hz as (e & -> & He). by apply Hleft.
  - rewrite !lookup_ge_None_2 by lia. done.
Qed.

Lemma NoDup_map_inj {A B} (f : A -> B) (l : list A) (a b : A) :
  NoDup (map f l) -> a ∈ l -> b ∈ l -> f a = f b -> a = b.
Proof.
  intros Hnd Ha Hb Heq.
  apply list_elem_of_lookup in Ha as [i Hi].
  apply list_elem_of_lookup in Hb as [j Hj].
  assert (Hij : i = j).
  { apply (NoDup_lookup (f <$> l) i j (f a)); [exact Hnd| |].
    - by rewrite list_lookup_fmap, Hi.
    - rewrite list_lookup_fmap, Hj. simpl. by rewrite Heq. }
  subst. congruence.
Qed.

Lemma find_by_key (k : Key) (l : list IElementWithIndex) (e : IElementWithIndex) :
  NoDup (map (fun e => key (element e)) l) ->
  e ∈ l -> key (element e) = k ->
  List.find (fun e => bool_decide (key (element e) = k)) l = Some e.
Proof.
  intros Hnd He Hk. induction l as [|a l IH]; [by apply elem_of_nil in He|].
  simpl. destruct (bool_decide_reflect (key (element a) = k)) as [Ha|Ha].
  - f_equal. apply (NoDup_map_inj (fun e => key (element e)) (a :: l)); try done.
    + left.
    + congruence.
  - apply IH.
    + by apply NoDup_cons in Hnd as [_ ?].
    + apply elem_of_cons in He as [->|He]; [done|exact He].
Qed.

Lemma fmap_filter_in {A B} (f : A -> B) (P : B -> Prop) (Q : A -> Prop)
    `{!forall x, Decision (P x), !forall x, Decision (Q x)} (l : list A) :
  (forall x, x ∈ l -> Q x <-> P (f x)) -> f <$> filter Q l = filter P (f <$> l).
Proof.
  induction l as [|a l IH]; intros Hext; [done|].
  rewrite fmap_cons, !filter_cons.
  rewrite <- IH by (intros x Hx; apply Hext; by right).
  destruct (decide (Q a)) as [HQ|HQ], (decide (P (f a))) as [HP|HP]; try done.
  - exfalso. apply HP, Hext; [left|done].
  - exfalso. apply HQ, Hext; [left|done].
Qed.

Lemma fmap_ext_in {A B} (f g : A -> B) (l : list A) :
  (forall x, x ∈ l -> f x = g x) -> f <$> l = g <$> l.
Proof.
  intros Hext. apply list_fmap_ext. intros i x Hx. apply Hext.
  by eapply list_elem_of_lookup_2.
Qed.

(** The merged indices of a registry after one entry was taken out. *)
Lemma compacted_indices (k : Key) (removed : IElementWithIndex)
    (l : list IElementWithIndex) (z : Z) :
  StronglySorted indexLt l ->
  NoDup (map (fun e => key (element e)) l) ->
  removed ∈ l -> key (element removed) = k ->
  z ∈ map index (compacted k (index removed) l)
  <-> (z < index removed /\ z ∈ map index l)
      \/ (index removed <= z /\ z + 1 ∈ map index l).
Proof.
  intros Hs Hnd Hr Hk. unfold compacted. split.
  - intros Hz. apply list_elem_of_fmap in Hz as (e' & -> & He').
    apply list_elem_of_fmap in He' as (e0 & -> & He0).
    apply elem_of_List_filter in He0 as [He0 Hne].
    apply negb_true_iff, bool_decide_eq_false in Hne.
    assert (Hidx : index e0 <> index removed).
    { intros Heq. apply Hne. rewrite <- Hk. f_equal. f_equal.
      by apply (StronglySorted_index_inj l). }
    unfold shiftAbove. destruct (decide (index removed < index e0)) as [Hlt|Hge].
    + right. simpl. split; [lia|]. replace (index e0 - 1 + 1) with (index e0) by lia.
      apply list_elem_of_fmap. by exists e0.
    + left. split; [lia|]. apply list_elem_of_fmap. by exists e0.
  - intros [[Hlt Hz]|[Hle Hz]].
    + apply list_elem_of_fmap in Hz as (e0 & -> & He0).
      apply list_elem_of_fmap. exists e0. split; [done|].
      apply list_elem_of_fmap. exists e0. split.
      * unfold shiftAbove. destruct (decide _); [lia|done].
      * apply elem_of_List_filter. split; [done|].
        apply negb_true_iff, bool_decide_eq_false. intros Hke.
        assert (e0 = removed)
          by (apply (NoDup_map_inj (fun e => key (element e)) l); congruence).
        subst. lia.
    + apply list_elem_of_fmap in Hz as (e0 & Hz & He0).
      apply list_elem_of_fmap. exists (mkIndexed (element e0) (index e0 - 1)).
      split; [simpl; lia|].
      apply list_elem_of_fmap. exists e0. split.
      * unfold shiftAbove. destruct (decide _); [done|lia].
      * apply elem_of_List_filter. split; [done|].
        apply negb_true_iff, bool_decide_eq_false. intros Hke.
        assert (e0 = removed)
          by (apply (NoDup_map_inj (fun e => key (element e)) l); congruence).
        subst. lia.
Qed.

(** The free slots before the entry was taken out are the free slots
    after it, moved up by one from the slot of the entry on. *)
Lemma freeSlots_compacted (total : nat) (k : Key) (removed : IElementWithIndex)
    (l : list IElementWithIndex) :
  StronglySorted indexLt l ->
  NoDup (map (fun e => key (element e)) l) ->
  removed ∈ l -> key (element removed) = k ->
  Forall (fun e => 0 <= index e < Z.of_nat (S total)) l ->
  (fun q => if (q <? Z.to_nat (index removed))%nat then q else S q)
    <$> freeSlots total (compacted k (index removed) l)
  = freeSlots (S total) l.
Proof.
  intros Hs Hnd Hr Hk Hb. unfold freeSlots.
  rewrite Forall_forall in Hb. pose proof (Hb removed Hr) as Hbr.
  set (p := Z.to_nat (index removed)).
  assert (Hp : Z.of_nat p = index removed) by (unfold p; lia).
  assert (Hsplit1 : seq 0 total = seq 0 p ++ seq p (total - p)).
  { replace total with (p + (total - p))%nat at 1 by lia. by rewrite seq_app. }
  assert (Hsplit2 : seq 0 (S total) = seq 0 p ++ p :: seq (S p) (total - p)).
  { replace (S total) with (p + S (total - p))%nat at 1 by lia. by rewrite seq_app. }
  rewrite Hsplit1, Hsplit2, !filter_app, fmap_app.
  rewrite filter_cons_False.
  2:{ intros Hnot. apply Hnot. rewrite Hp. apply list_elem_of_fmap. by exists removed. }
  f_equal.
  - rewrite (fmap_filter_in
               (fun q => if (q <? p)%nat then q else S q)
               (fun i : nat => Z.of_nat i ∉ map index l)
               (fun i : nat => Z.of_nat i ∉ map index (compacted k (index removed) l))).
    + f_equal. rewrite <- (list_fmap_id (seq 0 p)) at 2.
      apply fmap_ext_in. intros x Hx. apply elem_of_seq in Hx.
      destruct (Nat.ltb_spec x p); [done|lia].
    + intros x Hx. apply elem_of_seq in Hx.
      destruct (Nat.ltb_spec x p); [|lia].
      rewrite (compacted_indices k removed l _ Hs Hnd Hr Hk).
      split.
      * intros Hnot Hin. apply Hnot. left. split; [lia|done].
      * intros Hnot [[_ Hin]|[Hle _]]; [by apply Hnot|lia].
  - rewrite (fmap_filter_in
               (fun q => if (q <? p)%nat then q else S q)
               (fun i : nat => Z.of_nat i ∉ map index l)
               (fun i : nat => Z.of_nat i ∉ map index (compacted k (index removed) l))).
    + f_equal. rewrite <- fmap_S_seq.
      apply fmap_ext_in. intros x Hx. apply elem_of_seq in Hx.
      destruct (Nat.ltb_spec x p); [lia|done].
    + intros x Hx. apply elem_of_seq in Hx.
      destruct (Nat.ltb_spec x p); [lia|].
      rewrite (compacted_indices k removed l _ Hs Hnd Hr Hk).
      replace (Z.of_nat (S x)) with (Z.of_nat x + 1) by lia.
      split.
      * intros Hnot Hin. apply Hnot. right. split; [lia|done].
      * intros Hnot [[Hlt _]|[_ Hin]]; [lia|by apply Hnot].
Qed.

Section Destroy.
Variable props : ITransitionGroupProps.

(** X11. Destroying a leaving child leaves the rest in place. When the
    remove timer of a leaving child fires, the output of the next render
    is the output before with the slot of that child deleted: every other
    node is the same and in the same order. *)
Theorem destroyed_child_leaves_the_rest_in_place (h : nat) (k : Key) (d : Z)
    (s : State) (e : IElementWithIndex) :
  reachableUnique props s ->
  timeouts s !! h = Some (RemoveLeavingChild k, d) ->
  e ∈ leavingChildren s -> key (element e) = k ->
  exists out,
    output props s = Some out
    /\ output props (fireTimeout h s) = Some (delete (Z.to_nat (index e)) out).
Proof.
  intros Hreach Hh He Hk.
  pose proof (reachableUnique_registryWf props s Hreach) as Hwf.
  pose proof (registryWf_fits s Hwf) as Hfits.
  pose proof (removeLeavingChild_registryWf k s Hwf) as Hwf'.
  pose proof (registryWf_fits _ Hwf') as Hfits'. simpl in Hfits'.
  destruct Hwf as (Hs & Hb & Hnd & _ & _).
  destruct (fireTimeout_remove_fields h k d s Hh) as (Hl & _ & Ho & Hent & Hina).
  unfold output. rewrite Hl, Ho, Hent, Hina.
  rewrite (removeLeavingChild_compacted k _ e Hs (find_by_key k _ e Hnd He Hk))
    in Hfits' |- *.
  pose proof (compacted_length k (index e) (leavingChildren s) Hnd
                (ex_intro _ e (conj He Hk))) as Hlen.
  set (L' := compacted k (index e) (leavingChildren s)) in *.
  destruct (childrenToRender_layout (transitionName props) (wrapWith props)
              (oldChildren s) (enteringChildren s) (inactiveChildren s)
              (leavingChildren s) Hfits) as (out & Hout & Hlo & Hleft & Hfree).
  destruct (childrenToRender_layout (transitionName props) (wrapWith props)
              (oldChildren s) (enteringChildren s) (inactiveChildren s)
              L' Hfits') as (out' & Hout' & Hlo' & Hleft' & Hfree').
  exists out. split; [done|]. rewrite Hout'. f_equal.
  rewrite Forall_forall in Hb. pose proof (Hb e He) as Hbe.
  set (p := Z.to_nat (index e)).
  assert (Hdel : forall q, delete p out !! q
                           = out !! (if (q <? p)%nat then q else S q)).
  { intros q. destruct (Nat.ltb_spec q p).
    - by apply list_lookup_delete_lt.
    - by apply list_lookup_delete_ge. }
  apply (slots_determined (length (oldChildren s) + length L') L'); try done.
  - rewrite length_delete; [lia|]. apply lookup_lt_is_Some_2. lia.
  - intros e' He'. rewrite (Hleft' e' He'), Hdel. symmetry.
    unfold L', compacted in He'.
    apply list_elem_of_fmap in He' as (e0 & -> & He0).
    apply elem_of_List_filter in He0 as [He0 Hne].
    apply negb_true_iff, bool_decide_eq_false in Hne.
    assert (Hidx : index e0 <> index e).
    { intros Heq. apply Hne. rewrite <- Hk. f_equal. f_equal.
      by apply (StronglySorted_index_inj (leavingChildren s)). }
    pose proof (Hb e0 He0) as Hb0.
    pose proof (Hleft e0 He0) as Hslot.
    unfold shiftAbove. destruct (decide (index e < index e0)) as [Hlt|Hge].
    + simpl index. destruct (Nat.ltb_spec (Z.to_nat (index e0 - 1)) p); [lia|].
      replace (S (Z.to_nat (index e0 - 1))) with (Z.to_nat (index e0)) by lia.
      exact Hslot.
    + destruct (Nat.ltb_spec (Z.to_nat (index e0)) p); [|lia]. exact Hslot.
  - rewrite Hfree'. rewrite <- Hfree.
    assert (Hbound : Forall (fun e0 => 0 <= index e0
                        < Z.of_nat (S (length (oldChildren s) + length L')))
                       (leavingChildren s)).
    { apply Forall_forall. intros e0 He0. pose proof (Hb e0 He0). lia. }
    replace (length (oldChildren s) + length (leavingChildren s))%nat
      with (S (length (oldChildren s) + length L')) by lia.
    rewrite <- (freeSlots_compacted _ k e (leavingChildren s) Hs Hnd He Hk Hbound).
    rewrite <- list_fmap_compose. fold L'.
    apply fmap_ext_in. intros q _. simpl. by rewrite Hdel.
Qed.
End Destroy.

(** The theorem when the remove timer of the leaving [B] fires. *)
Lemma destroyed_child_leaves_the_rest_in_place_witness :
  exists out,
    output sampleProps leavingB = Some out
    /\ output sampleProps (fireTimeout 1 leavingB) = Some (delete 1%nat out).
Proof.
  apply (destroyed_child_leaves_the_rest_in_place sampleProps 1 "B" 500 leavingB
           (mkIndexed itemB 1) leavingB_reachableUnique).
  - reflexivity.
  - apply list_elem_of_In. vm_compute. left. reflexivity.
  - reflexivity.
Defined.

(** ** Removed children keep their place *)

Lemma toArray_childArray (l : list ReactElement) :
  items_of (toArray (childArray l)) = l.
Proof.
  destruct l as [|x l]; [done|]. unfold childArray. simpl. f_equal.
  apply omap_id_Some.
Qed.

Lemma List_filter_none {A} (f : A -> bool) (l : list A) :
  (forall x, x ∈ l -> f x = false) -> List.filter f l = [].
Proof.
  induction l as [|a l IH]; intros Hall; [done|]. simpl.
  rewrite (Hall a) by left. apply IH. intros x Hx. apply Hall. by right.
Qed.

Lemma map_List_filter {A B} (f : A -> B) (g : B -> bool) (l : list A) :
  map f (List.filter (fun x => g (f x)) l) = List.filter g (map f l).
Proof.
  induction l as [|a l IH]; [done|]. simpl.
  destruct (g (f a)); simpl; by rewrite IH.
Qed.

Lemma filter_List_filter {A} (P : A -> Prop) `{!forall x, Decision (P x)}
    (f : A -> bool) (l : list A) :
  (forall x, x ∈ l -> P x <-> f x = true) -> filter P l = List.filter f l.
Proof.
  induction l as [|a l IH]; intros Hext; [done|].
  rewrite filter_cons. simpl.
  rewrite IH by (intros x Hx; apply Hext; by right).
  destruct (decide (P a)) as [HP|HP], (f a) eqn:Hf; try done.
  - apply Hext in HP; [congruence|left].
  - exfalso. apply HP, Hext; [left|done].
Qed.

Lemma mergedIndex_inj (l : list IElementWithIndex) (i j : Z) :
  mergedIndex l i = mergedIndex l j -> i = j.
Proof.
  unfold mergedIndex. intros Heq.
  destruct (Z.lt_trichotomy i j) as [Hlt|[?|Hgt]]; [|done|].
  - pose proof (offsetWalk_mono l i j 0 0). lia.
  - pose proof (offsetWalk_mono l j i 0 0). lia.
Qed.

Lemma withIndex_lookup (l : list ReactElement) (i : nat) (c : ReactElement) :
  l !! i = Some c -> withIndex l !! i = Some (mkIndexed c (Z.of_nat i)).
Proof. intros Hc. unfold withIndex. by rewrite list_lookup_imap, Hc. Qed.

(** The free slots of an ascending registry are the merged indices of the
    raw indices of the children, in order. *)
Lemma freeSlots_withIndex (children : list ReactElement) (l : list IElementWithIndex) :
  StronglySorted indexLt l ->
  Forall (fun e => 0 <= index e < Z.of_nat (length children + length l)) l ->
  freeSlots (length children + length l) l
  = (fun e => Z.to_nat (mergedIndex l (index e))) <$> withIndex children.
Proof.
  intros Hs Hb. apply list_eq. intros i. rewrite list_lookup_fmap.
  destruct (children !! i) as [c|] eqn:Hc.
  - rewrite (withIndex_lookup children i c Hc). simpl.
    apply lookup_lt_Some in Hc. apply mergedIndex_slot; [done|done|lia].
  - apply lookup_ge_None in Hc.
    assert (Hfits : registryFits (length children + length l) l)
      by (split; [by apply StronglySorted_indexLt_NoDup|done]).
    pose proof (freeSlots_length _ l Hfits).
    rewrite !lookup_ge_None_2; [done| |lia].
    rewrite withIndex_length. lia.
Qed.

(** The free slots after [removed] was merged into the registry are the
    slots of the children that were kept. *)
Lemma freeSlots_merged (children : list ReactElement) (l : list IElementWithIndex)
    (g : IElementWithIndex -> bool) :
  StronglySorted indexLt l ->
  Forall (fun e => 0 <= index e < Z.of_nat (length children + length l)) l ->
  freeSlots (length children + length l)
            (mergeInRemovedChildren
               (List.filter (fun e => negb (g e)) (withIndex children)) l)
  = (fun e => Z.to_nat (mergedIndex l (index e)))
      <$> List.filter g (withIndex children).
Proof.
  intros Hs Hb.
  set (removed := List.filter (fun e => negb (g e)) (withIndex children)).
  set (slotOf := fun e : IElementWithIndex => Z.to_nat (mergedIndex l (index e))).
  set (total := (length children + length l)%nat).
  assert (Hslot : forall e, e ∈ withIndex children ->
                    Z.of_nat (slotOf e) = mergedIndex l (index e)).
  { intros e He. unfold slotOf, mergedIndex.
    pose proof (offsetWalk_bounds l (index e) 0).
    pose proof (withIndex_range children) as Hr. rewrite Forall_forall in Hr.
    pose proof (Hr e He). lia. }
  assert (Hidx : forall z, z ∈ map index (mergeInRemovedChildren removed l)
                 <-> z ∈ map index l
                     \/ exists r, r ∈ removed /\ z = mergedIndex l (index r)).
  { intros z. rewrite (mergeInRemovedChildren_Permutation removed l).
    rewrite map_app, elem_of_app, map_map. simpl. apply or_iff_compat_l.
    split.
    - intros Hz. apply list_elem_of_fmap in Hz as (r & -> & Hr). by exists r.
    - intros (r & Hr & ->).
      by apply (list_elem_of_fmap_2 (fun r => mergedIndex l (index r))). }
  unfold freeSlots at 1.
  rewrite <- (list_filter_filter_l
                (fun i : nat =>
                   Z.of_nat i ∉ map index (mergeInRemovedChildren removed l))
                (fun i : nat => Z.of_nat i ∉ map index l)).
  2:{ intros x Hx Hin. apply Hx, Hidx. by left. }
  change (filter (fun i : nat => Z.of_nat i ∉ map index l) (seq 0 total))
    with (freeSlots total l).
  unfold total. rewrite (freeSlots_withIndex children l Hs Hb).
  fold slotOf.
  rewrite <- (fmap_filter_in slotOf
                (fun i : nat =>
                   Z.of_nat i ∉ map index (mergeInRemovedChildren removed l))
                (fun e => g e = true)).
  - f_equal. apply filter_List_filter. by intros x _.
  - intros e He. rewrite Hidx, (Hslot e He). split.
    + intros Hg [Hin|(r & Hr & Heq)].
      * apply list_elem_of_fmap in Hin as (e0 & Heq & He0).
        by apply (offsetWalk_fresh l (index e) 0 Hs e0 He0).
      * apply mergedIndex_inj in Heq.
        apply elem_of_List_filter in Hr as [Hr Hgr].
        assert (e = r)
          by (by apply (StronglySorted_index_inj (withIndex children));
              [apply withIndex_sorted| | |]).
        subst. rewrite Hg in Hgr. done.
    + intros Hnot. destruct (g e) eqn:Hg; [done|]. exfalso. apply Hnot. right.
      exists e. split; [|done]. apply elem_of_List_filter. by rewrite Hg.
Qed.

Section KeepPlace.
Variable props : ITransitionGroupProps.

(** X12. Removed children keep their place. When the new children are the
    previous children with some of them filtered out, the next output has
    the same keys in the same slots as the output before: the children
    that were filtered out are now leaving, each in the slot it was in. *)
Theorem removed_children_keep_their_place (s : State) (keep : ReactElement -> bool) :
  reachableUnique props s ->
  let children := childArray (List.filter keep (oldChildren s)) in
  exists out out',
    output props s = Some out
    /\ output props (update props children s) = Some out'
    /\ slotKeys out' = slotKeys out.
Proof.
  intros Hreach children.
  pose proof (reachableUnique_registryWf props s Hreach) as Hwf.
  pose proof (registryWf_fits s Hwf) as Hfits.
  destruct Hwf as (Hs & Hb & Hnd & Hndo & Hapart).
  set (old := oldChildren s) in *. set (L := leavingChildren s) in *.
  set (new := List.filter keep old).
  assert (Harr : items_of (toArray children) = new) by apply toArray_childArray.
  assert (Huniq : uniqueKeys children).
  { unfold uniqueKeys. rewrite Harr. eapply sublist_NoDup; [exact Hndo|].
    apply (fmap_sublist key), List_filter_sublist. }
  assert (Hreach' : reachableUnique props (update props children s))
    by apply (reachableUnique_step props s (NewChildren children) Hreach Huniq).
  pose proof (reachableUnique_registryWf props _ Hreach') as Hwf'.
  pose proof (registryWf_fits _ Hwf') as Hfits'.
  destruct (update_fields props children s) as (Hl & Ho & _).
  rewrite Harr in Hl, Ho. fold old L in Hl.
  set (g := fun ei : IElementWithIndex => bool_decide (key (element ei) ∈ keySet new)).
  assert (Hkeep : forall c, c ∈ old -> bool_decide (key c ∈ keySet new) = keep c).
  { intros c Hc. destruct (keep c) eqn:Hk.
    - apply bool_decide_eq_true. apply keySet_spec.
      apply (list_elem_of_fmap_2 key). by apply elem_of_List_filter.
    - apply bool_decide_eq_false. rewrite keySet_spec. intros Hin.
      apply list_elem_of_fmap in Hin as (c' & Heq & Hc').
      apply elem_of_List_filter in Hc' as [Hc' Hk'].
      assert (c = c') by (by apply (NoDup_map_inj key old)).
      subst. congruence. }
  assert (Hadded : items_of (elementDiff new old) = []).
  { rewrite elementDiff_items. apply List_filter_none. intros [c i] Hci.
    apply elem_of_withIndex in Hci as [_ Hci]. simpl.
    apply negb_false_iff, bool_decide_eq_true, keySet_spec.
    apply (list_elem_of_fmap_2 key).
    apply list_elem_of_lookup_2 in Hci. by apply elem_of_List_filter in Hci as [? _]. }
  assert (Hremoved : items_of (elementDiff old new)
                     = List.filter (fun e => negb (g e)) (withIndex old))
    by apply elementDiff_items.
  set (removed := List.filter (fun e => negb (g e)) (withIndex old)) in *.
  set (kept := List.filter g (withIndex old)).
  assert (Hkept : map element kept = new).
  { unfold kept, g.
    pose (g' := fun c : ReactElement => bool_decide (key c ∈ keySet new)).
    etrans; [exact (map_List_filter element g' (withIndex old))|].
    rewrite withIndex_elements. unfold g', new. apply List.filter_ext_in. intros c Hc.
    apply Hkeep. by apply list_elem_of_In. }
  rewrite Hadded, Hremoved in Hl.
  assert (HL' : leavingChildren (update props children s)
                = mergeInRemovedChildren removed L).
  { rewrite Hl. change (keysOf []) with (∅ : gset Key). rewrite dropAdded_empty.
    destruct removed; [by rewrite mergeInRemovedChildren_nil|done]. }
  clear Hl.
  assert (Hlen : (length new + length (mergeInRemovedChildren removed L)
                  = length old + length L)%nat).
  { rewrite (mergeInRemovedChildren_Permutation removed L), length_app, length_map.
    rewrite <- Hkept, length_map.
    pose proof (List_filter_split g (withIndex old)) as Hsplit.
    rewrite withIndex_length in Hsplit. fold kept removed in Hsplit. lia. }
  unfold output. rewrite Ho, HL'. rewrite Ho, HL' in Hfits'.
  destruct (childrenToRender_layout (transitionName props) (wrapWith props)
              old (enteringChildren s) (inactiveChildren s) L Hfits)
    as (out & Hout & Hlo & Hleft & Hfree).
  destruct (childrenToRender_layout (transitionName props) (wrapWith props)
              new (enteringChildren (update props children s))
              (inactiveChildren (update props children s))
              (mergeInRemovedChildren removed L) Hfits')
    as (out' & Hout' & Hlo' & Hleft' & Hfree').
  exists out, out'. split; [done|]. split; [done|].
  assert (Hkey : forall (o : JsArray) q r,
             o !! q = Some (Some r) ->
             slotKeys o !! q = Some (Some (renderedKey r))).
  { intros o q r Hq. unfold slotKeys. by rewrite list_lookup_fmap, Hq. }
  apply (slots_determined (length new + length (mergeInRemovedChildren removed L))
           (mergeInRemovedChildren removed L)); try done.
  - unfold slotKeys. by rewrite length_fmap.
  - unfold slotKeys. rewrite length_fmap. lia.
  - intros e' He'. rewrite (Hkey _ _ _ (Hleft' e' He')).
    unfold renderLeaving. rewrite renderedKey_cloneWithClassName.
    rewrite (mergeInRemovedChildren_Permutation removed L) in He'.
    apply elem_of_app in He' as [He'|He'].
    + rewrite (Hkey _ _ _ (Hleft e' He')).
      unfold renderLeaving. by rewrite renderedKey_cloneWithClassName.
    + apply list_elem_of_fmap in He' as ([c i] & -> & Hr).
      apply elem_of_List_filter in Hr as [Hr _].
      apply elem_of_withIndex in Hr as [Hi Hc]. simpl.
      pose proof (childrenToRender_mergedIndex _ _ _ _ _ _ _ _ _ Hs Hout Hc) as Hslot.
      rewrite Z2Nat.id in Hslot by done.
      rewrite (Hkey _ _ _ Hslot).
      unfold renderChild. by rewrite renderedKey_cloneWithClassName.
  - transitivity ((fun c => Some (Some (keyOfRendered (wrapWith props) (key c))))
                    <$> new).
    + transitivity ((fun slot : option (option Rendered) =>
                       (fun o : option Rendered => renderedKey <$> o) <$> slot)
                      <$> ((fun i => out' !! i)
                             <$> freeSlots
                                   (length new
                                    + length (mergeInRemovedChildren removed L))
                                   (mergeInRemovedChildren removed L))).
      * rewrite <- list_fmap_compose. apply fmap_ext_in. intros q _. simpl.
        unfold slotKeys. by rewrite list_lookup_fmap.
      * rewrite Hfree', <- list_fmap_compose. apply fmap_ext_in. intros c _. simpl.
        unfold renderChild. by rewrite renderedKey_cloneWithClassName.
    + rewrite Hlen. unfold removed.
      rewrite (freeSlots_merged old L g Hs Hb). fold kept.
      rewrite <- list_fmap_compose, <- Hkept.
      change (map element kept) with (element <$> kept).
      rewrite <- list_fmap_compose.
      apply fmap_ext_in. intros [c i] Hci. simpl.
      apply elem_of_List_filter in Hci as [Hci _].
      apply elem_of_withIndex in Hci as [Hi Hc].
      pose proof (childrenToRender_mergedIndex _ _ _ _ _ _ _ _ _ Hs Hout Hc) as Hslot.
      rewrite Z2Nat.id in Hslot by done.
      rewrite (Hkey _ _ _ Hslot).
      unfold renderChild. by rewrite renderedKey_cloneWithClassName.
Qed.
End KeepPlace.

(** The theorem when [B] is filtered out of the mounted [A, B, C]. *)
Lemma removed_children_keep_their_place_witness :
  exists out out',
    output sampleProps mountedABC = Some out
    /\ output sampleProps
         (update sampleProps
            (childArray (List.filter (fun c => negb (String.eqb (key c) "B"))
                                     (oldChildren mountedABC)))
            mountedABC) = Some out'
    /\ slotKeys out' = slotKeys out.
Proof.
  apply (removed_children_keep_their_place sampleProps mountedABC
           (fun c => negb (String.eqb (key c) "B"))).
  apply reachableUnique_mount. unfold uniqueKeys. simpl.
  repeat (apply NoDup_cons; split; [set_solver|]). apply NoDup_nil_2.
Defined.

(** ** Entering, the first render, and the stores of live handles *)

Lemma handlesKept_refl (s : State) : handlesKept s s.
Proof. by split. Qed.

Lemma handlesKept_trans (a b c : State) :
  handlesKept a b -> handlesKept b c -> handlesKept a c.
Proof. intros [H1 H2] [H3 H4]. split; [set_solver|]. intros k Hk. by apply H4, H2. Qed.

Lemma fold_left_handlesKept {B} (f : State -> B -> State) (l : list B) (s : State) :
  (forall a x, handlesKept a (f a x)) -> handlesKept s (fold_left f l s).
Proof.
  intros Hf. revert s. induction l as [|x l IH]; intros s; simpl.
  - apply handlesKept_refl.
  - eapply handlesKept_trans; [apply Hf|apply IH].
Qed.

Lemma clearLiveTimeout_handlesKept (k : Key) (s : State) :
  handlesKept s (clearLiveTimeout k s).
Proof.
  unfold clearLiveTimeout. destruct (liveTimeouts s !! k); [|apply handlesKept_refl].
  destruct (decide _); [apply handlesKept_refl|]. by split.
Qed.

Lemma scheduleTimeout_handlesKept (cb : TimeoutCallback) (delay : Z) (s : State) :
  handlesKept s (scheduleTimeout cb delay s).
Proof.
  eapply handlesKept_trans; [apply (clearLiveTimeout_handlesKept (callbackKey cb))|].
  unfold scheduleTimeout. split; [done|]. intros k Hk. simpl.
  destruct (decide (callbackKey cb = k)) as [->|Hne].
  - rewrite lookup_insert_eq. by eexists.
  - by rewrite lookup_insert_ne.
Qed.

Lemma requestActivation_handlesKept (s : State) :
  handlesKept s (requestActivation s).
Proof.
  unfold requestActivation. destruct (decide _); [apply handlesKept_refl|].
  split; [|done]. simpl. set_solver.
Qed.

Section Handles.
Variable props : ITransitionGroupProps.

Lemma removedEffect_handlesKept (arrayChildren : list ReactElement) (s : State) :
  handlesKept s (removedEffect props arrayChildren s).
Proof.
  unfold removedEffect.
  destruct (items_of _) as [|r removed]; [apply handlesKept_refl|].
  change (handlesKept s
            (fold_left (fun s' e => scheduleRemoveLeavingChild props (key (element e)) s')
                       (r :: removed) s)).
  apply fold_left_handlesKept.
  intros a x. rewrite scheduleRemoveLeavingChild_shape. apply scheduleTimeout_handlesKept.
Qed.

Lemma addedEffect_handlesKept (addedChildren : list IElementWithIndex) (s : State) :
  handlesKept s (addedEffect props addedChildren s).
Proof.
  unfold addedEffect.
  destruct addedChildren as [|r added]; [apply handlesKept_refl|].
  change (handlesKept s
            (fold_left
               (fun s' e =>
                  scheduleSettleEnteringChild props (key (element e))
                    (setEnteringChildren (fun local => {[key (element e)]} ∪ local) s'))
               (r :: added) s)).
  apply fold_left_handlesKept.
  intros a x. rewrite scheduleSettleEnteringChild_shape.
  apply (scheduleTimeout_handlesKept _ _
           (setEnteringChildren (fun local => {[key (element x)]} ∪ local) a)).
Qed.

Lemma update_handlesKept (children : ChildrenProp) (s : State) :
  handlesKept s (update props children s).
Proof.
  unfold update.
  eapply handlesKept_trans; [apply requestActivation_handlesKept|].
  eapply handlesKept_trans; [apply removedEffect_handlesKept|].
  eapply handlesKept_trans; [apply addedEffect_handlesKept|].
  apply (requestActivation_handlesKept (setOldChildren _ _)).
Qed.

Lemma fireTimeout_handlesKept (h : nat) (s : State) : handlesKept s (fireTimeout h s).
Proof.
  unfold fireTimeout.
  destruct (timeouts s !! h) as [[cb d]|]; [|apply handlesKept_refl].
  destruct cb as [k|k].
  - apply (requestActivation_handlesKept (settleEnteringChild k (takeTimeout h s))).
  - apply (requestActivation_handlesKept
             (setLeavingChildren (removeLeavingChild k) (takeTimeout h s))).
Qed.

Lemma fireFrame_handlesKept (h : nat) (s : State) : handlesKept s (fireFrame h s).
Proof.
  unfold fireFrame.
  destruct (frames s !! h) as [[captured|captured]|]; [| |apply handlesKept_refl].
  - split; [|done]. simpl. set_solver.
  - apply (requestActivation_handlesKept
             (setInactiveChildren (fun cur => cur ∖ captured) (takeFrame h s))).
Qed.

(** X13. A child whose key is not among the previous children starts to
    enter: its key is entering and inactive, it is rendered with the class
    ["<name>-enter"] alone, a settle timer with delay
    [transitionEnterTimeout] is pending for its key, no remove timer is,
    and no entry of the leaving registry has its key. *)
Theorem added_child_starts_entering (children : ChildrenProp) (s : State)
    (c : ReactElement) :
  reachable props s ->
  c ∈ items_of (toArray children) ->
  key c ∉ map key (oldChildren s) ->
  let s' := update props children s in
  key c ∈ enteringChildren s'
  /\ key c ∈ inactiveChildren s'
  /\ (forall e, e ∈ leavingChildren s' -> key (element e) <> key c)
  /\ (exists h, timeouts s' !! h
                = Some (SettleEnteringChild (key c), transitionEnterTimeout props))
  /\ (forall h d, timeouts s' !! h <> Some (RemoveLeavingChild (key c), d))
  /\ renderChild (transitionName props) (wrapWith props)
                 (enteringChildren s') (inactiveChildren s') c
     = cloneWithClassName c (transitionName props +:+ "-enter") (wrapWith props).
Proof.
  intros Hreach Hc Hk s'.
  pose proof (reachable_wf props s Hreach) as Hwf.
  assert (Hadded : key c ∈ keysOf (items_of (elementDiff (items_of (toArray children))
                                               (oldChildren s)))).
  { apply added_key; rewrite keySet_spec; [|done].
    by apply (list_elem_of_fmap_2 key). }
  destruct (update_fields props children s) as (Hl & _ & He & Hi).
  fold s' in Hl, He, Hi.
  assert (Hent : key c ∈ enteringChildren s') by (rewrite He; set_solver).
  assert (Hina : key c ∈ inactiveChildren s') by (rewrite Hi; set_solver).
  destruct (update_settle_pending props children s (key c) Hwf Hadded) as [h Hh].
  fold s' in Hh.
  split; [done|]. split; [done|]. split; [|split; [by exists h|split]].
  - intros e He' Heq. rewrite Hl in He'. apply dropAdded_spec in He' as [_ Hnot].
    apply Hnot. by rewrite Heq.
  - intros h' d' Hh'.
    pose proof (update_wf props children s Hwf) as Hwf'. fold s' in Hwf'.
    by destruct (timersWf_onePendingPerKey s' Hwf' _ _ _ _ _ _ Hh Hh' eq_refl)
      as (_ & ? & _).
  - unfold renderChild. by rewrite !bool_decide_eq_true_2.
Qed.

(** X14. The first render animates nothing: after mounting, nothing is
    entering, inactive or leaving, no timeout and no animation frame is
    pending, and the output is the children, nulls dropped, in order,
    each with the empty transition class. *)
Theorem first_render_animates_nothing (children : ChildrenProp) :
  let s := mount props children in
  enteringChildren s = ∅
  /\ inactiveChildren s = ∅
  /\ leavingChildren s = []
  /\ timeouts s = ∅
  /\ frames s = ∅
  /\ output props s
     = Some ((fun c => Some (cloneWithClassName c EmptyString (wrapWith props)))
               <$> items_of (toArray children)).
Proof.
  intros s. unfold s. rewrite mount_initialState.
  do 5 (split; [done|]).
  unfold output. simpl. rewrite childrenToRender_nothing_leaving. reflexivity.
Qed.

(** X15. The stores of live handles only grow. Whatever events arrive, a
    handle once in [liveActivationTimeouts] stays in it, and a key once
    recorded in [liveTimeouts] stays recorded: the component never
    deletes from either, also not when the timeout or the frame has
    fired. *)
Theorem live_handles_are_never_forgotten (evs : list Event) (s : State) :
  liveActivationTimeouts s ⊆ liveActivationTimeouts (run props evs s)
  /\ (forall k, is_Some (liveTimeouts s !! k) ->
        is_Some (liveTimeouts (run props evs s) !! k)).
Proof.
  change (handlesKept s (run props evs s)). unfold run.
  apply fold_left_handlesKept. intros a [children|h|h]; simpl.
  - apply update_handlesKept.
  - apply fireTimeout_handlesKept.
  - apply fireFrame_handlesKept.
Qed.
End Handles.

(** [D] added to the mounted [A, B, C] starts to enter. *)
Lemma added_child_starts_entering_witness :
  "D" ∈ enteringChildren enteringD /\ "D" ∈ inactiveChildren enteringD.
Proof.
  assert (Hc : itemD ∈ items_of (toArray (childArray [itemA; itemB; itemC; itemD])))
    by (apply list_elem_of_In; vm_compute; do 3 right; left; reflexivity).
  assert (Hk : key itemD ∉ map key (oldChildren mountedABC)).
  { intros Hin. apply list_elem_of_In in Hin. vm_compute in Hin.
    destruct Hin as [Hin|[Hin|[Hin|[]]]]; discriminate Hin. }
  destruct (added_child_starts_entering sampleProps
              (childArray [itemA; itemB; itemC; itemD]) mountedABC itemD
              (reachable_mount _ _) Hc Hk) as (Hent & Hina & _).
  split; [exact Hent|exact Hina].
Defined.

(** ** The first variant ([TransitionGroup.tsx]) *)

Lemma elem_of_setAdd_fold (l acc : list Key) (k : Key) :
  k ∈ fold_left setAdd l acc <-> k ∈ acc \/ k ∈ l.
Proof.
  revert acc. induction l as [|x l IH]; intros acc; simpl.
  - split; [by left|]. intros [?|Hk]; [done|by apply elem_of_nil in Hk].
  - rewrite IH. unfold setAdd. destruct (decide (x ∈ acc)) as [Hx|Hx].
    + rewrite elem_of_cons. split; [tauto|]. intros [?|[->|?]]; tauto.
    + rewrite elem_of_app, list_elem_of_singleton, elem_of_cons. tauto.
Qed.

Lemma setAdd_fold_NoDup (l acc : list Key) :
  NoDup (acc ++ l) -> fold_left setAdd l acc = acc ++ l.
Proof.
  revert acc. induction l as [|x l IH]; intros acc Hnd; simpl.
  - by rewrite app_nil_r.
  - unfold setAdd. destruct (decide (x ∈ acc)) as [Hx|Hx].
    + apply NoDup_app in Hnd as (_ & Hdisj & _). exfalso.
      apply (Hdisj x Hx). left.
    + rewrite IH; rewrite <- app_assoc; done.
Qed.

Lemma elem_of_getKeys (array : Children1) (k : Key) :
  k ∈ getKeys array <-> k ∈ keySet (toArray1 array).
Proof.
  unfold getKeys. rewrite elem_of_setAdd_fold, keySet_spec.
  split; [intros [Hk|?]; [by apply elem_of_nil in Hk|done]|by right].
Qed.

Lemma scanLeaving_from (item : IElementWithIndex) (l : list IElementWithIndex)
    (acc : Z) (kept : list IElementWithIndex) :
  fold_left
    (fun '(indexPush, kept) l =>
       (if index l <=? index item + indexPush then indexPush + 1 else indexPush,
        if decide (key (element l) = key (element item)) then kept ++ [l] else kept))
    l (acc, kept)
  = (offsetWalk l (index item) acc,
     kept ++ List.filter (fun l => bool_decide (key (element l) = key (element item))) l).
Proof.
  revert acc kept. induction l as [|x l IH]; intros acc kept; simpl.
  - by rewrite app_nil_r.
  - rewrite IH. destruct (index x <=? index item + acc);
      destruct (decide (key (element x) = key (element item))) as [Hk|Hk].
    + rewrite (bool_decide_eq_true_2 _ Hk). by rewrite <- app_assoc.
    + by rewrite (bool_decide_eq_false_2 _ Hk).
    + rewrite (bool_decide_eq_true_2 _ Hk). by rewrite <- app_assoc.
    + by rewrite (bool_decide_eq_false_2 _ Hk).
Qed.

Lemma scanLeaving_spec (item : IElementWithIndex) (l : list IElementWithIndex) :
  scanLeaving item l
  = (offsetWalk l (index item) 0,
     List.filter (fun l => bool_decide (key (element l) = key (element item))) l).
Proof. apply scanLeaving_from. Qed.

Lemma already_leaving (item : IElementWithIndex) (l : list IElementWithIndex) :
  negb (length (List.filter
                  (fun l => bool_decide (key (element l) = key (element item))) l)
        =? 0)%nat
  = bool_decide (key (element item) ∈ keysOf l).
Proof.
  destruct (bool_decide_reflect (key (element item) ∈ keysOf l)) as [Hin|Hout].
  - apply keysOf_spec in Hin as (e & He & Hk).
    assert (Hf : e ∈ List.filter
                   (fun l => bool_decide (key (element l) = key (element item))) l)
      by (apply elem_of_List_filter; split; [done|by apply bool_decide_eq_true]).
    destruct (List.filter _ l); [by apply elem_of_nil in Hf|done].
  - rewrite List_filter_none; [done|]. intros e He.
    apply bool_decide_eq_false. intros Hk. apply Hout, keysOf_spec. by exists e.
Qed.

Lemma getNewLeavingChildren_from (oldItems l memo : list IElementWithIndex) :
  fold_left
    (fun memoArray item =>
       let '(indexPush, kept) := scanLeaving item l in
       let isAlreadyLeaving := negb (length kept =? 0)%nat in
       if isAlreadyLeaving then memoArray
       else memoArray ++ [mkIndexed (element item) (index item + indexPush)])
    oldItems memo
  = memo ++ map (fun item => mkIndexed (element item) (mergedIndex l (index item)))
                (List.filter
                   (fun item => negb (bool_decide (key (element item) ∈ keysOf l)))
                   oldItems).
Proof.
  revert memo. induction oldItems as [|item oldItems IH]; intros memo; simpl.
  - by rewrite app_nil_r.
  - rewrite scanLeaving_spec. cbv zeta. rewrite already_leaving.
    destruct (bool_decide (key (element item) ∈ keysOf l)); simpl.
    + apply IH.
    + rewrite IH. by rewrite <- app_assoc.
Qed.

(** X16. [getNewLeavingChildren] of the first variant skips the old items
    whose key is already leaving and gives every other one, in order, its
    element with the merged index of the final variant's walk. So when no
    old item is already leaving, the registry
    [leavingChildren.concat(newLeavingChildren)] of the first variant,
    sorted by index, is [mergeInRemovedChildren] of the final variant. *)
Theorem getNewLeavingChildren_spec (oldItems leavingChildren : list IElementWithIndex) :
  getNewLeavingChildren oldItems leavingChildren
  = map (fun item => mkIndexed (element item)
                       (mergedIndex leavingChildren (index item)))
        (List.filter
           (fun item => negb (bool_decide (key (element item) ∈ keysOf leavingChildren)))
           oldItems)
  /\ ((forall item, item ∈ oldItems -> key (element item) ∉ keysOf leavingChildren) ->
      sortByIndex (leavingChildren ++ getNewLeavingChildren oldItems leavingChildren)
      = mergeInRemovedChildren oldItems leavingChildren).
Proof.
  assert (Hspec : getNewLeavingChildren oldItems leavingChildren
                  = map (fun item => mkIndexed (element item)
                                       (mergedIndex leavingChildren (index item)))
                        (List.filter
                           (fun item => negb (bool_decide
                                                (key (element item)
                                                 ∈ keysOf leavingChildren)))
                           oldItems))
    by apply (getNewLeavingChildren_from oldItems leavingChildren []).
  split; [exact Hspec|].
  intros Hfresh. rewrite Hspec. unfold mergeInRemovedChildren. f_equal. f_equal.
  rewrite (List.filter_ext_in _ (fun _ => true)).
  - rewrite filter_true. apply map_ext. intros r. by rewrite indexPush_offsetWalk.
  - intros item Hitem. apply negb_true_iff, bool_decide_eq_false, Hfresh.
    by apply list_elem_of_In.
Qed.

Lemma getOldAndNewItems_from (oldArray : list ReactElement) (currentArray : Children1) :
  fst (getOldAndNewItems oldArray currentArray)
  = items_of (elementDiff oldArray (toArray1 currentArray))
  /\ (NoDup (map key (toArray1 currentArray)) ->
      snd (getOldAndNewItems oldArray currentArray)
      = map (fun e => key (element e))
            (items_of (elementDiff (toArray1 currentArray) oldArray))).
Proof.
  unfold getOldAndNewItems. simpl. split.
  - rewrite elementDiff_items. apply List.filter_ext_in. intros ei _. f_equal.
    apply bool_decide_ext, elem_of_getKeys.
  - intros Hnd. rewrite elementDiff_items.
    assert (Hkeys : getKeys currentArray = map key (toArray1 currentArray))
      by (unfold getKeys; by rewrite setAdd_fold_NoDup).
    rewrite Hkeys.
    pose (g := fun k : Key => negb (bool_decide (k ∈ keySet oldArray))).
    etrans; [|symmetry;
              exact (map_List_filter (fun e => key (element e)) g
                       (withIndex (toArray1 currentArray)))].
    rewrite withIndex_keys.
    apply List.filter_ext_in. intros k _. unfold g. f_equal.
    apply bool_decide_ext. apply (elem_of_getKeys (ManyChildren oldArray)).
Qed.

(** X17. [getOldAndNewItems] of the first variant: its [oldItems] are the
    removed children of the final variant's [elementDiff], and, when the
    current children have pairwise distinct keys, its [newKeys] are the
    keys of the added children of [elementDiff], in the same order. *)
Theorem getOldAndNewItems_spec (oldArray : list ReactElement) (currentArray : Children1) :
  fst (getOldAndNewItems oldArray currentArray)
  = items_of (elementDiff oldArray (toArray1 currentArray))
  /\ (NoDup (map key (toArray1 currentArray)) ->
      snd (getOldAndNewItems oldArray currentArray)
      = map (fun e => key (element e))
            (items_of (elementDiff (toArray1 currentArray) oldArray))).
Proof. apply getOldAndNewItems_from. Qed.

Section Loop1.
Variable className : string.
Variables enteringKeys activeKeys : gset Key.
Variable arrayChildren : list ReactElement.

#[local] Abbreviation renderItem1 :=
  (fun child : ReactElement =>
     cloneWithClassName child
       (itemClassName1 className enteringKeys activeKeys (key child)) None).
#[local] Abbreviation placeLeaving1' := (placeLeaving1 className).
#[local] Abbreviation renderLoop1' :=
  (renderLoop1 className enteringKeys activeKeys arrayChildren).

Lemma renderLoop1_fillRest1 (count index childIndex : nat) (arr : JsArray) :
  (index + count = length arr)%nat ->
  renderLoop1' count index childIndex arr
  = app (take index arr)
      <$> fillRest1 renderItem1 (drop index arr) (drop childIndex arrayChildren).
Proof.
  revert index childIndex arr.
  induction count as [|count IH]; intros index childIndex arr Hlen; simpl.
  - rewrite drop_ge by lia. simpl. rewrite take_ge by lia.
    by rewrite app_nil_r.
  - destruct (lookup_lt_is_Some_2 arr index) as [slot Hslot]; [lia|].
    rewrite Hslot. rewrite (drop_S _ _ _ Hslot).
    destruct (arrayChildren !! childIndex) as [child|] eqn:Hchild.
    + rewrite (drop_S _ _ _ Hchild).
      destruct slot as [r|]; simpl.
      * rewrite IH by lia. rewrite (take_S_r _ _ _ Hslot).
        rewrite <- (drop_S _ _ _ Hchild).
        destruct (fillRest1 _ _ _); simpl; [|done].
        by rewrite <- app_assoc.
      * rewrite arraySet_inside by lia.
        rewrite IH by (rewrite length_insert; lia).
        rewrite drop_insert_lt by lia.
        erewrite take_S_r by (apply list_lookup_insert_eq; lia).
        rewrite take_insert_ge by lia.
        destruct (fillRest1 _ _ _); simpl; [|done].
        by rewrite <- app_assoc.
    + rewrite (drop_ge arrayChildren) by (by apply lookup_ge_None). done.
Qed.

(** The first pass leaves a hole exactly where no leaving item points. *)
Lemma placeLeaving1_holes (l : list IElementWithIndex) (arr : JsArray) :
  Forall (fun e => 0 <= index e < Z.of_nat (length arr)) l ->
  length (fold_left placeLeaving1' l arr) = length arr
  /\ (forall i : nat,
        fold_left placeLeaving1' l arr !! i = Some None
        <-> arr !! i = Some None /\ Z.of_nat i ∉ map index l).
Proof.
  revert arr. induction l as [|e l IH]; intros arr Hin; simpl.
  - split; [done|]. intros i. split; [|by intros [? _]].
    intros Hi. split; [done|]. apply not_elem_of_nil.
  - apply Forall_cons in Hin as [He Hin].
    assert (Hset : placeLeaving1' arr e
                   = <[Z.to_nat (index e)
                       := Some (cloneWithClassName (element e)
                                  (leavingClassName1 className) None)]> arr)
      by (by apply arraySet_inside_Z).
    assert (Hlen : length (placeLeaving1' arr e) = length arr)
      by (by rewrite Hset, length_insert).
    destruct (IH (placeLeaving1' arr e)) as (IHlen & IHholes).
    { by rewrite Hlen. }
    split; [congruence|]. intros i. rewrite IHholes, Hset, not_elem_of_cons.
    destruct (decide (Z.to_nat (index e) = i)) as [<-|Hne].
    + rewrite list_lookup_insert_eq by lia. split; [by intros [? _]|].
      intros [_ [Hne _]]. lia.
    + rewrite list_lookup_insert_ne by done. split.
      * intros [? ?]. split; [done|]. split; [lia|done].
      * intros [? [_ ?]]. done.
Qed.

Lemma holesFrom_last (slots : JsArray) (base : nat) :
  last slots = Some None -> holesFrom base slots <> [].
Proof.
  revert base. induction slots as [|slot slots IH]; intros base Hlast; [done|].
  destruct slots as [|slot' slots].
  - simpl in Hlast. injection Hlast as ->. done.
  - rewrite last_cons_cons in Hlast. simpl.
    destruct slot; [by apply IH|done].
Qed.

(** The loop returns exactly when the last slot is a hole, if there are as
    many holes as children. *)
Lemma fillRest1_returns (render : ReactElement -> Rendered)
    (slots : JsArray) (rest : list ReactElement) (base : nat) :
  length (holesFrom base slots) = length rest ->
  is_Some (fillRest1 render slots rest) <-> slots = [] \/ last slots = Some None.
Proof.
  revert rest base. induction slots as [|slot slots IH]; intros rest base Hlen.
  - simpl. split; [by left|by eexists].
  - destruct rest as [|child rest].
    + simpl. split; [by intros [? ?]|]. intros [?|Hlast]; [done|].
      apply (holesFrom_last _ base) in Hlast.
      by destruct (holesFrom base (slot :: slots)).
    + destruct slot as [r|]; simpl in *.
      * rewrite fmap_is_Some, (IH (child :: rest) (S base) Hlen).
        destruct slots as [|slot' slots]; [done|].
        rewrite last_cons_cons. split; intros [?|?]; try done; by right.
      * rewrite fmap_is_Some, (IH rest (S base)) by lia.
        destruct slots as [|slot' slots].
        -- split; [by right|by left].
        -- rewrite last_cons_cons. split; intros [?|?]; try done; by right.
Qed.

Lemma newChildren1_returns (allLeavingChildren : list IElementWithIndex) :
  let total := (length arrayChildren + length allLeavingChildren)%nat in
  registryFits total allLeavingChildren ->
  is_Some (newChildren1 className enteringKeys activeKeys arrayChildren
                        allLeavingChildren)
  <-> total = 0%nat \/ Z.of_nat (total - 1) ∉ map index allLeavingChildren.
Proof.
  intros total Hfits. unfold newChildren1. fold total.
  set (placed := fold_left placeLeaving1' allLeavingChildren (newArray total)).
  destruct (placeLeaving1_holes allLeavingChildren (newArray total))
    as (Hlen & Hholes).
  { unfold newArray. rewrite length_replicate. apply Hfits. }
  fold placed in Hlen, Hholes.
  unfold newArray in Hlen. rewrite length_replicate in Hlen.
  assert (Hhole : forall i, (i < total)%nat ->
                    placed !! i = Some None
                    <-> Z.of_nat i ∉ map index allLeavingChildren).
  { intros i Hi. rewrite Hholes. unfold newArray.
    rewrite lookup_replicate_2 by done. tauto. }
  rewrite renderLoop1_fillRest1 by lia.
  rewrite fmap_is_Some, !drop_0.
  rewrite (fillRest1_returns _ placed arrayChildren 0).
  - rewrite last_lookup, Hlen.
    destruct total as [|t] eqn:Ht.
    + apply nil_length_inv in Hlen. rewrite Hlen. split; intros _; by left.
    + replace (S t - 1)%nat with t by lia. simpl.
      rewrite (Hhole t) by lia.
      split.
      * intros [Hnil|Hfree]; [rewrite Hnil in Hlen; done|by right].
      * intros [Hzero|Hfree]; [done|by right].
  - rewrite (holesFrom_filter
               (fun i : nat => Z.of_nat i ∉ map index allLeavingChildren)).
    + rewrite Hlen. pose proof (freeSlots_length total allLeavingChildren Hfits) as Hf.
      unfold freeSlots in Hf. unfold total in *. lia.
    + intros i Hi. simpl. rewrite Hlen in Hi. by rewrite Hhole.
Qed.

(** X18. The loop of the first variant reads [arrayChildren[oldIndex].key]
    before it looks at the slot. With a registry whose indices are
    pairwise distinct and within [0, total), the effect therefore gets its
    array exactly when there is nothing to render or the last slot is not
    the slot of a leaving item; when a leaving item is last, it throws. *)
Theorem first_variant_returns_iff_last_slot_is_free
    (allLeavingChildren : list IElementWithIndex) :
  registryFits (length arrayChildren + length allLeavingChildren) allLeavingChildren ->
  (exists out,
      newChildren1 className enteringKeys activeKeys arrayChildren allLeavingChildren
      = Some out)
  <-> (length arrayChildren + length allLeavingChildren = 0)%nat
      \/ Z.of_nat (length arrayChildren + length allLeavingChildren - 1)
         ∉ map index allLeavingChildren.
Proof.
  intros Hfits. rewrite <- (newChildren1_returns allLeavingChildren Hfits).
  unfold is_Some. done.
Qed.
End Loop1.

(** X19. In the first variant, removing the last child makes the effect
    throw: when the children had pairwise distinct keys, nothing was
    leaving, and the new children are the old ones with some filtered out,
    the last among them, the loop reads the key of
    [arrayChildren[arrayChildren.length]]. *)
Theorem first_variant_throws_when_the_last_child_is_removed
    (className : string) (old : list ReactElement) (x : ReactElement)
    (keep : ReactElement -> bool) (enteringKeys activeKeys : gset Key) :
  NoDup (map key (old ++ [x])) ->
  keep x = false ->
  effectNewChildren className (ManyChildren (old ++ [x]))
                    (ManyChildren (List.filter keep (old ++ [x])))
                    [] enteringKeys activeKeys
  = None.
Proof.
  intros Hnd Hx. unfold effectNewChildren.
  destruct (getOldAndNewItems (toArray1 (ManyChildren (old ++ [x])))
              (ManyChildren (toArray1 (ManyChildren
                                         (List.filter keep (old ++ [x]))))))
    as [oldItems newKeys] eqn:Hpair.
  simpl toArray1 in *.
  set (all := old ++ [x]) in *. set (new := List.filter keep all) in *.
  assert (Hold : oldItems = items_of (elementDiff all new)).
  { pose proof (proj1 (getOldAndNewItems_from all (ManyChildren new))) as Hfst.
    rewrite Hpair in Hfst. exact Hfst. }
  assert (Hnew : getNewLeavingChildren oldItems [] = oldItems).
  { etrans; [exact (getNewLeavingChildren_from oldItems [] [])|]. simpl.
    rewrite (List.filter_ext_in _ (fun _ => true)) by done.
    rewrite filter_true. rewrite <- (map_id oldItems) at 2.
    apply map_ext. intros [c i]. unfold mergedIndex. simpl. f_equal. lia. }
  rewrite Hnew. simpl app.
  set (enteringAtLoop := enteringKeys ∪ list_to_set newKeys).
  assert (Hkeep : forall c, c ∈ all -> bool_decide (key c ∈ keySet new) = keep c).
  { intros c Hc. destruct (keep c) eqn:Hk.
    - apply bool_decide_eq_true. apply keySet_spec.
      apply (list_elem_of_fmap_2 key). by apply elem_of_List_filter.
    - apply bool_decide_eq_false. rewrite keySet_spec. intros Hin.
      apply list_elem_of_fmap in Hin as (c' & Heq & Hc').
      apply elem_of_List_filter in Hc' as [Hc' Hk'].
      assert (c = c') by (by apply (NoDup_map_inj key all)).
      subst. congruence. }
  assert (Hlen : (length new + length oldItems = length all)%nat).
  { rewrite Hold, elementDiff_items.
    pose proof (List_filter_split
                  (fun ei => bool_decide (key (element ei) ∈ keySet new))
                  (withIndex all)) as Hsplit.
    rewrite withIndex_length in Hsplit.
    assert (Hk : length (List.filter
                           (fun ei => bool_decide (key (element ei) ∈ keySet new))
                           (withIndex all)) = length new).
    { rewrite <- (length_map element).
      pose (g := fun c : ReactElement => bool_decide (key c ∈ keySet new)).
      etrans; [exact (f_equal length (map_List_filter element g (withIndex all)))|].
      rewrite withIndex_elements. unfold g, new. f_equal.
      apply List.filter_ext_in. intros c Hc. apply Hkeep. by apply list_elem_of_In. }
    lia. }
  assert (Hfits : registryFits (length new + length oldItems) oldItems).
  { rewrite Hlen, Hold. split.
    - apply StronglySorted_indexLt_NoDup, elementDiff_sorted.
    - apply elementDiff_range. }
  assert (Hlast : Z.of_nat (length new + length oldItems - 1) ∈ map index oldItems).
  { rewrite Hlen. unfold all at 1. rewrite length_app. simpl.
    replace (length old + 1 - 1)%nat with (length old) by lia.
    apply list_elem_of_fmap. exists (mkIndexed x (Z.of_nat (length old))).
    split; [done|]. rewrite Hold. apply elem_of_elementDiff.
    rewrite Nat2Z.id. split; [lia|]. split.
    - unfold all. by rewrite list_lookup_middle.
    - rewrite <- keySet_spec. intros Hin.
      assert (Hxall : x ∈ all) by (apply elem_of_app; right; left).
      pose proof (Hkeep x Hxall) as Hb. rewrite Hx in Hb.
      by apply bool_decide_eq_false in Hb. }
  pose proof (newChildren1_returns className enteringAtLoop activeKeys new oldItems
                Hfits) as Hiff.
  destruct (newChildren1 className enteringAtLoop activeKeys new oldItems) as [out|];
    [|done].
  exfalso. destruct (proj1 Hiff) as [Hzero|Hfree]; [by eexists| |done].
  rewrite Hlen in Hzero. unfold all in Hzero. rewrite length_app in Hzero.
  simpl in Hzero. lia.
Qed.

(** The theorem for the child [A] before the leaving [B]: the last slot is
    the slot of [B]. *)
Lemma first_variant_returns_iff_last_slot_is_free_witness :
  (exists out, newChildren1 "fade" ∅ ∅ [itemA] [mkIndexed itemB 1] = Some out)
  <-> (length [itemA] + length [mkIndexed itemB 1] = 0)%nat
      \/ Z.of_nat (length [itemA] + length [mkIndexed itemB 1] - 1)
         ∉ map index [mkIndexed itemB 1].
Proof.
  apply (first_variant_returns_iff_last_slot_is_free "fade" ∅ ∅ [itemA]
           [mkIndexed itemB 1]).
  split.
  - simpl. apply NoDup_singleton.
  - repeat constructor; simpl; lia.
Defined.

(** The theorem when [C] is filtered out of [A, B, C]. *)
Lemma first_variant_throws_when_the_last_child_is_removed_witness :
  effectNewChildren "fade" (ManyChildren ([itemA; itemB] ++ [itemC]))
                    (ManyChildren
                       (List.filter (fun c => negb (String.eqb (key c) "C"))
                                    ([itemA; itemB] ++ [itemC])))
                    [] ∅ ∅
  = None.
Proof.
  apply (first_variant_throws_when_the_last_child_is_removed "fade" [itemA; itemB]
           itemC (fun c => negb (String.eqb (key c) "C")) ∅ ∅).
  - simpl. repeat (apply NoDup_cons; split; [set_solver|]). apply NoDup_nil_2.
  - reflexivity.
Defined.

(** ** The leave timers of the first variant *)

Lemma fireLeaveTimeout_wf (h : nat) (t : LeaveTimers) :
  leaveTimersWf t -> leaveTimersWf (fireLeaveTimeout h t).
Proof.
  intros [Hlive Hrange]. unfold fireLeaveTimeout.
  destruct (pendingLeave t !! h) as [k|]; [|done].
  apply cancelLeavingItem_wf. split; simpl; [|done].
  intros h' k' Hh'. apply lookup_delete_Some in Hh' as [_ Hh']. by apply Hlive.
Qed.

Lemma leaveStep_wf (t : LeaveTimers) (op : LeaveOp) :
  leaveTimersWf t -> leaveTimersWf (leaveStep t op).
Proof.
  intros Hwf. destruct op as [k|k|h]; simpl.
  - by apply setItemToLeave_wf.
  - by apply cancelLeavingItem_wf.
  - by apply fireLeaveTimeout_wf.
Qed.

Lemma noLeaveTimers_wf : leaveTimersWf noLeaveTimers.
Proof. split; simpl; intros ? ? H; by rewrite lookup_empty in H. Qed.

Lemma fold_left_preserves_in {A B} (P : A -> Prop) (f : A -> B -> A) (l : list B)
    (a : A) :
  (forall a x, x ∈ l -> P a -> P (f a x)) -> P a -> P (fold_left f l a).
Proof.
  revert a. induction l as [|x l IH]; intros a Hf Ha; simpl; [done|].
  apply IH.
  - intros a' y Hy. apply Hf. by right.
  - apply Hf; [left|done].
Qed.

Lemma cancelLeavingItem_cancels (k : Key) (t : LeaveTimers) (h : nat) :
  leaveTimersWf t -> pendingLeave (cancelLeavingItem k t) !! h <> Some k.
Proof.
  intros [Hlive _] Hh. unfold cancelLeavingItem in Hh.
  destruct (leaveTimeouts t !! k) as [h0|] eqn:Hk; simpl in Hh.
  - apply lookup_delete_Some in Hh as [Hne Hh]. apply Hlive in Hh. congruence.
  - apply Hlive in Hh. congruence.
Qed.

Lemma cancelLeavingItem_pending (k : Key) (t : LeaveTimers) (h : nat) (k' : Key) :
  pendingLeave (cancelLeavingItem k t) !! h = Some k' ->
  pendingLeave t !! h = Some k'.
Proof.
  unfold cancelLeavingItem. destruct (leaveTimeouts t !! k); simpl; [|done].
  intros Hh. by apply lookup_delete_Some in Hh as [_ ?].
Qed.

Lemma setItemToLeave_pending (k : Key) (t : LeaveTimers) (h : nat) (k' : Key) :
  pendingLeave (setItemToLeave k t) !! h = Some k' ->
  k' = k \/ pendingLeave t !! h = Some k'.
Proof.
  unfold setItemToLeave. destruct (leaveTimeouts t !! k); simpl; [by right|].
  intros Hh. apply lookup_insert_Some in Hh as [[_ <-]|[_ Hh]]; [by left|by right].
Qed.

(** X20. The first variant keeps at most one leave timeout per key, by a
    guard instead of a cancellation: after any sequence of
    [setItemToLeave], [cancelLeavingItem] and fired leave timeouts, two
    pending leave timeouts of one key are the same timeout, and while one
    is pending a [setItemToLeave] for its key changes nothing (the running
    timeout is not restarted). *)
Theorem first_variant_one_leave_timeout_per_key (ops : list LeaveOp) :
  let t := fold_left leaveStep ops noLeaveTimers in
  (forall h1 h2 k,
      pendingLeave t !! h1 = Some k -> pendingLeave t !! h2 = Some k -> h1 = h2)
  /\ (forall h k, pendingLeave t !! h = Some k -> setItemToLeave k t = t).
Proof.
  intros t.
  assert (Hwf : leaveTimersWf t).
  { unfold t. apply fold_left_preserves; [apply leaveStep_wf|apply noLeaveTimers_wf]. }
  destruct Hwf as [Hlive _]. split.
  - intros h1 h2 k H1 H2. apply Hlive in H1, H2. congruence.
  - intros h k Hh. apply Hlive in Hh. by eapply setItemToLeave_while_pending.
Qed.

(** X21. In the first variant a key that comes back while it is leaving
    stays in the registry: one run of the effect cancels its leave timeout
    but never takes an entry out of [leavingChildren], so the entry is
    kept and no leave timeout is pending for it any more. *)
Theorem first_variant_keeps_a_reinstated_key_leaving
    (oldChildren children : Children1) (leavingChildren : list IElementWithIndex)
    (t : LeaveTimers) (e : IElementWithIndex) :
  leaveTimersWf t ->
  e ∈ leavingChildren ->
  key (element e) ∈ map key (toArray1 children) ->
  key (element e) ∉ map key (toArray1 oldChildren) ->
  e ∈ effectLeavingChildren oldChildren children leavingChildren
  /\ (forall h, pendingLeave (effectLeaveTimers oldChildren children t) !! h
                <> Some (key (element e))).
Proof.
  intros Hwf He Hnew Hold.
  unfold effectLeavingChildren, effectLeaveTimers, getOldAndNewItems.
  split; [apply elem_of_app; by left|].
  set (k := key (element e)) in *.
  set (newKeys := List.filter _ (getKeys (ManyChildren (toArray1 children)))).
  set (oldItems := List.filter _ (withIndex (toArray1 oldChildren))).
  assert (Hk : k ∈ newKeys).
  { apply elem_of_List_filter. split.
    - apply (elem_of_getKeys (ManyChildren (toArray1 children))), keySet_spec. done.
    - apply negb_true_iff, bool_decide_eq_false. intros Hin.
      apply (elem_of_getKeys (ManyChildren (toArray1 oldChildren))) in Hin.
      by apply keySet_spec in Hin. }
  set (Q := fun t' : LeaveTimers => leaveTimersWf t').
  set (P := fun t' : LeaveTimers =>
              leaveTimersWf t' /\ forall h, pendingLeave t' !! h <> Some k).
  assert (H1 : P (fold_left (fun t' k0 => cancelLeavingItem k0 t') newKeys t)).
  { apply (fold_left_reaches Q P (fun k0 => k0 = k)); try done.
    - intros a x Ha. by apply cancelLeavingItem_wf.
    - intros a x Ha ->. split; [by apply cancelLeavingItem_wf|].
      intros h. by apply cancelLeavingItem_cancels.
    - intros a x Ha [Hwfa Hnone]. split; [by apply cancelLeavingItem_wf|].
      intros h Hh. apply cancelLeavingItem_pending in Hh. by apply (Hnone h).
    - by exists k. }
  apply (fold_left_preserves_in P); [|exact H1].
  intros a item Hitem [Hwfa Hnone]. split; [by apply setItemToLeave_wf|].
  intros h Hh. apply setItemToLeave_pending in Hh as [Heq|Hh]; [|by apply (Hnone h)].
  apply Hold. rewrite Heq.
  apply elem_of_List_filter in Hitem as [Hitem _].
  destruct item as [c i]. apply elem_of_withIndex in Hitem as [_ Hc]. simpl.
  apply (list_elem_of_fmap_2 key). by eapply list_elem_of_lookup_2.
Qed.

(** The theorem when [B], leaving with a pending leave timeout, comes back
    to [A, C]. *)
Lemma first_variant_keeps_a_reinstated_key_leaving_witness :
  mkIndexed itemB 1
  ∈ effectLeavingChildren (ManyChildren [itemA; itemC])
      (ManyChildren [itemA; itemB; itemC]) [mkIndexed itemB 1]
  /\ (forall h,
        pendingLeave (effectLeaveTimers (ManyChildren [itemA; itemC])
                        (ManyChildren [itemA; itemB; itemC])
                        (setItemToLeave "B" noLeaveTimers)) !! h
        <> Some (key (element (mkIndexed itemB 1)))).
Proof.
  apply (first_variant_keeps_a_reinstated_key_leaving
           (ManyChildren [itemA; itemC]) (ManyChildren [itemA; itemB; itemC])
           [mkIndexed itemB 1] (setItemToLeave "B" noLeaveTimers) (mkIndexed itemB 1)).
  - apply setItemToLeave_wf, noLeaveTimers_wf.
  - apply list_elem_of_singleton. reflexivity.
  - apply list_elem_of_In. simpl. right. left. reflexivity.
  - intros Hin. apply list_elem_of_In in Hin. simpl in Hin.
    destruct Hin as [Hin|[Hin|[]]]; discriminate Hin.
Defined.

(** ** No transition is stuck *)

Section Progress.
Variable props : ITransitionGroupProps.

Lemma update_settleMatch (children : ChildrenProp) (s : State) :
  timersWf s -> settleMatch s -> settleMatch (update props children s).
Proof.
  intros Hwf Hmatch k Hent Hcur.
  destruct (update_fields props children s) as (_ & Ho & He & _).
  rewrite He in Hent. rewrite Ho in Hcur.
  apply (update_pending props children s _ Hwf).
  set (arrayChildren := items_of (toArray children)) in *.
  set (added := items_of (elementDiff arrayChildren (oldChildren s))) in *.
  destruct (decide (k ∈ keysOf added)) as [Hadded|Hnot].
  - left. apply keysOf_spec in Hadded as (a & Ha & <-). by exists a.
  - right. split.
    + intros a Ha Hk. apply Hnot, keysOf_spec. by exists a.
    + right. split.
      * intros r Hr Hk. simpl in Hk. subst k.
        by apply removed_key in Hr as [Hr _].
      * apply Hmatch; [set_solver|].
        destruct (decide (k ∈ keySet (oldChildren s))) as [?|Hold]; [done|].
        exfalso. apply Hnot. by apply added_key.
Qed.

Lemma fireTimeout_settleMatch (h : nat) (s : State) :
  timersWf s -> settleMatch s -> settleMatch (fireTimeout h s).
Proof.
  intros Hwf Hmatch k Hent Hcur.
  destruct (timeouts s !! h) as [[cb d]|] eqn:Hh.
  2:{ revert Hent Hcur. unfold fireTimeout. rewrite Hh. apply Hmatch. }
  destruct (fireTimeout_fields h s) as (Ho & _ & He & _).
  rewrite Ho in Hcur.
  apply (fireTimeout_pending h s cb d _ Hwf Hh). split.
  - intros <-. revert Hent. unfold fireTimeout. rewrite Hh.
    destruct (requestActivation_timers (settleEnteringChild k (takeTimeout h s)))
      as (_ & _ & _ & _ & _ & -> & _). simpl. set_solver.
  - apply Hmatch; [by apply He|done].
Qed.

Lemma fireFrame_settleMatch (h : nat) (s : State) :
  settleMatch s -> settleMatch (fireFrame h s).
Proof.
  intros Hmatch k.
  destruct (fireFrame_fields h s) as (Ho & _ & He & _ & Ht).
  unfold pendingCallback. rewrite Ho, He, Ht. apply Hmatch.
Qed.

Lemma reachable_settleMatch (s : State) : reachable props s -> settleMatch s.
Proof.
  induction 1 as [children|s ev Hreach IH].
  - rewrite mount_initialState. intros k Hk. simpl in Hk. set_solver.
  - pose proof (reachable_wf props s Hreach) as Hwf.
    destruct ev as [children|h|h]; simpl.
    + by apply update_settleMatch.
    + by apply fireTimeout_settleMatch.
    + by apply fireFrame_settleMatch.
Qed.

(** X22. No leaving child is stuck. In every reachable state each leaving
    child has a pending remove timer with delay [transitionLeaveTimeout],
    and when that timer fires no entry of the registry has the key of the
    child any more. *)
Theorem no_leaving_child_is_stuck (s : State) (e : IElementWithIndex) :
  reachable props s ->
  e ∈ leavingChildren s ->
  exists h,
    timeouts s !! h
    = Some (RemoveLeavingChild (key (element e)), transitionLeaveTimeout props)
    /\ (forall e', e' ∈ leavingChildren (fireTimeout h s) ->
          key (element e') <> key (element e)).
Proof.
  intros Hreach He.
  destruct (reachable_timersMatch props s Hreach) as (Hrem & _ & Hdelay).
  assert (Hpending : pendingCallback s (RemoveLeavingChild (key (element e))))
    by (apply Hrem, keysOf_spec; by exists e).
  destruct Hpending as (h & d & Hh).
  pose proof (Hdelay h _ d Hh) as Hd. simpl in Hd. subst d.
  exists h. split; [done|].
  destruct (fireTimeout_remove_fields h _ _ s Hh) as (-> & _).
  intros e' He'.
  by apply removeLeavingChild_elements in He' as (e0 & _ & -> & Hne).
Qed.

(** X23. No entering child is stuck. In every reachable state each
    current child whose key is entering has a pending settle timer with
    delay [transitionEnterTimeout], and when that timer fires the child is
    rendered with the empty transition class. *)
Theorem no_entering_child_is_stuck (s : State) (c : ReactElement) :
  reachable props s ->
  c ∈ oldChildren s ->
  key c ∈ enteringChildren s ->
  exists h,
    timeouts s !! h
    = Some (SettleEnteringChild (key c), transitionEnterTimeout props)
    /\ renderChild (transitionName props) (wrapWith props)
                   (enteringChildren (fireTimeout h s))
                   (inactiveChildren (fireTimeout h s)) c
       = cloneWithClassName c EmptyString (wrapWith props).
Proof.
  intros Hreach Hc Hent.
  destruct (reachable_timersMatch props s Hreach) as (_ & _ & Hdelay).
  assert (Hpending : pendingCallback s (SettleEnteringChild (key c))).
  { apply (reachable_settleMatch s Hreach); [done|].
    apply keySet_spec. by apply (list_elem_of_fmap_2 key). }
  destruct Hpending as (h & d & Hh).
  pose proof (Hdelay h _ d Hh) as Hd. simpl in Hd. subst d.
  exists h. split; [done|].
  unfold fireTimeout. rewrite Hh.
  destruct (requestActivation_timers
              (settleEnteringChild (key c) (takeTimeout h s)))
    as (_ & _ & _ & _ & _ & -> & _). simpl.
  unfold renderChild.
  rewrite (bool_decide_eq_false_2 (key c ∈ enteringChildren s ∖ {[key c]}));
    [done|set_solver].
Qed.
End Progress.

(** The leaving [B] has its remove timer. *)
Lemma no_leaving_child_is_stuck_witness :
  exists h,
    timeouts leavingB !! h
    = Some (RemoveLeavingChild (key (element (mkIndexed itemB 1))),
            transitionLeaveTimeout sampleProps)
    /\ (forall e', e' ∈ leavingChildren (fireTimeout h leavingB) ->
          key (element e') <> key (element (mkIndexed itemB 1))).
Proof.
  apply (no_leaving_child_is_stuck sampleProps leavingB (mkIndexed itemB 1)).
  - apply reachable_step, reachable_mount.
  - apply list_elem_of_In. vm_compute. left. reflexivity.
Defined.

(** The entering [D] has its settle timer. *)
Lemma no_entering_child_is_stuck_witness :
  exists h,
    timeouts enteringD !! h
    = Some (SettleEnteringChild (key itemD), transitionEnterTimeout sampleProps)
    /\ renderChild (transitionName sampleProps) (wrapWith sampleProps)
                   (enteringChildren (fireTimeout h enteringD))
                   (inactiveChildren (fireTimeout h enteringD)) itemD
       = cloneWithClassName itemD EmptyString (wrapWith sampleProps).
Proof.
  apply (no_entering_child_is_stuck sampleProps enteringD itemD).
  - apply reachable_step, reachable_mount.
  - apply list_elem_of_In. vm_compute. do 3 right. left. reflexivity.
  - eapply bool_decide_eq_true_1. vm_compute. reflexivity.
Defined.

(** ** Every pass, and the time after a key came back *)

Section Passes.
Variable props : ITransitionGroupProps.

(** C1. At every pass of an instance whose caller keeps the keys of its
    children unique, the merged indices of the leaving registry are
    pairwise distinct and lie in [0, total), with
    [total = oldChildren.length + leavingChildren.length]; the pass
    returns an array of length [total] without a hole; the free slots and
    the slots of the leaving children are the indices 0 .. total-1, each
    once; every leaving child sits at its own merged index; and the free
    slots, read in ascending order, hold the current children in their
    own order. *)
Theorem childrenToRender_fills_each_slot_once (s : State) :
  reachableUnique props s ->
  let total := (length (oldChildren s) + length (leavingChildren s))%nat in
  NoDup (map index (leavingChildren s))
  /\ Forall (fun e => 0 <= index e < Z.of_nat total) (leavingChildren s)
  /\ exists out,
      output props s = Some out
      /\ length out = total
      /\ (forall i, (i < total)%nat -> exists r, out !! i = Some (Some r))
      /\ freeSlots total (leavingChildren s)
           ++ (Z.to_nat <$> map index (leavingChildren s))
         ≡ₚ seq 0 total
      /\ (forall e, e ∈ leavingChildren s ->
            out !! Z.to_nat (index e)
            = Some (Some (renderLeaving (transitionName props) (wrapWith props)
                                        (inactiveChildren s) e)))
      /\ (fun i => out !! i) <$> freeSlots total (leavingChildren s)
         = (fun c => Some (Some (renderChild (transitionName props) (wrapWith props)
                                             (enteringChildren s)
                                             (inactiveChildren s) c)))
             <$> oldChildren s.
Proof.
  intros Hreach total.
  pose proof (registryWf_fits s (reachableUnique_registryWf props s Hreach)) as Hfits.
  split; [apply Hfits|]. split; [apply Hfits|].
  exact (childrenToRender_fills_fitting_registry
           (transitionName props) (wrapWith props) (oldChildren s)
           (enteringChildren s) (inactiveChildren s) (leavingChildren s) Hfits).
Qed.

Lemma run_keepsKey (k : Key) (evs : list Event) (s : State) :
  reachable props s -> k ∈ keySet (oldChildren s) -> Forall (keepsKey k) evs ->
  reachable props (run props evs s) /\ k ∈ keySet (oldChildren (run props evs s)).
Proof.
  revert s. induction evs as [|ev evs IH]; intros s Hreach Hk Hevs; [done|].
  apply Forall_cons in Hevs as [Hev Hevs]. simpl. apply IH; [|  |done].
  - by apply reachable_step.
  - destruct ev as [children|h|h]; simpl in *.
    + by destruct (update_fields props children s) as (_ & -> & _).
    + by destruct (fireTimeout_fields h s) as (-> & _).
    + by destruct (fireFrame_fields h s) as (-> & _).
Qed.

(** C5. In a reachable state, when a key of the leaving registry
    reappears among the children, the update takes it out of the
    registry, leaves no remove timer pending for it and a settle timer
    pending instead, and makes it entering and inactive, so that it is
    rendered with the class ["<name>-enter"] (and the render returns it
    in a slot whenever the registry fits). Thereafter, whatever timeouts
    and frames fire and whatever children arrive, as long as the children
    hold the key, it stays out of the registry, no remove timer is pending
    for it, it stays among the current children, and no slot of an output
    is a leaving rendering of it. *)
Theorem reinstated_key_is_fresh (s : State) (children : ChildrenProp) (k : Key)
    (evs : list Event) :
  reachable props s ->
  k ∈ keysOf (leavingChildren s) ->
  k ∈ keySet (items_of (toArray children)) ->
  Forall (keepsKey k) evs ->
  let s' := update props children s in
  let s'' := run props evs s' in
  (k ∉ keysOf (leavingChildren s'))
  /\ (forall h d, timeouts s' !! h <> Some (RemoveLeavingChild k, d))
  /\ (exists h, timeouts s' !! h
                = Some (SettleEnteringChild k, transitionEnterTimeout props))
  /\ k ∈ enteringChildren s' /\ k ∈ inactiveChildren s'
  /\ (forall c, c ∈ oldChildren s' -> key c = k ->
        renderChild (transitionName props) (wrapWith props)
                    (enteringChildren s') (inactiveChildren s') c
        = cloneWithClassName c (transitionName props +:+ "-enter") (wrapWith props))
  /\ (registryFits (length (oldChildren s') + length (leavingChildren s'))
                    (leavingChildren s') ->
      exists out,
        output props s' = Some out
        /\ forall c, c ∈ oldChildren s' -> key c = k ->
             exists i, out !! i
                       = Some (Some (cloneWithClassName c
                                       (transitionName props +:+ "-enter")
                                       (wrapWith props))))
  /\ (k ∉ keysOf (leavingChildren s''))
  /\ (forall h d, timeouts s'' !! h <> Some (RemoveLeavingChild k, d))
  /\ k ∈ keySet (oldChildren s'')
  /\ (forall out i r,
        output props s'' = Some out -> out !! i = Some (Some r) ->
        (exists e, e ∈ leavingChildren s'' /\ key (element e) <> k
                   /\ r = renderLeaving (transitionName props) (wrapWith props)
                                        (inactiveChildren s'') e)
        \/ (exists c, c ∈ oldChildren s''
                      /\ r = renderChild (transitionName props) (wrapWith props)
                                         (enteringChildren s'')
                                         (inactiveChildren s'') c)).
Proof.
  intros Hreach Hleaving Hback Hevs s' s''.
  destruct (reinstated_key_is_fresh_at_update props s children k [] Hreach Hleaving
              Hback (List.Forall_nil hostEvent))
    as (H1 & H2 & H3 & H4 & H5 & H6 & H7 & _).
  fold s' in H1, H2, H3, H4, H5, H6, H7.
  do 7 (split; [assumption|]).
  assert (Hreach' : reachable props s')
    by apply (reachable_step props s (NewChildren children) Hreach).
  assert (Hk' : k ∈ keySet (oldChildren s')).
  { unfold s'. by destruct (update_fields props children s) as (_ & -> & _). }
  destruct (run_keepsKey k evs s' Hreach' Hk' Hevs) as [Hreach'' Hk''].
  fold s'' in Hreach'', Hk''.
  assert (Hout'' : k ∉ keysOf (leavingChildren s'')).
  { intros Hin. apply keysOf_spec in Hin as (e & He & Hke).
    apply (reachable_apart props s'' Hreach'' e He). by rewrite Hke. }
  split; [done|]. split; [|split; [done|]].
  - intros h d Hh.
    destruct (reachable_timersMatch props s'' Hreach'') as (Hrem & _).
    apply Hout'', Hrem. by exists h, d.
  - intros out i r Hout Hi.
    destruct (childrenToRender_slots _ _ _ _ _ _ _ _ _ Hout Hi)
      as [(e & Hin & ->)|?]; [|by right].
    left. exists e. split; [done|]. split; [|done].
    intros Hke. apply Hout''. apply keysOf_spec. by exists e.
Qed.
End Passes.

(** The theorem after [B] was taken from the mounted [A, B, C]. *)
Lemma childrenToRender_fills_each_slot_once_witness :
  exists out,
    output sampleProps leavingB = Some out
    /\ length out = (length (oldChildren leavingB)
                     + length (leavingChildren leavingB))%nat.
Proof.
  destruct (childrenToRender_fills_each_slot_once sampleProps leavingB
              leavingB_reachableUnique) as (_ & _ & out & Hout & Hlen & _).
  exists out. split; [exact Hout|exact Hlen].
Defined.

(** The theorem when [B], leaving, comes back between [A] and [C], and
    after a frame the children arrive once more, in another order, before
    the old remove timeout's handle comes up. *)
Lemma reinstated_key_is_fresh_witness :
  reachable sampleProps leavingB
  /\ "B" ∈ keysOf (leavingChildren leavingB)
  /\ "B" ∈ keySet (items_of (toArray (childArray [itemA; itemB; itemC])))
  /\ Forall (keepsKey "B")
            [FrameFires 1%nat; NewChildren (childArray [itemB; itemA]);
             TimeoutFires 1%nat]
  /\ ("B" ∉ keysOf (leavingChildren
                      (update sampleProps (childArray [itemA; itemB; itemC]) leavingB)))
  /\ ("B" ∉ keysOf (leavingChildren
                      (run sampleProps
                           [FrameFires 1%nat; NewChildren (childArray [itemB; itemA]);
                            TimeoutFires 1%nat]
                           (update sampleProps (childArray [itemA; itemB; itemC])
                                   leavingB)))).
Proof.
  assert (Hreach : reachable sampleProps leavingB)
    by (apply reachable_step, reachable_mount).
  assert (H1 : "B" ∈ keysOf (leavingChildren leavingB))
    by (eapply bool_decide_eq_true_1; vm_compute; reflexivity).
  assert (H2 : "B" ∈ keySet (items_of (toArray (childArray [itemA; itemB; itemC]))))
    by (eapply bool_decide_eq_true_1; vm_compute; reflexivity).
  assert (H3 : Forall (keepsKey "B")
                 [FrameFires 1%nat; NewChildren (childArray [itemB; itemA]);
                  TimeoutFires 1%nat]).
  { apply Forall_cons. split; [exact I|]. apply Forall_cons. split.
    - simpl. eapply bool_decide_eq_true_1. vm_compute. reflexivity.
    - apply Forall_cons. split; [exact I|]. constructor. }
  split; [exact Hreach|]. split; [exact H1|].
  split; [exact H2|]. split; [exact H3|].
  destruct (reinstated_key_is_fresh sampleProps leavingB
              (childArray [itemA; itemB; itemC]) "B"
              [FrameFires 1%nat; NewChildren (childArray [itemB; itemA]);
               TimeoutFires 1%nat]
              Hreach H1 H2 H3) as (Hgone & _ & _ & _ & _ & _ & _ & Hlater & _).
  split; [exact Hgone|exact Hlater].
Defined.
